(** * Satellite / ground validation core: matcher and agreement statistics

    A shallow embedding of the spatial-temporal matcher and of the
    statistical helpers of [scientific_validation.py] and
    [ai_ml/validation/advanced_validation.py].

    Number model.  Python floats are idealised as exact numbers:
    - the geodistance primitive, the two matchers that call it and the
      Fisher-z interval live over the real numbers [R] (the haversine
      formula and the Fisher transform are transcendental);
    - the statistics (Deming regression, quantile mapping, permutation test,
      leave-one-city-out, bias correction, stratification) are rational
      functions of their inputs and live
      over [Q], with an explicit [float] type carrying NaN and the two
      infinities wherever the source tests for them or can produce them.

    Library calls.  The pandas, numpy and scikit-learn calls the code makes
    are modelled after their documented behaviour, exceptions included;
    [scipy.optimize.minimize], [np.sqrt] and the random generator are
    parameters.  Progress prints and figures are left out, except for the
    histogram call of [permutation_test], which can raise on the data; the
    warning lines of [deming_regression] are kept as its log. *)

From Stdlib Require Import List Bool Arith ZArith Lia String Ascii Permutation.
From Stdlib Require Import QArith Qabs Qminmax Qround Lqa.
From Stdlib Require Import Reals Lra Psatz.
From Stdlib Require OrderedTypeEx.
From Stdlib Require Import Sorted.
Import ListNotations.
Close Scope Q_scope.

(* ================================================================== *)
(** * 0. Python runtime: exceptions *)
(* ================================================================== *)

(** The exceptions the modelled code can meet. *)
Inductive exn : Type :=
| ValueError
| KeyError
| TypeError
| LinAlgError
| IndexError
| OptimizerError.

(** A Python call either returns or raises. *)
Inductive result (A : Type) : Type :=
| Ok (a : A)
| Raise (e : exn).
Arguments Ok {A} a.
Arguments Raise {A} e.

Definition bind {A B : Type} (r : result A) (k : A -> result B) : result B :=
  match r with
  | Ok a => k a
  | Raise e => Raise e
  end.

Notation "x <- c ;; k" := (bind c (fun x => k))
  (at level 61, c at next level, right associativity).

(** [try: body  except: handler] with a bare [except]. *)
Definition try_except {A : Type} (body : result A) (handler : result A) : result A :=
  match body with
  | Ok a => Ok a
  | Raise _ => handler
  end.

(** A [for] loop that collects what each iteration appends. *)
Fixpoint for_each {A B : Type} (f : A -> result (list B)) (l : list A) : result (list B) :=
  match l with
  | [] => Ok []
  | a :: l' =>
      out <- f a ;;
      rest <- for_each f l' ;;
      Ok (out ++ rest)
  end.

Lemma for_each_ok {A B : Type} (f : A -> result (list B)) (g : A -> list B) (l : list A) :
  (forall a, In a l -> f a = Ok (g a)) ->
  for_each f l = Ok (flat_map g l).
Proof.
  induction l as [|a l IH]; intros H; simpl.
  - reflexivity.
  - rewrite (H a) by (left; reflexivity). simpl.
    rewrite IH by (intros b Hb; apply H; right; exact Hb).
    reflexivity.
Qed.

Lemma for_each_In {A B : Type} (f : A -> result (list B)) (l : list A)
    (out : list B) (b : B) :
  for_each f l = Ok out -> In b out ->
  exists a o, In a l /\ f a = Ok o /\ In b o.
Proof.
  revert out. induction l as [|a l IH]; intros out; simpl.
  - intros [= <-] [].
  - destruct (f a) as [o|e] eqn:Ea; simpl; [|discriminate].
    destruct (for_each f l) as [rest|e] eqn:Er; simpl; [|discriminate].
    intros [= <-] Hin. apply in_app_or in Hin. destruct Hin as [Hin|Hin].
    + exists a, o. auto.
    + destruct (IH rest eq_refl Hin) as (a' & o' & Ha' & Hf & Hb).
      exists a', o'. auto.
Qed.

(* ================================================================== *)
(** * 1. Geodistance primitive ([haversine_distance]) *)
(* ================================================================== *)

Module Geo.
Local Open Scope R_scope.

(** [np.radians]: degrees to radians. *)
Definition radians (deg : R) : R := deg * PI / 180.

(** [haversine_distance(lat1, lon1, lat2, lon2)], scalar form.  The two
    source files carry the same nine lines. *)
Definition haversine_distance (lat1 lon1 lat2 lon2 : R) : R :=
  let R0 := 6371 in
  let lat1 := radians lat1 in
  let lon1 := radians lon1 in
  let lat2 := radians lat2 in
  let lon2 := radians lon2 in
  let dlat := lat2 - lat1 in
  let dlon := lon2 - lon1 in
  let a := (sin (dlat / 2)) ^ 2 + cos lat1 * cos lat2 * (sin (dlon / 2)) ^ 2 in
  let c := 2 * asin (sqrt a) in
  R0 * c.

(** The vectorised call of the matchers: one ground point against the
    latitude and longitude columns of a frame (numpy broadcasting). *)
Definition haversine_distance_vec (lat1 lon1 : R) (pts : list (R * R)) : list R :=
  map (fun p => haversine_distance lat1 lon1 (fst p) (snd p)) pts.

Lemma sin_half_swap (u v : R) : (sin ((u - v) / 2)) ^ 2 = (sin ((v - u) / 2)) ^ 2.
Proof.
  replace ((u - v) / 2) with (- ((v - u) / 2)) by lra.
  rewrite sin_neg. ring.
Qed.

Lemma haversine_distance_sym (lat1 lon1 lat2 lon2 : R) :
  haversine_distance lat1 lon1 lat2 lon2 = haversine_distance lat2 lon2 lat1 lon1.
Proof.
  unfold haversine_distance.
  rewrite (sin_half_swap (radians lat2) (radians lat1)).
  rewrite (sin_half_swap (radians lon2) (radians lon1)).
  rewrite (Rmult_comm (cos (radians lat1)) (cos (radians lat2))).
  reflexivity.
Qed.

Lemma haversine_distance_self (lat lon : R) :
  haversine_distance lat lon lat lon = 0.
Proof.
  unfold haversine_distance.
  replace ((radians lat - radians lat) / 2) with 0 by lra.
  replace ((radians lon - radians lon) / 2) with 0 by lra.
  rewrite sin_0.
  replace (0 ^ 2 + cos (radians lat) * cos (radians lat) * 0 ^ 2) with 0 by ring.
  rewrite sqrt_0, asin_0. ring.
Qed.

(** C9.  The geodistance primitive is symmetric in its two points, vanishes
    on coincident points, and is the haversine formula
    [6371 * 2 * asin (sqrt a)] with Earth radius 6371 km. *)
Theorem haversine_symmetric_and_zero_on_diagonal :
  (forall lat1 lon1 lat2 lon2,
      haversine_distance lat1 lon1 lat2 lon2 = haversine_distance lat2 lon2 lat1 lon1)
  /\ (forall lat lon, haversine_distance lat lon lat lon = 0)
  /\ (forall lat1 lon1 lat2 lon2,
        haversine_distance lat1 lon1 lat2 lon2
        = 6371 * (2 * asin (sqrt ((sin ((radians lat2 - radians lat1) / 2)) ^ 2
                                  + cos (radians lat1) * cos (radians lat2)
                                    * (sin ((radians lon2 - radians lon1) / 2)) ^ 2)))).
Proof.
  split; [exact haversine_distance_sym|].
  split; [exact haversine_distance_self|].
  intros; reflexivity.
Qed.

End Geo.

(* ================================================================== *)
(** * 2. The pandas objects the matchers use *)
(* ================================================================== *)

Module Pandas.
Local Open Scope R_scope.

(** A [Series] (and, with a record for the row, a [DataFrame]) is the
    sequence of its rows in storage order, each under its index label. *)
Definition Series (A : Type) : Type := list (nat * A).

Definition labels {A : Type} (s : Series A) : list nat := map fst s.

(** Elementwise operation on the values, the index is kept. *)
Definition smap {A B : Type} (f : A -> B) (s : Series A) : Series B :=
  map (fun e => (fst e, f (snd e))) s.

(** Elementwise binary operation of two series over the same index. *)
Definition szip {A B C : Type} (f : A -> B -> C) (s : Series A) (t : Series B) : Series C :=
  map (fun e => (fst (fst e), f (snd (fst e)) (snd (snd e)))) (combine s t).

(** [s[mask]]: boolean indexing with a mask over the same index. *)
Definition bool_index {A : Type} (s : Series A) (mask : Series bool) : Series A :=
  map fst (filter (fun e => snd (snd e)) (combine s mask)).

(** [mask.any()]. *)
Definition any (mask : Series bool) : bool := existsb snd mask.

(** [s.loc[label]] / [s[label]] on a unique index: the row under a
    label, [KeyError] when the label is absent.  Under a repeated label
    pandas hands back all the rows that carry it, not one row; the
    statements that depend on what is looked up are made for frames whose
    labels are distinct ([NoDup (labels s)]), where this is the pandas
    result. *)
Fixpoint loc {A : Type} (s : Series A) (label : nat) : result A :=
  match s with
  | [] => Raise KeyError
  | (i, a) :: s' => if Nat.eqb i label then Ok a else loc s' label
  end.

(** Comparisons of floats, as booleans. *)
Definition Rleb (a b : R) : bool := if Rle_dec a b then true else false.
Definition Rltb (a b : R) : bool := if Rlt_dec a b then true else false.

(** [s.idxmin()]: label of the first occurrence of the minimum;
    [ValueError] on an empty series. *)
Fixpoint idxmin_from (best_label : nat) (best : R) (s : Series R) : nat :=
  match s with
  | [] => best_label
  | (i, v) :: s' =>
      if Rltb v best then idxmin_from i v s' else idxmin_from best_label best s'
  end.

Definition idxmin (s : Series R) : result nat :=
  match s with
  | [] => Raise ValueError
  | (i, v) :: s' => Ok (idxmin_from i v s')
  end.

(** ** Facts *)

Lemma Rleb_true_iff (a b : R) : Rleb a b = true <-> a <= b.
Proof. unfold Rleb. destruct (Rle_dec a b); split; intros; try easy. Qed.

Lemma Rleb_false_iff (a b : R) : Rleb a b = false <-> b < a.
Proof.
  unfold Rleb. destruct (Rle_dec a b); split; intros; try easy; lra.
Qed.

Lemma Rltb_true_iff (a b : R) : Rltb a b = true <-> a < b.
Proof. unfold Rltb. destruct (Rlt_dec a b); split; intros; try easy. Qed.

Lemma Rltb_false_iff (a b : R) : Rltb a b = false <-> b <= a.
Proof.
  unfold Rltb. destruct (Rlt_dec a b); split; intros; try easy; lra.
Qed.

Lemma combine_smap_r {A B : Type} (f : A -> B) (s : Series A) :
  combine s (smap f s) = map (fun e => (e, (fst e, f (snd e)))) s.
Proof. induction s as [|e s IH]; simpl; [reflexivity|]. now rewrite IH. Qed.

(** Boolean indexing with a mask computed from the series itself is a
    filter. *)
Lemma bool_index_smap {A : Type} (p : A -> bool) (s : Series A) :
  bool_index s (smap p s) = filter (fun e => p (snd e)) s.
Proof.
  unfold bool_index. rewrite combine_smap_r.
  induction s as [|e s IH]; simpl; [reflexivity|].
  destruct (p (snd e)); simpl; now rewrite IH.
Qed.

(** The same mask applied to a series derived from [s]. *)
Lemma bool_index_smap2 {A B : Type} (f : A -> B) (p : A -> bool) (s : Series A) :
  bool_index (smap f s) (smap p s) = smap f (filter (fun e => p (snd e)) s).
Proof.
  unfold bool_index, smap.
  induction s as [|e s IH]; simpl; [reflexivity|].
  destruct (p (snd e)); simpl; now rewrite IH.
Qed.

Lemma smap_smap {A B C : Type} (f : A -> B) (g : B -> C) (s : Series A) :
  smap g (smap f s) = smap (fun a => g (f a)) s.
Proof. unfold smap. rewrite map_map. reflexivity. Qed.

Lemma szip_smap {A B C D : Type} (h : B -> C -> D) (f : A -> B) (g : A -> C) (s : Series A) :
  szip h (smap f s) (smap g s) = smap (fun a => h (f a) (g a)) s.
Proof.
  unfold szip, smap. induction s as [|e s IH]; simpl; [reflexivity|].
  now rewrite IH.
Qed.

Lemma any_smap {A : Type} (p : A -> bool) (s : Series A) :
  any (smap p s) = existsb (fun e => p (snd e)) s.
Proof.
  unfold any, smap. induction s as [|e s IH]; simpl; [reflexivity|].
  now rewrite IH.
Qed.

Lemma existsb_filter_nil {A : Type} (p : A -> bool) (l : list A) :
  existsb p l = negb (match filter p l with [] => true | _ => false end).
Proof.
  induction l as [|a l IH]; simpl; [reflexivity|].
  destruct (p a); simpl; [reflexivity|exact IH].
Qed.

Lemma loc_smap {A B : Type} (f : A -> B) (s : Series A) (k : nat) (a : A) :
  loc s k = Ok a -> loc (smap f s) k = Ok (f a).
Proof.
  induction s as [|[i x] s IH]; simpl; [discriminate|].
  destruct (Nat.eqb i k); [intros [= ->]; reflexivity|exact IH].
Qed.

Lemma loc_In {A : Type} (s : Series A) (k : nat) (a : A) :
  loc s k = Ok a -> In (k, a) s.
Proof.
  induction s as [|[i x] s IH]; simpl; [discriminate|].
  destruct (Nat.eqb i k) eqn:E.
  - intros [= ->]. apply Nat.eqb_eq in E. subst. now left.
  - intros H. right. now apply IH.
Qed.

Lemma loc_found {A : Type} (s : Series A) (k : nat) :
  In k (labels s) -> exists a, loc s k = Ok a.
Proof.
  induction s as [|[i x] s IH]; simpl; [easy|].
  intros [->|H].
  - rewrite Nat.eqb_refl. now exists x.
  - destruct (Nat.eqb i k); [now exists x|now apply IH].
Qed.

(** With a unique index, a row is found under its own label. *)
Lemma loc_unique {A : Type} (s1 s2 : Series A) (k : nat) (a : A) :
  ~ In k (labels s1) -> loc (s1 ++ (k, a) :: s2) k = Ok a.
Proof.
  induction s1 as [|[i x] s1 IH]; simpl; intros H.
  - now rewrite Nat.eqb_refl.
  - destruct (Nat.eqb i k) eqn:E.
    + apply Nat.eqb_eq in E. exfalso. apply H. now left.
    + apply IH. intros Hin. apply H. now right.
Qed.

(** What [idxmin] returns: the position of the first minimum. *)
Lemma idxmin_from_spec (s : Series R) (bl : nat) (b : R) :
  (idxmin_from bl b s = bl /\ forall e, In e s -> b <= snd e)
  \/ (exists s1 v s2,
        s = s1 ++ (idxmin_from bl b s, v) :: s2
        /\ v < b
        /\ (forall e, In e s1 -> v < snd e)
        /\ (forall e, In e s2 -> v <= snd e)).
Proof.
  revert bl b. induction s as [|[i v] s IH]; intros bl b; simpl.
  - left. split; [reflexivity|easy].
  - destruct (Rltb v b) eqn:E.
    + apply Rltb_true_iff in E. right.
      destruct (IH i v) as [[Hk Hall]|(s1 & v' & s2 & Hs & Hlt & H1 & H2)].
      * exists [], v, s. rewrite Hk. simpl. repeat split; try easy.
      * exists ((i, v) :: s1), v', s2. rewrite Hs at 1. simpl.
        repeat split; try easy; try lra.
        intros e [<-|He]; simpl; [lra|now apply H1].
    + apply Rltb_false_iff in E.
      destruct (IH bl b) as [[Hk Hall]|(s1 & v' & s2 & Hs & Hlt & H1 & H2)].
      * left. split; [exact Hk|]. intros e [<-|He]; simpl; [lra|now apply Hall].
      * right. exists ((i, v) :: s1), v', s2. rewrite Hs at 1. simpl.
        repeat split; try easy.
        intros e [<-|He]; simpl; [lra|now apply H1].
Qed.

Lemma idxmin_spec (s : Series R) :
  s <> [] ->
  exists k s1 v s2,
    idxmin s = Ok k
    /\ s = s1 ++ (k, v) :: s2
    /\ (forall e, In e s1 -> v < snd e)
    /\ (forall e, In e s2 -> v <= snd e).
Proof.
  destruct s as [|[i v] s]; [easy|intros _]. simpl.
  destruct (idxmin_from_spec s i v) as [[Hk Hall]|(s1 & v' & s2 & Hs & Hlt & H1 & H2)].
  - exists i, [], v, s. rewrite Hk. simpl. repeat split; easy.
  - exists (idxmin_from i v s), ((i, v) :: s1), v', s2.
    split; [reflexivity|]. split; [simpl; now rewrite <- Hs|].
    split; [|exact H2].
    intros e [<-|He]; simpl; [lra|now apply H1].
Qed.

(** A split of a filtered list comes from a split of the list. *)
Lemma filter_split {A : Type} (p : A -> bool) (l : list A) (s1 s2 : list A) (x : A) :
  filter p l = s1 ++ x :: s2 ->
  exists l1 l2, l = l1 ++ x :: l2 /\ filter p l1 = s1 /\ filter p l2 = s2.
Proof.
  revert s1. induction l as [|a l IH]; intros s1; simpl.
  - destruct s1; discriminate.
  - destruct (p a) eqn:E.
    + destruct s1 as [|y s1]; simpl.
      * intros [= -> <-]. exists [], l. simpl. easy.
      * intros [= -> H]. destruct (IH _ H) as (l1 & l2 & -> & H1 & H2).
        exists (y :: l1), l2. simpl. rewrite E, H1. easy.
    + intros H. destruct (IH _ H) as (l1 & l2 & -> & H1 & H2).
      exists (a :: l1), l2. simpl. rewrite E. easy.
Qed.

Lemma smap_split {A B : Type} (f : A -> B) (s : Series A)
    (s1 s2 : Series B) (k : nat) (v : B) :
  smap f s = s1 ++ (k, v) :: s2 ->
  exists c1 q c2,
    s = c1 ++ (k, q) :: c2 /\ f q = v /\ s1 = smap f c1 /\ s2 = smap f c2.
Proof.
  unfold smap. intros H.
  apply map_eq_app in H. destruct H as (c1 & c' & -> & H1 & H2).
  apply map_eq_cons in H2. destruct H2 as ([k' q] & c2 & -> & H2 & H3).
  simpl in H2. injection H2 as -> Hv.
  exists c1, q, c2. repeat split; auto.
Qed.

Lemma In_smap {A B : Type} (f : A -> B) (s : Series A) (e : nat * A) :
  In e s -> In (fst e, f (snd e)) (smap f s).
Proof. intros H. unfold smap. now apply (in_map (fun e => (fst e, f (snd e)))). Qed.

Lemma labels_filter_NoDup {A : Type} (p : nat * A -> bool) (s : Series A) :
  NoDup (labels s) -> NoDup (labels (filter p s)).
Proof.
  unfold labels. induction s as [|e s IH]; simpl; intros H; [constructor|].
  inversion H as [|x l Hx Hl]; subst.
  destruct (p e); simpl; [|now apply IH].
  constructor; [|now apply IH].
  intros Hin. apply Hx.
  apply in_map_iff in Hin. destruct Hin as (e' & He' & Hin).
  apply filter_In in Hin. apply in_map_iff. exists e'. tauto.
Qed.

Lemma NoDup_labels_app_cons {A : Type} (s1 s2 : Series A) (k : nat) (a : A) :
  NoDup (labels (s1 ++ (k, a) :: s2)) -> ~ In k (labels s1).
Proof.
  unfold labels. rewrite map_app. simpl. intros H Hin.
  apply NoDup_remove_2 in H. apply H. apply in_or_app. now left.
Qed.

Lemma flat_map_length_le {A B : Type} (f f' : A -> list B) (l : list A) :
  (forall a, In a l -> (List.length (f a) <= List.length (f' a))%nat) ->
  (List.length (flat_map f l) <= List.length (flat_map f' l))%nat.
Proof.
  induction l as [|a l IH]; intros H; simpl; [lia|].
  rewrite !length_app.
  specialize (H a (or_introl eq_refl)) as Ha.
  assert (IH' := IH (fun b Hb => H b (or_intror Hb))). lia.
Qed.

Lemma labels_filter_In {A : Type} (p : nat * A -> bool) (s : Series A) (k : nat) :
  In k (labels (filter p s)) -> In k (labels s).
Proof.
  unfold labels. intros H. apply in_map_iff in H. destruct H as (e & He & Hin).
  apply filter_In in Hin. apply in_map_iff. exists e. tauto.
Qed.

Lemma length_eqb_0 {A : Type} (l : list A) :
  (List.length l =? 0)%nat = match l with [] => true | _ => false end.
Proof. destruct l; reflexivity. Qed.

Lemma Rleb_true (a b : R) : a <= b -> Rleb a b = true.
Proof. apply Rleb_true_iff. Qed.

Lemma Rleb_false (a b : R) : b < a -> Rleb a b = false.
Proof. apply Rleb_false_iff. Qed.

Lemma Rltb_true (a b : R) : a < b -> Rltb a b = true.
Proof. apply Rltb_true_iff. Qed.

Lemma Rltb_false (a b : R) : b <= a -> Rltb a b = false.
Proof. apply Rltb_false_iff. Qed.

Lemma NoDup_labels_two {A : Type} (a b : A) : NoDup (labels [(0%nat, a); (1%nat, b)]).
Proof.
  simpl. constructor.
  - intros [H|[]]. discriminate H.
  - constructor; [easy|constructor].
Qed.

Lemma NoDup_labels_one {A : Type} (a : A) : NoDup (labels [(0%nat, a)]).
Proof. simpl. constructor; [easy|constructor]. Qed.

End Pandas.

(* ================================================================== *)
(** * 3. The configurable matcher ([scientific_validation.py]) *)
(* ================================================================== *)

Module Scientific.
Import Pandas.
Local Open Scope R_scope.

(** Timestamps are counted in whole seconds since the epoch. *)
Definition Timestamp : Type := Z.

(** [timedelta.total_seconds() / 3600]. *)
Definition hours_between (t1 t2 : Timestamp) : R := IZR (t1 - t2) / 3600.

(** [Timestamp.hour]. *)
Definition hour (t : Timestamp) : Z := ((t / 3600) mod 24)%Z.

(** A row of the cleaned ground frame. *)
Record GroundRow : Type := {
  Latitude : R;
  Longitude : R;
  g_time_utc : Timestamp;
  AQI : R;
  ParameterName : string;
  g_city : string
}.

(** A row of a regional TEMPO frame. *)
Record TempoRow : Type := {
  latitude : R;
  longitude : R;
  time_utc : Timestamp;
  no2 : R;
  o3 : R
}.

(** The dictionary appended to [matched_pairs]. *)
Record MatchedPair : Type := {
  ground_lat : R;
  ground_lon : R;
  ground_time : Timestamp;
  ground_value : R;
  ground_parameter : string;
  tempo_lat : R;
  tempo_lon : R;
  tempo_time : Timestamp;
  tempo_no2 : R;
  tempo_o3 : R;
  distance_km : R;
  time_diff_hours : R;
  city : string;
  region : string;
  hour_of_day : Z
}.

(** Default arguments of the matcher. *)
Definition default_spatial_radius_km : R := 20.
Definition default_temporal_window_hours : R := 1.

Definition in_list (s : string) (l : list string) : bool :=
  existsb (String.eqb s) l.

(** The static city -> region chain of [if]/[elif]; [None] is the final
    [else: continue]. *)
Definition tempo_region_of (c : string) : option string :=
  if in_list c ["New York City"; "Philadelphia"; "Boston"; "Washington DC"]%string
  then Some "NYC"%string
  else if in_list c ["Montreal"; "Toronto"; "Hamilton"]%string
  then Some "Canada"%string
  else if in_list c ["Mexico City"; "Ecatepec"; "Toluca"]%string
  then Some "Mexico"%string
  else None.

(** [tempo_data]: a dict from region name to frame. *)
Definition TempoData : Type := list (string * Series TempoRow).

Fixpoint dict_get (d : TempoData) (k : string) : option (Series TempoRow) :=
  match d with
  | [] => None
  | (k', v) :: d' => if String.eqb k' k then Some v else dict_get d' k
  end.

(** [ground_data.groupby('city')]: one group per distinct city, groups in
    sorted key order, rows of a group in frame order. *)
Fixpoint insert_key (k : string) (ks : list string) : list string :=
  match ks with
  | [] => [k]
  | k' :: ks' =>
      match String.compare k k' with
      | Lt => k :: ks
      | Eq => ks
      | Gt => k' :: insert_key k ks'
      end
  end.

Definition group_keys (df : Series GroundRow) : list string :=
  fold_right insert_key [] (map (fun e => g_city (snd e)) df).

Definition groupby_city (df : Series GroundRow) : list (string * Series GroundRow) :=
  map (fun k => (k, filter (fun e => String.eqb (g_city (snd e)) k) df)) (group_keys df).

(** The body of the inner loop for one ground row: [Ok None] is a
    [continue], [Ok (Some pair)] an [append]. *)
Definition match_ground_row (spatial_radius_km temporal_window_hours : R)
    (city_name tempo_region : string) (region_tempo : Series TempoRow)
    (ground_row : GroundRow) : result (option MatchedPair) :=
  let distances :=
    smap (fun p => Geo.haversine_distance (Latitude ground_row) (Longitude ground_row)
                                          (latitude p) (longitude p)) region_tempo in
  let spatial_mask := smap (fun d => Rleb d spatial_radius_km) distances in
  if negb (any spatial_mask) then Ok None else
  let nearby_tempo := bool_index region_tempo spatial_mask in
  let nearby_distances := bool_index distances spatial_mask in
  let time_diff :=
    smap (fun p => Rabs (hours_between (time_utc p) (g_time_utc ground_row))) nearby_tempo in
  let temporal_mask := smap (fun t => Rleb t temporal_window_hours) time_diff in
  if negb (any temporal_mask) then Ok None else
  let matched_tempo := bool_index nearby_tempo temporal_mask in
  let matched_distances := bool_index nearby_distances temporal_mask in
  let matched_time_diffs := bool_index time_diff temporal_mask in
  let combined_score := szip (fun d t => d + t * 2) matched_distances matched_time_diffs in
  best_idx <- idxmin combined_score ;;
  best_tempo <- loc matched_tempo best_idx ;;
  d <- loc matched_distances best_idx ;;
  t <- loc matched_time_diffs best_idx ;;
  Ok (Some {|
    ground_lat := Latitude ground_row;
    ground_lon := Longitude ground_row;
    ground_time := g_time_utc ground_row;
    ground_value := AQI ground_row;
    ground_parameter := ParameterName ground_row;
    tempo_lat := latitude best_tempo;
    tempo_lon := longitude best_tempo;
    tempo_time := time_utc best_tempo;
    tempo_no2 := no2 best_tempo;
    tempo_o3 := o3 best_tempo;
    distance_km := d;
    time_diff_hours := t;
    city := city_name;
    region := tempo_region;
    hour_of_day := hour (g_time_utc ground_row)
  |}).

Definition emitted (o : option MatchedPair) : list MatchedPair :=
  match o with
  | Some mp => [mp]
  | None => []
  end.

(** [scientific_spatial_temporal_matching(ground_data, tempo_data,
    spatial_radius_km, temporal_window_hours)]; the returned frame is the
    list of appended pairs. *)
Definition scientific_spatial_temporal_matching
    (ground_data : Series GroundRow) (tempo_data : TempoData)
    (spatial_radius_km temporal_window_hours : R) : result (list MatchedPair) :=
  for_each
    (fun group =>
       let city_name := fst group in
       let city_data := snd group in
       match tempo_region_of city_name with
       | None => Ok []
       | Some tempo_region =>
           match dict_get tempo_data tempo_region with
           | None => Ok []
           | Some region_tempo =>
               for_each
                 (fun ground_row =>
                    o <- match_ground_row spatial_radius_km temporal_window_hours
                           city_name tempo_region region_tempo ground_row ;;
                    Ok (emitted o))
                 (map snd city_data)
           end
       end)
    (groupby_city ground_data).

(** ** Facts about the configurable matcher *)

(** The quantities the loop body computes for one pixel. *)
Definition dist (g : GroundRow) (p : TempoRow) : R :=
  Geo.haversine_distance (Latitude g) (Longitude g) (latitude p) (longitude p).

Definition tdiff (g : GroundRow) (p : TempoRow) : R :=
  Rabs (hours_between (time_utc p) (g_time_utc g)).

Definition score (g : GroundRow) (p : TempoRow) : R := dist g p + tdiff g p * 2.

(** A pixel is admissible for a ground row when it passes both masks. *)
Definition admissible (r w : R) (g : GroundRow) (p : TempoRow) : bool :=
  Rleb (dist g p) r && Rleb (tdiff g p) w.

(** The rows of [matched_tempo], in frame order. *)
Definition candidates (r w : R) (g : GroundRow) (T : Series TempoRow) : Series TempoRow :=
  filter (fun e => Rleb (tdiff g (snd e)) w)
         (filter (fun e => Rleb (dist g (snd e)) r) T).

(** The pair appended for ground row [g] and selected pixel [p]. *)
Definition pair_of (c reg : string) (g : GroundRow) (p : TempoRow) : MatchedPair :=
  {| ground_lat := Latitude g;
     ground_lon := Longitude g;
     ground_time := g_time_utc g;
     ground_value := AQI g;
     ground_parameter := ParameterName g;
     tempo_lat := latitude p;
     tempo_lon := longitude p;
     tempo_time := time_utc p;
     tempo_no2 := no2 p;
     tempo_o3 := o3 p;
     distance_km := dist g p;
     time_diff_hours := tdiff g p;
     city := c;
     region := reg;
     hour_of_day := hour (g_time_utc g) |}.

Lemma candidates_admissible (r w : R) (g : GroundRow) (T : Series TempoRow) :
  candidates r w g T = filter (fun e => admissible r w g (snd e)) T.
Proof.
  unfold candidates, admissible.
  induction T as [|e T IH]; simpl; [reflexivity|].
  destruct (Rleb (dist g (snd e)) r); simpl; [|exact IH].
  destruct (Rleb (tdiff g (snd e)) w); simpl; now rewrite IH.
Qed.

(** The loop body, with the masks resolved into the candidate list. *)
Lemma match_ground_row_candidates (r w : R) (c reg : string)
    (T : Series TempoRow) (g : GroundRow) :
  match_ground_row r w c reg T g =
  match candidates r w g T with
  | [] => Ok None
  | _ :: _ =>
      k <- idxmin (smap (score g) (candidates r w g T)) ;;
      p <- loc (candidates r w g T) k ;;
      Ok (Some (pair_of c reg g p))
  end.
Proof.
  unfold match_ground_row.
  change (fun p : TempoRow =>
            Geo.haversine_distance (Latitude g) (Longitude g) (latitude p) (longitude p))
    with (dist g).
  change (fun p : TempoRow => Rabs (hours_between (time_utc p) (g_time_utc g)))
    with (tdiff g).
  rewrite !smap_smap, !any_smap.
  rewrite (bool_index_smap (fun p => Rleb (dist g p) r) T).
  rewrite (bool_index_smap2 (dist g) (fun p => Rleb (dist g p) r) T).
  set (N := filter (fun e => Rleb (dist g (snd e)) r) T).
  rewrite (bool_index_smap (fun p => Rleb (tdiff g p) w) N).
  rewrite !(bool_index_smap2 _ (fun p => Rleb (tdiff g p) w) N).
  rewrite szip_smap.
  change (fun a : TempoRow => dist g a + tdiff g a * 2) with (score g).
  rewrite (existsb_filter_nil (fun e => Rleb (tdiff g (snd e)) w) N).
  rewrite (existsb_filter_nil (fun e => Rleb (dist g (snd e)) r) T).
  fold N.
  change (candidates r w g T) with (filter (fun e => Rleb (tdiff g (snd e)) w) N).
  destruct (filter (fun e => Rleb (tdiff g (snd e)) w) N) as [|e C] eqn:EC.
  - destruct N; reflexivity.
  - destruct N as [|n N']; [discriminate EC|].
    simpl negb. cbv iota.
    destruct (idxmin (smap (score g) (e :: C))) as [k|x]; [|reflexivity].
    cbn [bind].
    destruct (loc (e :: C) k) as [p|x] eqn:Ep; [|reflexivity].
    rewrite (loc_smap (dist g) _ _ _ Ep), (loc_smap (tdiff g) _ _ _ Ep).
    reflexivity.
Qed.

(** What the loop body selects: the candidate list is split at the first
    minimum of the combined score, and the row found under that label is
    the one emitted. *)
Lemma match_ground_row_selects (r w : R) (c reg : string)
    (T : Series TempoRow) (g : GroundRow) :
  candidates r w g T <> [] ->
  exists k q C1 C2 p,
    candidates r w g T = C1 ++ (k, q) :: C2
    /\ (forall e, In e C1 -> score g q < score g (snd e))
    /\ (forall e, In e C2 -> score g q <= score g (snd e))
    /\ loc (candidates r w g T) k = Ok p
    /\ match_ground_row r w c reg T g = Ok (Some (pair_of c reg g p)).
Proof.
  intros Hne. rewrite match_ground_row_candidates.
  destruct (idxmin_spec (smap (score g) (candidates r w g T)))
    as (k & s1 & v & s2 & Hk & Hs & H1 & H2).
  { destruct (candidates r w g T); [easy|discriminate]. }
  destruct (smap_split _ _ _ _ _ _ Hs) as (C1 & q & C2 & HC & Hv & -> & ->).
  destruct (loc_found (candidates r w g T) k) as [p Hp].
  { rewrite HC. unfold labels. rewrite map_app. apply in_or_app. right. now left. }
  exists k, q, C1, C2, p. split; [exact HC|].
  split.
  { intros e He. rewrite Hv. apply (H1 _ (In_smap (score g) C1 e He)). }
  split.
  { intros e He. rewrite Hv. apply (H2 _ (In_smap (score g) C2 e He)). }
  split; [exact Hp|].
  rewrite Hk. cbn [bind]. rewrite Hp. cbn [bind].
  destruct (candidates r w g T); [easy|reflexivity].
Qed.

Lemma match_ground_row_none (r w : R) (c reg : string)
    (T : Series TempoRow) (g : GroundRow) :
  candidates r w g T = [] -> match_ground_row r w c reg T g = Ok None.
Proof. intros H. rewrite match_ground_row_candidates, H. reflexivity. Qed.

(** The loop body never raises: it appends one pair when the candidate
    list is non-empty and continues otherwise. *)
Definition select (r w : R) (c reg : string) (T : Series TempoRow) (g : GroundRow)
  : option MatchedPair :=
  match match_ground_row r w c reg T g with
  | Ok o => o
  | Raise _ => None
  end.

Lemma match_ground_row_total (r w : R) (c reg : string)
    (T : Series TempoRow) (g : GroundRow) :
  match_ground_row r w c reg T g = Ok (select r w c reg T g).
Proof.
  unfold select.
  destruct (candidates r w g T) as [|e C] eqn:EC.
  - now rewrite (match_ground_row_none _ _ _ _ _ _ EC).
  - destruct (match_ground_row_selects r w c reg T g) as (k & q & C1 & C2 & p & _ & _ & _ & _ & H).
    { rewrite EC. discriminate. }
    now rewrite H.
Qed.

Lemma select_some_iff (r w : R) (c reg : string) (T : Series TempoRow) (g : GroundRow) :
  (exists mp, select r w c reg T g = Some mp) <-> candidates r w g T <> [].
Proof.
  unfold select. split.
  - intros [mp H] HC. rewrite (match_ground_row_none _ _ _ _ _ _ HC) in H. discriminate.
  - intros HC.
    destruct (match_ground_row_selects r w c reg T g HC)
      as (k & q & C1 & C2 & p & _ & _ & _ & _ & H).
    rewrite H. eauto.
Qed.

(** Tolerance invariant of the configurable matcher, per emitted pair. *)
Lemma match_ground_row_within_tolerance (r w : R) (c reg : string)
    (T : Series TempoRow) (g : GroundRow) (mp : MatchedPair) :
  match_ground_row r w c reg T g = Ok (Some mp) ->
  distance_km mp <= r /\ time_diff_hours mp <= w.
Proof.
  intros H.
  destruct (candidates r w g T) as [|e C] eqn:EC.
  - rewrite (match_ground_row_none _ _ _ _ _ _ EC) in H. discriminate.
  - destruct (match_ground_row_selects r w c reg T g)
      as (k & q & C1 & C2 & p & _ & _ & _ & Hp & H').
    { rewrite EC. discriminate. }
    rewrite H' in H. injection H as <-.
    apply loc_In in Hp. rewrite candidates_admissible in Hp.
    apply filter_In in Hp. destruct Hp as [_ Hadm].
    unfold admissible in Hadm. simpl in Hadm.
    apply andb_true_iff in Hadm. destruct Hadm as [Hd Ht].
    apply Rleb_true_iff in Hd. apply Rleb_true_iff in Ht.
    simpl. split; assumption.
Qed.

(** The whole matcher returns, and what it returns is the concatenation
    of the selections. *)
Definition matched_pairs_of (ground_data : Series GroundRow) (tempo_data : TempoData)
    (r w : R) : list MatchedPair :=
  flat_map
    (fun group =>
       match tempo_region_of (fst group) with
       | None => []
       | Some reg =>
           match dict_get tempo_data reg with
           | None => []
           | Some T =>
               flat_map (fun g => emitted (select r w (fst group) reg T g))
                        (map snd (snd group))
           end
       end)
    (groupby_city ground_data).

Lemma scientific_matching_total (ground_data : Series GroundRow)
    (tempo_data : TempoData) (r w : R) :
  scientific_spatial_temporal_matching ground_data tempo_data r w
  = Ok (matched_pairs_of ground_data tempo_data r w).
Proof.
  unfold scientific_spatial_temporal_matching, matched_pairs_of.
  apply for_each_ok. intros [c rows] _. simpl.
  destruct (tempo_region_of c) as [reg|]; [|reflexivity].
  destruct (dict_get tempo_data reg) as [T|]; [|reflexivity].
  apply for_each_ok. intros g _.
  now rewrite match_ground_row_total.
Qed.

Lemma candidates_widen (r w r' w' : R) (g : GroundRow) (T : Series TempoRow) :
  r <= r' -> w <= w' ->
  candidates r w g T <> [] -> candidates r' w' g T <> [].
Proof.
  intros Hr Hw. rewrite !candidates_admissible.
  induction T as [|e T IH]; simpl; [easy|].
  destruct (admissible r w g (snd e)) eqn:E.
  - intros _. unfold admissible in *.
    apply andb_true_iff in E. destruct E as [Hd Ht].
    apply Rleb_true_iff in Hd. apply Rleb_true_iff in Ht.
    assert (Hd' : Rleb (dist g (snd e)) r' = true) by (apply Rleb_true_iff; lra).
    assert (Ht' : Rleb (tdiff g (snd e)) w' = true) by (apply Rleb_true_iff; lra).
    rewrite Hd', Ht'. simpl. discriminate.
  - intros H. specialize (IH H).
    destruct (admissible r' w' g (snd e)); [discriminate|exact IH].
Qed.

Lemma emitted_widen (r w r' w' : R) (c reg : string) (T : Series TempoRow) (g : GroundRow) :
  r <= r' -> w <= w' ->
  (List.length (emitted (select r w c reg T g))
   <= List.length (emitted (select r' w' c reg T g)))%nat.
Proof.
  intros Hr Hw.
  destruct (select r w c reg T g) as [mp|] eqn:E; simpl; [|lia].
  assert (HC : candidates r w g T <> []) by (apply (select_some_iff r w c reg); eauto).
  apply (candidates_widen r w r' w' g T Hr Hw) in HC.
  apply (select_some_iff r' w' c reg) in HC. destruct HC as [mp' ->].
  simpl. lia.
Qed.

(** Selection rule of the configurable matcher: with a unique index, the
    pixel emitted is the first one, in frame order, that attains the least
    [distance + time_diff * 2] among the admissible pixels. *)
Lemma match_ground_row_argmin (r w : R) (c reg : string)
    (T : Series TempoRow) (g : GroundRow) :
  NoDup (labels T) ->
  (exists e, In e T /\ admissible r w g (snd e) = true) ->
  exists T1 k p T2,
    T = T1 ++ (k, p) :: T2
    /\ admissible r w g p = true
    /\ match_ground_row r w c reg T g = Ok (Some (pair_of c reg g p))
    /\ (forall e, In e T1 -> admissible r w g (snd e) = true ->
                  score g p < score g (snd e))
    /\ (forall e, In e T2 -> admissible r w g (snd e) = true ->
                  score g p <= score g (snd e)).
Proof.
  intros Hnd (e0 & He0 & Hadm0).
  assert (Hne : candidates r w g T <> []).
  { rewrite candidates_admissible. intros HC.
    assert (Hin : In e0 (filter (fun e => admissible r w g (snd e)) T))
      by (apply filter_In; split; assumption).
    rewrite HC in Hin. exact Hin. }
  destruct (match_ground_row_selects r w c reg T g Hne)
    as (k & q & C1 & C2 & p & HC & H1 & H2 & Hp & Hres).
  assert (Hndc : NoDup (labels (candidates r w g T))).
  { rewrite candidates_admissible. now apply labels_filter_NoDup. }
  rewrite HC in Hp, Hndc.
  rewrite (loc_unique C1 C2 k q (NoDup_labels_app_cons _ _ _ _ Hndc)) in Hp.
  injection Hp as <-.
  rewrite candidates_admissible in HC.
  destruct (filter_split _ _ _ _ _ HC) as (T1 & T2 & HT & HT1 & HT2).
  exists T1, k, q, T2. split; [exact HT|].
  split.
  { assert (Hin : In (k, q) (filter (fun e => admissible r w g (snd e)) T)).
    { rewrite HC. apply in_or_app. right. now left. }
    apply filter_In in Hin. exact (proj2 Hin). }
  split; [exact Hres|].
  split.
  - intros e He Hadm. apply H1. rewrite <- HT1. apply filter_In. now split.
  - intros e He Hadm. apply H2. rewrite <- HT2. apply filter_In. now split.
Qed.

(** C5.  Widening the spatial radius, the temporal window, or both, on fixed
    ground and TEMPO data never decreases the number of pairs the matcher
    returns (and the matcher returns under either setting). *)
Theorem widening_tolerances_keeps_pair_count
    (ground_data : Series GroundRow) (tempo_data : TempoData) (r w r' w' : R) :
  r <= r' -> w <= w' ->
  exists pairs pairs',
    scientific_spatial_temporal_matching ground_data tempo_data r w = Ok pairs
    /\ scientific_spatial_temporal_matching ground_data tempo_data r' w' = Ok pairs'
    /\ (List.length pairs <= List.length pairs')%nat.
Proof.
  intros Hr Hw.
  exists (matched_pairs_of ground_data tempo_data r w),
         (matched_pairs_of ground_data tempo_data r' w').
  rewrite !scientific_matching_total.
  split; [reflexivity|]. split; [reflexivity|].
  unfold matched_pairs_of.
  apply flat_map_length_le. intros [c rows] _. simpl.
  destruct (tempo_region_of c) as [reg|]; [|simpl; lia].
  destruct (dict_get tempo_data reg) as [T|]; [|simpl; lia].
  apply flat_map_length_le. intros g _.
  now apply emitted_widen.
Qed.

(** Tolerance invariant of the configurable matcher, on the whole run:
    every pair it returns lies within the configured radius and window. *)
Lemma scientific_matching_within_tolerance (ground_data : Series GroundRow)
    (tempo_data : TempoData) (r w : R) :
  exists pairs,
    scientific_spatial_temporal_matching ground_data tempo_data r w = Ok pairs
    /\ forall mp, In mp pairs -> distance_km mp <= r /\ time_diff_hours mp <= w.
Proof.
  exists (matched_pairs_of ground_data tempo_data r w).
  split; [apply scientific_matching_total|].
  intros mp Hin. unfold matched_pairs_of in Hin.
  apply in_flat_map in Hin. destruct Hin as ([c rows] & _ & Hin). simpl in Hin.
  destruct (tempo_region_of c) as [reg|]; [|easy].
  destruct (dict_get tempo_data reg) as [T|]; [|easy].
  apply in_flat_map in Hin. destruct Hin as (g & _ & Hin).
  destruct (select r w c reg T g) as [mp'|] eqn:E; [|easy].
  destruct Hin as [<-|[]].
  apply (match_ground_row_within_tolerance r w c reg T g).
  rewrite match_ground_row_total, E. reflexivity.
Qed.

(** ** A concrete run *)

Definition boston_obs : GroundRow :=
  {| Latitude := 42; Longitude := -71; g_time_utc := 0%Z; AQI := 40;
     ParameterName := "O3"%string; g_city := "Boston"%string |}.

Definition boston_pixel (t : Timestamp) : TempoRow :=
  {| latitude := 42; longitude := -71; time_utc := t; no2 := 10; o3 := 45 |}.

Definition sample_ground : Series GroundRow := [(0%nat, boston_obs)].

Definition sample_tempo : TempoData := [("NYC"%string, [(0%nat, boston_pixel 0%Z)])].

Lemma dist_boston (t : Timestamp) : dist boston_obs (boston_pixel t) = 0.
Proof. unfold dist. simpl. apply Geo.haversine_distance_self. Qed.

Lemma tdiff_boston : tdiff boston_obs (boston_pixel 0%Z) = 0.
Proof.
  unfold tdiff, hours_between. cbn [time_utc boston_pixel g_time_utc boston_obs Z.sub Z.opp Z.add].
  replace (0 / 3600) with 0 by field. apply Rabs_R0.
Qed.

Lemma boston_pixel_admissible : admissible 20 1 boston_obs (boston_pixel 0%Z) = true.
Proof.
  unfold admissible. rewrite dist_boston, tdiff_boston.
  apply andb_true_iff. split; apply Rleb_true_iff; lra.
Qed.

(** The concrete run emits the one pair of the Boston observation with
    its co-located, simultaneous pixel. *)
Lemma scientific_sample_run :
  scientific_spatial_temporal_matching sample_ground sample_tempo 20 1
  = Ok [pair_of "Boston" "NYC" boston_obs (boston_pixel 0%Z)].
Proof.
  rewrite scientific_matching_total. unfold matched_pairs_of.
  change (groupby_city sample_ground) with [("Boston"%string, [(0%nat, boston_obs)])].
  cbn [flat_map fst snd map].
  change (tempo_region_of "Boston") with (Some "NYC"%string).
  cbv iota beta.
  change (dict_get sample_tempo "NYC") with (Some [(0%nat, boston_pixel 0%Z)]).
  cbv iota beta. cbn [flat_map]. unfold select.
  destruct (match_ground_row_argmin 20 1 "Boston" "NYC"
              [(0%nat, boston_pixel 0%Z)] boston_obs)
    as (T1 & k & p & T2 & HT & _ & Hres & _).
  { simpl. constructor; [easy|constructor]. }
  { exists (0%nat, boston_pixel 0%Z). split; [now left|exact boston_pixel_admissible]. }
  rewrite Hres.
  destruct T1 as [|e T1].
  - injection HT as _ <- _. reflexivity.
  - injection HT as _ HT. destruct T1; discriminate HT.
Qed.

(** Witness of C5 on the concrete run: from (20 km, 1 h) to (30 km, 3 h). *)
Lemma widening_tolerances_keeps_pair_count_witness :
  20 <= 30 /\ 1 <= 3
  /\ exists pairs pairs',
       scientific_spatial_temporal_matching sample_ground sample_tempo 20 1 = Ok pairs
       /\ scientific_spatial_temporal_matching sample_ground sample_tempo 30 3 = Ok pairs'
       /\ (List.length pairs <= List.length pairs')%nat.
Proof.
  split; [lra|]. split; [lra|].
  apply (widening_tolerances_keeps_pair_count sample_ground sample_tempo 20 1 30 3); lra.
Defined.

End Scientific.

(* ================================================================== *)
(** * 4. The region-segmented matcher ([advanced_validation.py]) *)
(* ================================================================== *)

Module Region.
Import Pandas.
Local Open Scope R_scope.

Definition Timestamp : Type := Z.

Definition hours_between (t1 t2 : Timestamp) : R := IZR (t1 - t2) / 3600.

(** A float cell of a frame read from CSV. *)
Inductive cell : Type :=
| Num (r : R)
| NaN
| PosInf
| NegInf.

(** [pd.notna(v)]. *)
Definition pd_notna (v : cell) : bool :=
  match v with
  | NaN => false
  | _ => true
  end.

(** [v != x] for a float [v] and a finite [x]. *)
Definition cell_neb (v : cell) (x : R) : bool :=
  match v with
  | Num r => if Req_dec_T r x then false else true
  | _ => true
  end.

(** [v <= x] and [v < x]; comparisons with NaN are false. *)
Definition cell_leb (v : cell) (x : R) : bool :=
  match v with
  | Num r => Rleb r x
  | NegInf => true
  | _ => false
  end.

Definition cell_ltb (v : cell) (x : R) : bool :=
  match v with
  | Num r => Rltb r x
  | NegInf => true
  | _ => false
  end.

(** A row of the regional TEMPO frame: coordinates, the raw [time] text,
    the parsed [datetime], and the remaining columns by name. *)
Record TempoRow : Type := {
  latitude : R;
  longitude : R;
  time : string;
  datetime : Timestamp;
  cells : string -> cell
}.

(** The frame with its column names. *)
Record TempoFrame : Type := {
  columns : list string;
  rows : Series TempoRow
}.

(** A row of the regional ground frame; [value], [aqi] and [region] are
    optional columns (read with [.get]). *)
Record GroundRow : Type := {
  g_latitude : R;
  g_longitude : R;
  utc : Timestamp;
  parameter : string;
  g_city : string;
  g_region : option string;
  value : option R;
  aqi : option R
}.

Record MatchedPair : Type := {
  city : string;
  region : string;
  ground_lat : R;
  ground_lon : R;
  ground_time : Timestamp;
  ground_value : R;
  ground_aqi : R;
  ground_parameter : string;
  tempo_lat : R;
  tempo_lon : R;
  tempo_time : string;
  tempo_value : cell;
  tempo_parameter : string;
  distance_km : R;
  time_diff_hours : R
}.

Definition has_column (c : string) (cols : list string) : bool :=
  existsb (String.eqb c) cols.

(** [dict.get(key, default)] on an optional column. *)
Definition get {A : Type} (o : option A) (default : A) : A :=
  match o with
  | Some a => a
  | None => default
  end.

(** The three quality filters, each applied only when its column exists. *)
Definition quality_filter (tempo_region : TempoFrame) : Series TempoRow :=
  let t0 := rows tempo_region in
  let t1 :=
    if has_column "quality_flag" (columns tempo_region)
    then bool_index t0 (smap (fun p => cell_leb (cells p "quality_flag"%string) 2) t0)
    else t0 in
  let t2 :=
    if has_column "cloud_fraction" (columns tempo_region)
    then bool_index t1 (smap (fun p => cell_ltb (cells p "cloud_fraction"%string) 0.8) t1)
    else t1 in
  let t3 :=
    if has_column "solar_zenith_angle" (columns tempo_region)
    then bool_index t2 (smap (fun p => cell_ltb (cells p "solar_zenith_angle"%string) 85) t2)
    else t2 in
  t3.

(** [Series.unique()]: distinct values in order of first appearance. *)
Fixpoint unique (l : list string) : list string :=
  match l with
  | [] => []
  | x :: l' => x :: filter (fun y => negb (String.eqb y x)) (unique l')
  end.

(** The static parameter -> column chain; [None] when no branch fires. *)
Definition pollutant_col_of (param : string) : option string :=
  if String.eqb param "OZONE" then Some "ozone_total_column"%string
  else if String.eqb param "NO2" then Some "no2_tropospheric_column"%string
  else if String.eqb param "PM2.5" then Some "pm25"%string
  else if String.eqb param "HCHO" then Some "hcho_tropospheric_column"%string
  else None.

(** The body of the inner loop for one ground row; the result is what the
    iteration appends to [matched_pairs]. *)
Definition match_region_row (cols : list string) (tempo_region : Series TempoRow)
    (city_name : string) (ground_row : GroundRow) : result (list MatchedPair) :=
  let distances :=
    smap (fun p => Geo.haversine_distance (g_latitude ground_row) (g_longitude ground_row)
                                          (latitude p) (longitude p)) tempo_region in
  let within := smap (fun d => Rleb d 150) distances in
  let nearby_tempo := bool_index tempo_region within in
  if (List.length nearby_tempo =? 0)%nat then Ok [] else
  let time_diff :=
    smap (fun p => Rabs (hours_between (datetime p) (utc ground_row))) nearby_tempo in
  let valid_tempo := bool_index nearby_tempo (smap (fun t => Rleb t 72) time_diff) in
  if (List.length valid_tempo =? 0)%nat then Ok [] else
  closest_idx <- idxmin (bool_index distances within) ;;
  closest_tempo <- loc tempo_region closest_idx ;;
  match pollutant_col_of (parameter ground_row) with
  | None => Ok []
  | Some pollutant_col =>
      if has_column pollutant_col cols then
        let tempo_value := cells closest_tempo pollutant_col in
        if pd_notna tempo_value && cell_neb tempo_value (-999) then
          d <- loc distances closest_idx ;;
          t <- loc time_diff closest_idx ;;
          Ok [ {| city := city_name;
                  region := get (g_region ground_row) "Unknown"%string;
                  ground_lat := g_latitude ground_row;
                  ground_lon := g_longitude ground_row;
                  ground_time := utc ground_row;
                  ground_value := get (value ground_row) (get (aqi ground_row) 0);
                  ground_aqi := get (aqi ground_row) 0;
                  ground_parameter := parameter ground_row;
                  tempo_lat := latitude closest_tempo;
                  tempo_lon := longitude closest_tempo;
                  tempo_time := time closest_tempo;
                  tempo_value := tempo_value;
                  tempo_parameter := pollutant_col;
                  distance_km := d;
                  time_diff_hours := t |} ]
        else Ok []
      else Ok []
  end.

(** [match_region_temporally_and_spatially(ground_region, tempo_region)]. *)
Definition match_region_temporally_and_spatially
    (ground_region : Series GroundRow) (tempo_region : TempoFrame)
  : result (list MatchedPair) :=
  let cols := columns tempo_region in
  let tempo_region := quality_filter tempo_region in
  let cities_in_region :=
    filter (fun c => negb (String.eqb c "Unknown"))
           (unique (map (fun e => g_city (snd e)) ground_region)) in
  for_each
    (fun city_name =>
       let city_ground :=
         filter (fun e => String.eqb (g_city (snd e)) city_name) ground_region in
       if (List.length city_ground =? 0)%nat then Ok [] else
       for_each (match_region_row cols tempo_region city_name) (map snd city_ground))
    cities_in_region.

(** ** Facts about the region-segmented matcher *)

Definition dist (g : GroundRow) (p : TempoRow) : R :=
  Geo.haversine_distance (g_latitude g) (g_longitude g) (latitude p) (longitude p).

Definition tdiff (g : GroundRow) (p : TempoRow) : R :=
  Rabs (hours_between (datetime p) (utc g)).

(** The rows of [nearby_tempo] and of [valid_tempo]. *)
Definition nearby (g : GroundRow) (T : Series TempoRow) : Series TempoRow :=
  filter (fun e => Rleb (dist g (snd e)) 150) T.

Definition valid (g : GroundRow) (T : Series TempoRow) : Series TempoRow :=
  filter (fun e => Rleb (tdiff g (snd e)) 72) (nearby g T).

(** What the iteration appends once the closest pixel [p] is chosen, with
    [d] and [t] the looked-up distance and time difference. *)
Definition emit (cols : list string) (c : string) (g : GroundRow)
    (p : TempoRow) (d t : R) : list MatchedPair :=
  match pollutant_col_of (parameter g) with
  | None => []
  | Some pollutant_col =>
      if has_column pollutant_col cols then
        if pd_notna (cells p pollutant_col) && cell_neb (cells p pollutant_col) (-999) then
          [ {| city := c;
               region := get (g_region g) "Unknown"%string;
               ground_lat := g_latitude g;
               ground_lon := g_longitude g;
               ground_time := utc g;
               ground_value := get (value g) (get (aqi g) 0);
               ground_aqi := get (aqi g) 0;
               ground_parameter := parameter g;
               tempo_lat := latitude p;
               tempo_lon := longitude p;
               tempo_time := time p;
               tempo_value := cells p pollutant_col;
               tempo_parameter := pollutant_col;
               distance_km := d;
               time_diff_hours := t |} ]
        else []
      else []
  end.

(** The loop body, with the masks resolved into [nearby] and [valid]. *)
Lemma match_region_row_nearby (cols : list string) (T : Series TempoRow)
    (c : string) (g : GroundRow) :
  match_region_row cols T c g =
  match nearby g T with
  | [] => Ok []
  | _ :: _ =>
      match valid g T with
      | [] => Ok []
      | _ :: _ =>
          k <- idxmin (smap (dist g) (nearby g T)) ;;
          p <- loc T k ;;
          match pollutant_col_of (parameter g) with
          | None => Ok []
          | Some pollutant_col =>
              if has_column pollutant_col cols then
                if pd_notna (cells p pollutant_col)
                   && cell_neb (cells p pollutant_col) (-999) then
                  d <- loc (smap (dist g) T) k ;;
                  t <- loc (smap (tdiff g) (nearby g T)) k ;;
                  Ok (emit cols c g p d t)
                else Ok []
              else Ok []
          end
      end
  end.
Proof.
  unfold match_region_row.
  change (fun p : TempoRow =>
            Geo.haversine_distance (g_latitude g) (g_longitude g) (latitude p) (longitude p))
    with (dist g).
  change (fun p : TempoRow => Rabs (hours_between (datetime p) (utc g)))
    with (tdiff g).
  rewrite !smap_smap.
  rewrite (bool_index_smap (fun p => Rleb (dist g p) 150) T).
  rewrite (bool_index_smap2 (dist g) (fun p => Rleb (dist g p) 150) T).
  fold (nearby g T).
  rewrite (bool_index_smap (fun p => Rleb (tdiff g p) 72) (nearby g T)).
  fold (valid g T).
  rewrite !length_eqb_0.
  destruct (nearby g T) as [|n N] eqn:EN; [reflexivity|].
  destruct (valid g T) as [|v V] eqn:EV; [reflexivity|].
  destruct (idxmin (smap (dist g) (n :: N))) as [k|x]; [|reflexivity].
  cbn [bind].
  destruct (loc T k) as [p|x]; [|reflexivity].
  cbn [bind]. unfold emit.
  destruct (pollutant_col_of (parameter g)) as [col|]; [|reflexivity].
  destruct (has_column col cols); [|reflexivity].
  destruct (pd_notna (cells p col) && cell_neb (cells p col) (-999)); [|reflexivity].
  destruct (loc (smap (dist g) T) k) as [d|x]; [|reflexivity].
  cbn [bind].
  destruct (loc (smap (tdiff g) (n :: N)) k) as [t|x]; reflexivity.
Qed.

(** What the loop body selects: the first pixel of least distance among
    those within 150 km; the distance and time difference recorded are the
    ones found under its label. *)
Lemma match_region_row_selects (cols : list string) (T : Series TempoRow)
    (c : string) (g : GroundRow) :
  valid g T <> [] ->
  exists k q N1 N2 p p',
    nearby g T = N1 ++ (k, q) :: N2
    /\ (forall e, In e N1 -> dist g q < dist g (snd e))
    /\ (forall e, In e N2 -> dist g q <= dist g (snd e))
    /\ loc T k = Ok p
    /\ loc (nearby g T) k = Ok p'
    /\ match_region_row cols T c g = Ok (emit cols c g p (dist g p) (tdiff g p')).
Proof.
  intros Hv.
  assert (Hn : nearby g T <> []).
  { intros H. apply Hv. unfold valid. now rewrite H. }
  destruct (idxmin_spec (smap (dist g) (nearby g T)))
    as (k & s1 & v & s2 & Hk & Hs & H1 & H2).
  { destruct (nearby g T); [easy|discriminate]. }
  destruct (smap_split _ _ _ _ _ _ Hs) as (N1 & q & N2 & HN & Hq & -> & ->).
  assert (Hin : In k (labels (nearby g T))).
  { rewrite HN. unfold labels. rewrite map_app. apply in_or_app. right. now left. }
  destruct (loc_found (nearby g T) k Hin) as [p' Hp'].
  destruct (loc_found T k (labels_filter_In _ _ _ Hin)) as [p Hp].
  exists k, q, N1, N2, p, p'. split; [exact HN|].
  split.
  { intros e He. rewrite Hq. apply (H1 _ (In_smap (dist g) N1 e He)). }
  split.
  { intros e He. rewrite Hq. apply (H2 _ (In_smap (dist g) N2 e He)). }
  split; [exact Hp|]. split; [exact Hp'|].
  rewrite match_region_row_nearby.
  rewrite Hk. cbn [bind]. rewrite Hp. cbn [bind].
  rewrite (loc_smap (dist g) _ _ _ Hp), (loc_smap (tdiff g) _ _ _ Hp').
  cbn [bind]. unfold emit.
  destruct (nearby g T); [easy|].
  destruct (valid g T); [easy|].
  destruct (pollutant_col_of (parameter g)) as [col|]; [|reflexivity].
  destruct (has_column col cols); [|reflexivity].
  destruct (pd_notna (cells p col) && cell_neb (cells p col) (-999)); reflexivity.
Qed.

Lemma match_region_row_skips (cols : list string) (T : Series TempoRow)
    (c : string) (g : GroundRow) :
  valid g T = [] -> match_region_row cols T c g = Ok [].
Proof.
  intros H. rewrite match_region_row_nearby, H.
  destruct (nearby g T); reflexivity.
Qed.

(** With a unique index the selected pixel is the one at the first
    minimum of the distances, and both look-ups return its own values. *)
Lemma match_region_row_closest (cols : list string) (T : Series TempoRow)
    (c : string) (g : GroundRow) :
  NoDup (labels T) ->
  valid g T <> [] ->
  exists T1 k q T2,
    T = T1 ++ (k, q) :: T2
    /\ dist g q <= 150
    /\ (forall e, In e T1 -> dist g (snd e) <= 150 -> dist g q < dist g (snd e))
    /\ (forall e, In e T2 -> dist g (snd e) <= 150 -> dist g q <= dist g (snd e))
    /\ match_region_row cols T c g = Ok (emit cols c g q (dist g q) (tdiff g q)).
Proof.
  intros Hnd Hv.
  destruct (match_region_row_selects cols T c g Hv)
    as (k & q & N1 & N2 & p & p' & HN & H1 & H2 & Hp & Hp' & Hres).
  assert (Hndn : NoDup (labels (nearby g T))) by now apply labels_filter_NoDup.
  rewrite HN in Hp', Hndn.
  rewrite (loc_unique N1 N2 k q (NoDup_labels_app_cons _ _ _ _ Hndn)) in Hp'.
  injection Hp' as <-.
  destruct (filter_split _ _ _ _ _ HN) as (T1 & T2 & HT & HT1 & HT2).
  rewrite HT in Hp, Hnd.
  rewrite (loc_unique T1 T2 k q (NoDup_labels_app_cons _ _ _ _ Hnd)) in Hp.
  injection Hp as <-.
  exists T1, k, q, T2. split; [exact HT|].
  split.
  { assert (Hin : In (k, q) (nearby g T)) by (rewrite HN; apply in_or_app; right; now left).
    apply filter_In in Hin. destruct Hin as [_ Hin]. now apply Rleb_true_iff in Hin. }
  split.
  { intros e He Hd. apply H1. rewrite <- HT1. apply filter_In.
    split; [exact He|]. now apply Rleb_true_iff. }
  split.
  { intros e He Hd. apply H2. rewrite <- HT2. apply filter_In.
    split; [exact He|]. now apply Rleb_true_iff. }
  exact Hres.
Qed.

(** Every pair the loop body appends carries a value that passed the
    guard [pd.notna(v) and v != -999]. *)
Lemma emit_guard (cols : list string) (c : string) (g : GroundRow)
    (p : TempoRow) (d t : R) (mp : MatchedPair) :
  In mp (emit cols c g p d t) ->
  pd_notna (tempo_value mp) && cell_neb (tempo_value mp) (-999) = true.
Proof.
  unfold emit.
  destruct (pollutant_col_of (parameter g)) as [col|]; [|easy].
  destruct (has_column col cols); [|easy].
  destruct (pd_notna (cells p col) && cell_neb (cells p col) (-999)) eqn:E; [|easy].
  intros [<-|[]]. exact E.
Qed.

(** The loop body never raises. *)
Definition appended (cols : list string) (T : Series TempoRow)
    (c : string) (g : GroundRow) : list MatchedPair :=
  match match_region_row cols T c g with
  | Ok l => l
  | Raise _ => []
  end.

Lemma match_region_row_total (cols : list string) (T : Series TempoRow)
    (c : string) (g : GroundRow) :
  match_region_row cols T c g = Ok (appended cols T c g).
Proof.
  unfold appended.
  destruct (valid g T) as [|e V] eqn:EV.
  - now rewrite (match_region_row_skips _ _ _ _ EV).
  - destruct (match_region_row_selects cols T c g)
      as (k & q & N1 & N2 & p & p' & _ & _ & _ & _ & _ & H).
    { rewrite EV. discriminate. }
    now rewrite H.
Qed.

Lemma appended_guard (cols : list string) (T : Series TempoRow)
    (c : string) (g : GroundRow) (mp : MatchedPair) :
  In mp (appended cols T c g) ->
  pd_notna (tempo_value mp) && cell_neb (tempo_value mp) (-999) = true.
Proof.
  unfold appended.
  destruct (valid g T) as [|e V] eqn:EV.
  - now rewrite (match_region_row_skips _ _ _ _ EV).
  - destruct (match_region_row_selects cols T c g)
      as (k & q & N1 & N2 & p & p' & _ & _ & _ & _ & _ & H).
    { rewrite EV. discriminate. }
    rewrite H. apply emit_guard.
Qed.

(** The whole region matcher returns the concatenation of what the
    iterations append. *)
Definition region_pairs_of (ground_region : Series GroundRow)
    (tempo_region : TempoFrame) : list MatchedPair :=
  flat_map
    (fun c =>
       flat_map (appended (columns tempo_region) (quality_filter tempo_region) c)
                (map snd (filter (fun e => String.eqb (g_city (snd e)) c) ground_region)))
    (filter (fun c => negb (String.eqb c "Unknown"))
            (unique (map (fun e => g_city (snd e)) ground_region))).

Lemma match_region_total (ground_region : Series GroundRow) (tempo_region : TempoFrame) :
  match_region_temporally_and_spatially ground_region tempo_region
  = Ok (region_pairs_of ground_region tempo_region).
Proof.
  unfold match_region_temporally_and_spatially, region_pairs_of.
  apply for_each_ok. intros c _.
  destruct (filter (fun e => String.eqb (g_city (snd e)) c) ground_region) as [|e l] eqn:E.
  - reflexivity.
  - cbn [List.length Nat.eqb]. apply for_each_ok. intros g _.
    apply match_region_row_total.
Qed.

(** ** Concrete region frames *)

Definition no2_cells (v : cell) : string -> cell :=
  fun c => if String.eqb c "no2_tropospheric_column" then v else NaN.

(** A pixel at (40, -74) observed at [t] with NO2 column [v]; the raw
    [time] text is only copied into the pair. *)
Definition pixel_at (t : Timestamp) (v : cell) : TempoRow :=
  {| latitude := 40; longitude := -74; time := "time text as read"%string; datetime := t;
     cells := no2_cells v |}.

Definition frame_of (a b : TempoRow) : TempoFrame :=
  {| columns := ["latitude"; "longitude"; "time"; "no2_tropospheric_column"; "datetime"]%string;
     rows := [(0%nat, a); (1%nat, b)] |}.

(** One NO2 ground observation at the same place, at time 0. *)
Definition ground_obs : GroundRow :=
  {| g_latitude := 40; g_longitude := -74; utc := 0%Z; parameter := "NO2"%string;
     g_city := "New York City"%string; g_region := Some "NYC"%string;
     value := Some 30; aqi := None |}.

Lemma dist_pixel_at (t : Timestamp) (v : cell) : dist ground_obs (pixel_at t v) = 0.
Proof. unfold dist. simpl. apply Geo.haversine_distance_self. Qed.

Lemma tdiff_pixel_at (h : Z) (v : cell) :
  (0 <= h)%Z -> tdiff ground_obs (pixel_at (3600 * h)%Z v) = IZR h.
Proof.
  intros Hh. unfold tdiff, hours_between. cbn [datetime pixel_at utc ground_obs].
  rewrite Z.sub_0_r, mult_IZR.
  replace (3600 * IZR h / 3600) with (IZR h) by (field).
  apply Rabs_pos_eq. now apply IZR_le.
Qed.

(** The pair recorded when the first pixel of the frame is selected. *)
Definition pair_with (h : Z) (v : cell) : MatchedPair :=
  {| city := "New York City"%string;
     region := "NYC"%string;
     ground_lat := 40;
     ground_lon := -74;
     ground_time := 0%Z;
     ground_value := 30;
     ground_aqi := 0;
     ground_parameter := "NO2"%string;
     tempo_lat := 40;
     tempo_lon := -74;
     tempo_time := "time text as read"%string;
     tempo_value := v;
     tempo_parameter := "no2_tropospheric_column"%string;
     distance_km := 0;
     time_diff_hours := IZR h |}.

(** Two pixels at the place of the ground observation, the first [h1]
    hours away in time and the second [h2 <= 72] hours away: both are at
    distance 0, the first is the closest pixel, and it is the one recorded
    whenever its value passes the guard. *)
Lemma region_two_pixels (h1 h2 : Z) (v1 v2 : cell) :
  (0 <= h1)%Z -> (0 <= h2 <= 72)%Z ->
  match_region_temporally_and_spatially [(0%nat, ground_obs)]
    (frame_of (pixel_at (3600 * h1)%Z v1) (pixel_at (3600 * h2)%Z v2))
  = Ok (if pd_notna v1 && cell_neb v1 (-999) then [pair_with h1 v1] else []).
Proof.
  intros H1 H2.
  rewrite match_region_total. unfold region_pairs_of.
  cbn [map snd g_city ground_obs unique filter String.eqb Ascii.eqb Bool.eqb negb flat_map fst app].
  unfold appended. rewrite match_region_row_nearby.
  change (quality_filter (frame_of (pixel_at (3600 * h1)%Z v1) (pixel_at (3600 * h2)%Z v2)))
    with (rows (frame_of (pixel_at (3600 * h1)%Z v1) (pixel_at (3600 * h2)%Z v2))).
  unfold valid, nearby. cbn [rows frame_of filter snd smap map fst].
  rewrite !dist_pixel_at.
  rewrite !(Rleb_true 0 150) by lra.
  cbn [filter snd smap map fst].
  rewrite !tdiff_pixel_at by lia.
  rewrite (Rleb_true (IZR h2) 72) by (apply IZR_le; lia).
  rewrite !dist_pixel_at.
  cbn [idxmin idxmin_from]. rewrite (Rltb_false 0 0) by lra.
  destruct (Rleb (IZR h1) 72); cbn [bind loc Nat.eqb];
    rewrite !app_nil_r; f_equal;
    change (match
              (if pd_notna v1 && cell_neb v1 (-999)
               then Ok (if pd_notna v1 && cell_neb v1 (-999) then [pair_with h1 v1] else [])
               else Ok [])
            with
            | Ok l => l
            | Raise _ => []
            end
            = (if pd_notna v1 && cell_neb v1 (-999) then [pair_with h1 v1] else []));
    destruct (pd_notna v1 && cell_neb v1 (-999)); reflexivity.
Qed.

Lemma guard_small_value (r : R) :
  -999 < r -> pd_notna (Num r) && cell_neb (Num r) (-999) = true.
Proof.
  intros H. unfold pd_notna, cell_neb.
  destruct (Req_dec_T r (-999)); [lra|reflexivity].
Qed.

(** A float is finite when it is neither NaN nor an infinity. *)
Definition is_finite (v : cell) : bool :=
  match v with
  | Num _ => true
  | _ => false
  end.

Lemma guard_excludes (v : cell) :
  pd_notna v && cell_neb v (-999) = true -> v <> NaN /\ v <> Num (-999).
Proof.
  intros H. apply andb_true_iff in H. destruct H as [Hn Hs].
  split; intros ->; [discriminate Hn|].
  unfold cell_neb in Hs. destruct (Req_dec_T (-999) (-999)); [discriminate|now auto].
Qed.

(** C1.  The region-segmented matcher on one ground observation and two
    co-located pixels, the first 100 hours away in time and the second
    simultaneous: the pair emitted records the first pixel, within the
    150 km radius but with [time_diff_hours = 100], beyond the 72 hour
    window the function filters on. *)
Theorem region_pair_time_diff_beyond_window :
  match_region_temporally_and_spatially [(0%nat, ground_obs)]
    (frame_of (pixel_at (3600 * 100)%Z (Num 5)) (pixel_at (3600 * 0)%Z (Num 6)))
  = Ok [pair_with 100 (Num 5)]
  /\ distance_km (pair_with 100 (Num 5)) <= 150
  /\ 72 < time_diff_hours (pair_with 100 (Num 5)).
Proof.
  split.
  - rewrite region_two_pixels by lia.
    rewrite guard_small_value by lra. reflexivity.
  - simpl. lra.
Qed.

(** Counterexample to C2 on the region-segmented matcher: of two
    admissible co-located pixels, the first 50 hours away in time and the
    second simultaneous, the first is recorded although the second has the
    smaller combined score [distance + time_diff * 2]. *)
Lemma region_matcher_ignores_combined_score :
  match_region_temporally_and_spatially [(0%nat, ground_obs)]
    (frame_of (pixel_at (3600 * 50)%Z (Num 5)) (pixel_at (3600 * 0)%Z (Num 6)))
  = Ok [pair_with 50 (Num 5)]
  /\ dist ground_obs (pixel_at (3600 * 0)%Z (Num 6)) <= 150
  /\ tdiff ground_obs (pixel_at (3600 * 0)%Z (Num 6)) <= 72
  /\ dist ground_obs (pixel_at (3600 * 0)%Z (Num 6))
      + tdiff ground_obs (pixel_at (3600 * 0)%Z (Num 6)) * 2
      < distance_km (pair_with 50 (Num 5)) + time_diff_hours (pair_with 50 (Num 5)) * 2.
Proof.
  rewrite dist_pixel_at, tdiff_pixel_at by lia.
  split.
  - rewrite region_two_pixels by lia.
    rewrite guard_small_value by lra. reflexivity.
  - simpl. lra.
Qed.

(** Counterexample to C10: a pixel whose mapped column holds [+inf] passes
    the guard, and the emitted pair carries a non-finite value. *)
Lemma region_matcher_emits_infinite_value :
  match_region_temporally_and_spatially [(0%nat, ground_obs)]
    (frame_of (pixel_at (3600 * 0)%Z PosInf) (pixel_at (3600 * 0)%Z (Num 6)))
  = Ok [pair_with 0 PosInf]
  /\ is_finite (tempo_value (pair_with 0 PosInf)) = false.
Proof.
  split; [|reflexivity].
  rewrite region_two_pixels by lia. reflexivity.
Qed.

(** The quality filters keep the index unique. *)
Lemma quality_filter_NoDup (F : TempoFrame) :
  NoDup (labels (rows F)) -> NoDup (labels (quality_filter F)).
Proof.
  intros H. unfold quality_filter. cbv zeta. rewrite !bool_index_smap.
  destruct (has_column "quality_flag" (columns F));
    destruct (has_column "cloud_fraction" (columns F));
    destruct (has_column "solar_zenith_angle" (columns F));
    rewrite ?bool_index_smap; repeat apply labels_filter_NoDup; exact H.
Qed.

(** C10 (amended).  On a satellite frame with a unique row index the
    region-segmented matcher returns, and no pair it returns carries NaN or
    the sentinel -999 as satellite value; a ground row whose closest pixel
    holds NaN or -999 in the mapped column appends nothing. *)
Theorem region_pairs_exclude_nan_and_sentinel :
  (forall (ground_region : Series GroundRow) (tempo_region : TempoFrame),
      NoDup (labels (rows tempo_region)) ->
      exists pairs,
        match_region_temporally_and_spatially ground_region tempo_region = Ok pairs
        /\ forall mp, In mp pairs ->
             tempo_value mp <> NaN /\ tempo_value mp <> Num (-999))
  /\ (forall (cols : list string) (T : Series TempoRow) (c : string) (g : GroundRow)
             (closest_idx : nat) (closest_tempo : TempoRow) (pollutant_col : string),
        NoDup (labels T) ->
        idxmin (smap (dist g) (nearby g T)) = Ok closest_idx ->
        loc T closest_idx = Ok closest_tempo ->
        pollutant_col_of (parameter g) = Some pollutant_col ->
        cells closest_tempo pollutant_col = NaN
        \/ cells closest_tempo pollutant_col = Num (-999) ->
        match_region_row cols T c g = Ok []).
Proof.
  split.
  - intros ground_region tempo_region _.
    exists (region_pairs_of ground_region tempo_region).
    split; [apply match_region_total|].
    intros mp Hin. unfold region_pairs_of in Hin.
    apply in_flat_map in Hin. destruct Hin as (c & _ & Hin).
    apply in_flat_map in Hin. destruct Hin as (g & _ & Hin).
    apply guard_excludes. exact (appended_guard _ _ _ _ _ Hin).
  - intros cols T c g k p col _ Hk Hp Hcol Hv.
    rewrite match_region_row_nearby.
    destruct (nearby g T); [reflexivity|].
    destruct (valid g T); [reflexivity|].
    rewrite Hk. cbn [bind]. rewrite Hp. cbn [bind]. rewrite Hcol.
    destruct (has_column col cols); [|reflexivity].
    destruct Hv as [-> | ->]; [reflexivity|].
    unfold pd_notna, cell_neb.
    destruct (Req_dec_T (-999) (-999)); [reflexivity|now auto].
Qed.

(** Witness of C10 (amended): the ground observation and two co-located
    pixels with distinct labels, the first holding NaN.  The first pixel is
    the closest one, nothing is appended, and the matcher returns without
    a pair. *)
Lemma region_pairs_exclude_nan_and_sentinel_witness :
  (exists pairs,
      match_region_temporally_and_spatially [(0%nat, ground_obs)]
        (frame_of (pixel_at (3600 * 0)%Z NaN) (pixel_at (3600 * 0)%Z (Num 6))) = Ok pairs
      /\ forall mp, In mp pairs ->
           tempo_value mp <> NaN /\ tempo_value mp <> Num (-999))
  /\ match_region_row ["no2_tropospheric_column"%string]
       [(0%nat, pixel_at (3600 * 0)%Z NaN); (1%nat, pixel_at (3600 * 0)%Z (Num 6))]
       "New York City" ground_obs
     = Ok [].
Proof.
  split.
  - apply (proj1 region_pairs_exclude_nan_and_sentinel). apply NoDup_labels_two.
  - apply (proj2 region_pairs_exclude_nan_and_sentinel
             ["no2_tropospheric_column"%string]
             [(0%nat, pixel_at (3600 * 0)%Z NaN); (1%nat, pixel_at (3600 * 0)%Z (Num 6))]
             "New York City"%string ground_obs 0%nat (pixel_at (3600 * 0)%Z NaN)
             "no2_tropospheric_column"%string).
    + apply NoDup_labels_two.
    + unfold nearby. cbn [filter snd].
      rewrite !dist_pixel_at. rewrite !(Rleb_true 0 150) by lra.
      cbn [smap map fst snd]. rewrite !dist_pixel_at.
      cbn [idxmin idxmin_from]. rewrite (Rltb_false 0 0) by lra. reflexivity.
    + reflexivity.
    + reflexivity.
    + left. reflexivity.
Defined.

End Region.

(* ================================================================== *)
(** * 5. Selection rules of the two matchers *)
(* ================================================================== *)

Section Selection.
Import Pandas.
Local Open Scope R_scope.

(** C2 (amended).  With a unique frame index:
    - the configurable matcher, for a ground row with at least one
      admissible pixel, emits the pair of the admissible pixel that comes
      first in frame order among those of least
      [distance_km + time_diff_hours * 2];
    - the region-segmented matcher computes no combined score: on a frame
      where the 72 hour window removes none of the pixels within 150 km,
      for a ground row with at least one admissible pixel, it takes the
      admissible pixel that comes first in frame order among those of
      least distance; no time term enters. *)
Theorem matcher_selection_rules :
  (forall (r w : R) (c reg : string)
          (T : Series Scientific.TempoRow) (g : Scientific.GroundRow),
      NoDup (labels T) ->
      (exists e, In e T /\ Scientific.admissible r w g (snd e) = true) ->
      exists T1 k p T2,
        T = T1 ++ (k, p) :: T2
        /\ Scientific.admissible r w g p = true
        /\ Scientific.match_ground_row r w c reg T g
           = Ok (Some (Scientific.pair_of c reg g p))
        /\ (forall e, In e T1 -> Scientific.admissible r w g (snd e) = true ->
              Scientific.dist g p + Scientific.tdiff g p * 2
              < Scientific.dist g (snd e) + Scientific.tdiff g (snd e) * 2)
        /\ (forall e, In e T2 -> Scientific.admissible r w g (snd e) = true ->
              Scientific.dist g p + Scientific.tdiff g p * 2
              <= Scientific.dist g (snd e) + Scientific.tdiff g (snd e) * 2))
  /\ (forall (cols : list string) (T : Series Region.TempoRow)
             (c : string) (g : Region.GroundRow),
        NoDup (labels T) ->
        (forall e, In e T -> Region.dist g (snd e) <= 150 -> Region.tdiff g (snd e) <= 72) ->
        (exists e, In e T /\ Region.dist g (snd e) <= 150 /\ Region.tdiff g (snd e) <= 72) ->
        exists T1 k q T2,
          T = T1 ++ (k, q) :: T2
          /\ Region.dist g q <= 150
          /\ Region.tdiff g q <= 72
          /\ (forall e, In e T1 ->
                Region.dist g (snd e) <= 150 -> Region.tdiff g (snd e) <= 72 ->
                Region.dist g q < Region.dist g (snd e))
          /\ (forall e, In e T2 ->
                Region.dist g (snd e) <= 150 -> Region.tdiff g (snd e) <= 72 ->
                Region.dist g q <= Region.dist g (snd e))
          /\ Region.match_region_row cols T c g
             = Ok (Region.emit cols c g q (Region.dist g q) (Region.tdiff g q))).
Proof.
  split.
  - intros r w c reg T g Hnd Hex.
    exact (Scientific.match_ground_row_argmin r w c reg T g Hnd Hex).
  - intros cols T c g Hnd Hwin (e0 & He0 & Hd0 & Ht0).
    assert (Hv : Region.valid g T <> []).
    { intros Hnil.
      assert (Hin : In e0 (Region.valid g T)).
      { unfold Region.valid, Region.nearby. apply filter_In. split.
        - apply filter_In. split; [exact He0|now apply Rleb_true_iff].
        - now apply Rleb_true_iff. }
      rewrite Hnil in Hin. exact Hin. }
    destruct (Region.match_region_row_closest cols T c g Hnd Hv)
      as (T1 & k & q & T2 & HT & Hd & H1 & H2 & Hres).
    exists T1, k, q, T2. split; [exact HT|]. split; [exact Hd|].
    split.
    { apply (Hwin (k, q)); [|exact Hd]. rewrite HT. apply in_or_app. right. now left. }
    split; [intros e He Hde _; now apply H1|].
    split; [intros e He Hde _; now apply H2|exact Hres].
Qed.

(** ** Two candidates for one Boston observation *)

(** A co-located pixel half an hour late, then one on time. *)
Definition boston_two_pixels : Series Scientific.TempoRow :=
  [(0%nat, Scientific.boston_pixel 1800%Z); (1%nat, Scientific.boston_pixel 0%Z)].

Lemma tdiff_boston_half_hour :
  Scientific.tdiff Scientific.boston_obs (Scientific.boston_pixel 1800%Z) = 0.5.
Proof.
  unfold Scientific.tdiff, Scientific.hours_between.
  cbn [Scientific.time_utc Scientific.boston_pixel Scientific.g_time_utc
       Scientific.boston_obs].
  rewrite Z.sub_0_r.
  replace (IZR 1800 / 3600) with 0.5 by (field_simplify; lra).
  apply Rabs_pos_eq. lra.
Qed.

Lemma boston_late_pixel_admissible :
  Scientific.admissible 20 1 Scientific.boston_obs (Scientific.boston_pixel 1800%Z) = true.
Proof.
  unfold Scientific.admissible.
  rewrite Scientific.dist_boston, tdiff_boston_half_hour.
  apply andb_true_iff. split; apply Rleb_true_iff; lra.
Qed.

(** The two-pixel region frame: the first pixel 50 hours away, the second
    simultaneous, both at the place of the ground observation. *)
Definition region_two_pixels_frame : Series Region.TempoRow :=
  [(0%nat, Region.pixel_at (3600 * 50)%Z (Region.Num 5));
   (1%nat, Region.pixel_at (3600 * 0)%Z (Region.Num 6))].

(** Witness of C2 (amended).  Of two admissible co-located pixels, the
    configurable matcher records the second, whose combined score is 0
    against 1 for the first; on the region frame, where both pixels are
    within the window, the region-segmented matcher records the first of
    the two equally distant pixels although it is 50 hours away. *)
Lemma matcher_selection_rules_witness :
  Scientific.match_ground_row 20 1 "Boston" "NYC" boston_two_pixels Scientific.boston_obs
  = Ok (Some (Scientific.pair_of "Boston" "NYC" Scientific.boston_obs
                (Scientific.boston_pixel 0%Z)))
  /\ Region.match_region_row ["no2_tropospheric_column"%string] region_two_pixels_frame
       "New York City" Region.ground_obs
     = Ok (Region.emit ["no2_tropospheric_column"%string] "New York City" Region.ground_obs
             (Region.pixel_at (3600 * 50)%Z (Region.Num 5))
             (Region.dist Region.ground_obs (Region.pixel_at (3600 * 50)%Z (Region.Num 5)))
             (Region.tdiff Region.ground_obs (Region.pixel_at (3600 * 50)%Z (Region.Num 5)))).
Proof.
  split.
  - destruct (proj1 matcher_selection_rules 20 1 "Boston"%string "NYC"%string
                boston_two_pixels Scientific.boston_obs)
      as (T1 & k & p & T2 & HT & _ & Hres & _ & H2).
    + apply NoDup_labels_two.
    + exists (1%nat, Scientific.boston_pixel 0%Z).
      split; [right; now left|exact Scientific.boston_pixel_admissible].
    + rewrite Hres. unfold boston_two_pixels in HT.
      destruct T1 as [|e1 [|e2 T1]].
      * exfalso. injection HT as _ Hp HT2. subst p T2.
        specialize (H2 (1%nat, Scientific.boston_pixel 0%Z) (or_introl eq_refl)
                       Scientific.boston_pixel_admissible).
        cbn [snd] in H2.
        rewrite !Scientific.dist_boston, tdiff_boston_half_hour, Scientific.tdiff_boston in H2.
        lra.
      * injection HT as _ _ Hp _. now subst p.
      * exfalso. injection HT as _ _ HT. destruct T1; discriminate HT.
  - destruct (proj2 matcher_selection_rules ["no2_tropospheric_column"%string]
                region_two_pixels_frame "New York City"%string Region.ground_obs)
      as (T1 & k & q & T2 & HT & _ & _ & H1 & _ & Hres).
    + apply NoDup_labels_two.
    + intros e [<-|[<-|[]]] _; cbn [snd]; rewrite Region.tdiff_pixel_at by lia; lra.
    + exists (0%nat, Region.pixel_at (3600 * 50)%Z (Region.Num 5)).
      split; [now left|]. cbn [snd].
      rewrite Region.dist_pixel_at, Region.tdiff_pixel_at by lia. lra.
    + rewrite Hres. unfold region_two_pixels_frame in HT.
      destruct T1 as [|e1 [|e2 T1]].
      * injection HT as _ Hq _. now subst q.
      * exfalso. injection HT as He1 _ Hq _. subst e1 q.
        specialize (H1 _ (or_introl eq_refl)). cbn [snd] in H1.
        change 180000%Z with (3600 * 50)%Z in H1.
        rewrite !Region.dist_pixel_at, Region.tdiff_pixel_at in H1 by lia.
        lra.
      * exfalso. injection HT as _ _ HT. destruct T1; discriminate HT.
Defined.

End Selection.

(* ================================================================== *)
(** * 6. Floats and the numpy / scikit-learn calls of the statistics *)
(* ================================================================== *)

Module Np.
Local Open Scope Q_scope.

(** A Python float: a finite value (idealised as a rational), NaN, or an
    infinity.  Zero is unsigned. *)
Inductive float : Type :=
| Fin (q : Q)
| NaN
| PosInf
| NegInf.

Definition isnan (f : float) : bool :=
  match f with NaN => true | _ => false end.

Definition isinf (f : float) : bool :=
  match f with PosInf | NegInf => true | _ => false end.

Definition isfinite (f : float) : bool :=
  match f with Fin _ => true | _ => false end.

Definition Qltb (a b : Q) : bool := negb (Qle_bool b a).

Definition inf_of_sign (positive : bool) : float :=
  if positive then PosInf else NegInf.

(** IEEE arithmetic on the extended values. *)
Definition fneg (a : float) : float :=
  match a with
  | Fin q => Fin (- q)
  | NaN => NaN
  | PosInf => NegInf
  | NegInf => PosInf
  end.

Definition fadd (a b : float) : float :=
  match a, b with
  | Fin p, Fin q => Fin (p + q)
  | NaN, _ | _, NaN => NaN
  | PosInf, NegInf | NegInf, PosInf => NaN
  | PosInf, _ | _, PosInf => PosInf
  | NegInf, _ | _, NegInf => NegInf
  end.

Definition fsub (a b : float) : float := fadd a (fneg b).

Definition fmul (a b : float) : float :=
  match a, b with
  | Fin p, Fin q => Fin (p * q)
  | NaN, _ | _, NaN => NaN
  | Fin p, PosInf | PosInf, Fin p =>
      if Qeq_bool p 0 then NaN else inf_of_sign (Qltb 0 p)
  | Fin p, NegInf | NegInf, Fin p =>
      if Qeq_bool p 0 then NaN else inf_of_sign (Qltb p 0)
  | PosInf, PosInf | NegInf, NegInf => PosInf
  | PosInf, NegInf | NegInf, PosInf => NegInf
  end.

(** numpy division: a zero divisor gives NaN or an infinity, never an
    exception. *)
Definition fdiv (a b : float) : float :=
  match a, b with
  | NaN, _ | _, NaN => NaN
  | Fin p, Fin q =>
      if Qeq_bool q 0
      then (if Qeq_bool p 0 then NaN else inf_of_sign (Qltb 0 p))
      else Fin (p / q)
  | Fin _, _ => Fin 0
  | PosInf, Fin q => inf_of_sign (Qle_bool 0 q)
  | NegInf, Fin q => inf_of_sign (Qltb q 0)
  | _, _ => NaN
  end.

Definition fabs (a : float) : float :=
  match a with
  | Fin q => Fin (Qabs q)
  | NaN => NaN
  | _ => PosInf
  end.

Definition fpow2 (a : float) : float := fmul a a.

(** Comparisons; any comparison with NaN is false, [!=] is true. *)
Definition fleb (a b : float) : bool :=
  match a, b with
  | NaN, _ | _, NaN => false
  | Fin p, Fin q => Qle_bool p q
  | NegInf, _ | _, PosInf => true
  | _, _ => false
  end.

Definition fltb (a b : float) : bool :=
  match a, b with
  | NaN, _ | _, NaN => false
  | Fin p, Fin q => Qltb p q
  | NegInf, NegInf | PosInf, _ | _, NegInf => false
  | _, _ => true
  end.

Definition feqb (a b : float) : bool :=
  match a, b with
  | Fin p, Fin q => Qeq_bool p q
  | PosInf, PosInf | NegInf, NegInf => true
  | _, _ => false
  end.

Definition fneb (a b : float) : bool := negb (feqb a b).

(** Python's builtin [max(a, b)]. *)
Definition py_max (a b : float) : float := if fltb a b then b else a.

(** [np.maximum], [np.minimum] (NaN propagates) and [np.clip]. *)
Definition np_maximum (a b : float) : float :=
  if isnan a || isnan b then NaN else if fleb a b then b else a.

Definition np_minimum (a b : float) : float :=
  if isnan a || isnan b then NaN else if fleb a b then a else b.

Definition np_clip (a a_min a_max : float) : float :=
  np_minimum (np_maximum a a_min) a_max.

Definition of_nat (n : nat) : float := Fin (inject_Z (Z.of_nat n)).

(** [np.sum], [np.mean], [np.var] of a one-dimensional array. *)
Definition np_sum (x : list float) : float := fold_left fadd x (Fin 0).

Definition np_mean (x : list float) : float := fdiv (np_sum x) (of_nat (List.length x)).

Definition np_var (x : list float) : float :=
  let m := np_mean x in
  np_mean (map (fun v => fpow2 (fabs (fsub v m))) x).

(** Sorting (of an array without NaN). *)
Fixpoint insert_sorted (a : float) (s : list float) : list float :=
  match s with
  | [] => [a]
  | b :: s' => if fleb a b then a :: s else b :: insert_sorted a s'
  end.

Definition np_sort (x : list float) : list float := fold_right insert_sorted [] x.

(** [np.median]: NaN on an empty array or when a NaN is present, else the
    middle element, or the mean of the two middle elements. *)
Definition np_median (x : list float) : float :=
  let n := List.length x in
  if (n =? 0)%nat then NaN
  else if existsb isnan x then NaN
  else
    let s := np_sort x in
    if Nat.odd n then nth (n / 2) s NaN
    else fdiv (fadd (nth (n / 2 - 1) s NaN) (nth (n / 2) s NaN)) (Fin 2).

(** Elementwise binary operation of two arrays of one length. *)
Definition zip_with {A B C : Type} (f : A -> B -> C) (x : list A) (y : list B) : list C :=
  map (fun p => f (fst p) (snd p)) (combine x y).

(** The finite values of an array, when all are finite. *)
Fixpoint finite_values (x : list float) : option (list Q) :=
  match x with
  | [] => Some []
  | Fin q :: x' =>
      match finite_values x' with
      | Some l => Some (q :: l)
      | None => None
      end
  | _ :: _ => None
  end.

Definition Qsum (l : list Q) : Q := fold_left Qplus l 0.

Definition Qlen (l : list Q) : Q := inject_Z (Z.of_nat (List.length l)).

(** [np.polyfit(x, y, 1)]: the least-squares line.  It raises on an empty
    or mismatched input and when the scaled design matrix is not finite
    (non-finite data, or an all-zero [x], whose column is scaled by 0);
    on a constant non-zero [x] the system has rank one and the
    minimum-norm solution of the column-scaled system is returned. *)
Definition np_polyfit1 (x y : list float) : result (float * float) :=
  if (List.length x =? 0)%nat then Raise TypeError
  else if negb (List.length x =? List.length y)%nat then Raise TypeError
  else
    match finite_values x, finite_values y with
    | Some xq, Some yq =>
        let n := Qlen xq in
        let sx := Qsum xq in
        let sy := Qsum yq in
        let sxx := Qsum (map (fun v => v * v) xq) in
        let sxy := Qsum (zip_with Qmult xq yq) in
        let det := n * sxx - sx * sx in
        if negb (Qeq_bool det 0) then
          let slope := (n * sxy - sx * sy) / det in
          Ok (Fin slope, Fin ((sy - slope * sx) / n))
        else if Qeq_bool sxx 0 then Raise LinAlgError
        else
          let c := sx / n in
          let ybar := sy / n in
          Ok (Fin (ybar / (2 * c)), Fin (ybar / 2))
    | _, _ => Raise LinAlgError
    end.

(** [sklearn.metrics.r2_score(y_true, y_pred)]: [ValueError] on empty,
    mismatched or non-finite input; NaN (with a warning) on a single
    sample; on a constant [y_true] the score is 1 for a perfect
    prediction and 0 otherwise. *)
Definition r2_score (y_true y_pred : list float) : result float :=
  match finite_values y_true, finite_values y_pred with
  | Some t, Some p =>
      if negb (List.length t =? List.length p)%nat then Raise ValueError
      else if (List.length t =? 0)%nat then Raise ValueError
      else if (List.length t <? 2)%nat then Ok NaN
      else
        let mean := Qsum t / Qlen t in
        let numerator := Qsum (zip_with (fun a b => (a - b) * (a - b)) t p) in
        let denominator := Qsum (map (fun a => (a - mean) * (a - mean)) t) in
        if negb (Qeq_bool denominator 0) then Ok (Fin (1 - numerator / denominator))
        else if Qeq_bool numerator 0 then Ok (Fin 1)
        else Ok (Fin 0)
  | _, _ => Raise ValueError
  end.

(** A square root for concrete runs: exact on the rationals whose reduced
    numerator and denominator are perfect squares, NaN below zero. *)
Definition sqrt_on_squares (f : float) : float :=
  match f with
  | Fin q =>
      if Qltb q 0 then NaN
      else Fin (Z.sqrt (Qnum (Qred q)) # Pos.sqrt (Qden (Qred q)))
  | PosInf => PosInf
  | _ => NaN
  end.

(** ** Facts: finite inputs give finite results *)

Lemma isfinite_iff (f : float) : isfinite f = true <-> exists q, f = Fin q.
Proof.
  destruct f; simpl; split; intros H; try discriminate; eauto;
    destruct H as [q' H]; discriminate.
Qed.

Lemma isfinite_not_nan (f : float) : isfinite f = true -> isnan f = false.
Proof. destruct f; simpl; intros; try discriminate; reflexivity. Qed.

Lemma forall_finite_no_nan (x : list float) :
  Forall (fun f => isfinite f = true) x -> existsb isnan x = false.
Proof.
  induction 1 as [|f x Hf _ IH]; simpl; [reflexivity|].
  now rewrite (isfinite_not_nan f Hf), IH.
Qed.

Lemma forall_finite_map_Fin (l : list Q) :
  Forall (fun f => isfinite f = true) (map Fin l).
Proof. induction l; simpl; constructor; auto. Qed.

Lemma insert_sorted_finite (a : float) (s : list float) :
  isfinite a = true ->
  Forall (fun f => isfinite f = true) s ->
  Forall (fun f => isfinite f = true) (insert_sorted a s).
Proof.
  intros Ha Hs. induction Hs as [|b s Hb Hs IH]; simpl.
  - constructor; [exact Ha|constructor].
  - destruct (fleb a b); repeat constructor; auto.
Qed.

Lemma insert_sorted_length (a : float) (s : list float) :
  List.length (insert_sorted a s) = S (List.length s).
Proof.
  induction s as [|b s IH]; simpl; [reflexivity|].
  destruct (fleb a b); simpl; [reflexivity|now rewrite IH].
Qed.

Lemma np_sort_finite (x : list float) :
  Forall (fun f => isfinite f = true) x ->
  Forall (fun f => isfinite f = true) (np_sort x).
Proof.
  unfold np_sort. induction 1 as [|a x Ha _ IH]; simpl; [constructor|].
  now apply insert_sorted_finite.
Qed.

Lemma np_sort_length (x : list float) : List.length (np_sort x) = List.length x.
Proof.
  unfold np_sort. induction x as [|a x IH]; simpl; [reflexivity|].
  now rewrite insert_sorted_length, IH.
Qed.

Lemma nth_finite (s : list float) (k : nat) :
  Forall (fun f => isfinite f = true) s ->
  (k < List.length s)%nat ->
  exists q, nth k s NaN = Fin q.
Proof.
  intros Hs Hk. apply isfinite_iff.
  rewrite Forall_forall in Hs. apply Hs. now apply nth_In.
Qed.

(** The median of a non-empty finite array is finite. *)
Lemma np_median_finite (x : list float) :
  x <> [] ->
  Forall (fun f => isfinite f = true) x ->
  exists m, np_median x = Fin m.
Proof.
  intros Hne Hx. unfold np_median.
  destruct x as [|a x']; [easy|]. set (x := a :: x') in *.
  assert (Hn : (0 < List.length x)%nat) by (simpl; lia).
  replace (List.length x =? 0)%nat with false
    by (symmetry; apply Nat.eqb_neq; lia).
  rewrite (forall_finite_no_nan x Hx).
  pose proof (np_sort_finite x Hx) as Hs.
  pose proof (np_sort_length x) as Hl.
  assert (Hhalf : (List.length x / 2 < List.length x)%nat)
    by (apply Nat.div_lt; lia).
  destruct (Nat.odd (List.length x)).
  - apply nth_finite; [exact Hs|lia].
  - destruct (nth_finite (np_sort x) (List.length x / 2 - 1) Hs) as [p Hp]; [lia|].
    destruct (nth_finite (np_sort x) (List.length x / 2) Hs) as [q Hq]; [lia|].
    rewrite Hp, Hq. simpl. eauto.
Qed.

(** Clipping a value that is not NaN lands in the interval. *)
Lemma np_clip_bounds (a : float) (lo hi : Q) :
  lo <= hi ->
  isnan a = false ->
  exists q, np_clip a (Fin lo) (Fin hi) = Fin q /\ lo <= q <= hi.
Proof.
  intros Hlh Ha. unfold np_clip, np_maximum, np_minimum.
  destruct a as [v| | |]; try discriminate; simpl.
  - destruct (Qle_bool v lo) eqn:E1; simpl.
    + assert (E : Qle_bool lo hi = true) by now apply Qle_bool_iff.
      rewrite E. exists lo. split; [reflexivity|]. split; [apply Qle_refl|exact Hlh].
    + destruct (Qle_bool v hi) eqn:E2.
      * exists v. split; [reflexivity|]. apply Qle_bool_iff in E2. split; [|exact E2].
        destruct (Qlt_le_dec lo v) as [H|H]; [now apply Qlt_le_weak|].
        apply Qle_bool_iff in H. congruence.
      * exists hi. split; [reflexivity|]. split; [exact Hlh|apply Qle_refl].
  - assert (E : Qle_bool lo hi = true) by now apply Qle_bool_iff.
    exists hi. split; [reflexivity|]. split; [exact Hlh|apply Qle_refl].
  - assert (E : Qle_bool lo hi = true) by now apply Qle_bool_iff.
    rewrite E. exists lo. split; [reflexivity|]. split; [apply Qle_refl|exact Hlh].
Qed.

(** Clipping NaN gives NaN. *)
Lemma np_clip_nan (lo hi : float) : np_clip NaN lo hi = NaN.
Proof. reflexivity. Qed.

Lemma finite_values_map_Fin (l : list Q) : finite_values (map Fin l) = Some l.
Proof. induction l as [|q l IH]; simpl; [reflexivity|now rewrite IH]. Qed.

Lemma finite_values_inv (x : list float) (l : list Q) :
  finite_values x = Some l -> x = map Fin l.
Proof.
  revert l. induction x as [|f x IH]; intros l; simpl.
  - now intros [= <-].
  - destruct f; try discriminate.
    destruct (finite_values x) as [l'|]; [|discriminate].
    intros [= <-]. simpl. now rewrite (IH l').
Qed.

(** An array without NaN and without infinities is finite. *)
Lemma finite_values_total (x : list float) :
  existsb isnan x = false -> existsb isinf x = false ->
  exists l, finite_values x = Some l.
Proof.
  induction x as [|f x IH]; simpl; intros Hn Hi.
  - now exists [].
  - apply orb_false_iff in Hn. apply orb_false_iff in Hi.
    destruct Hn as [Hn Hn']. destruct Hi as [Hi Hi'].
    destruct (IH Hn' Hi') as [l Hl]. rewrite Hl.
    destruct f; try discriminate. eauto.
Qed.

(** [np.polyfit] returns finite coefficients when it returns. *)
Lemma np_polyfit1_finite (x y : list float) (s i : float) :
  np_polyfit1 x y = Ok (s, i) -> exists qs qi, s = Fin qs /\ i = Fin qi.
Proof.
  unfold np_polyfit1.
  destruct (List.length x =? 0)%nat; [discriminate|].
  destruct (negb (List.length x =? List.length y)%nat); [discriminate|].
  destruct (finite_values x) as [xq|]; [|discriminate].
  destruct (finite_values y) as [yq|]; [|discriminate].
  match goal with |- context [negb (Qeq_bool ?d 0)] => destruct (negb (Qeq_bool d 0)) end.
  - intros [= <- <-]. eauto.
  - match goal with |- context [Qeq_bool ?d 0] => destruct (Qeq_bool d 0) end.
    + discriminate.
    + intros [= <- <-]. eauto.
Qed.

(** [r2_score] returns on finite, non-empty arrays of one length. *)
Lemma r2_score_returns (t p : list Q) :
  List.length t = List.length p -> t <> [] ->
  exists r, r2_score (map Fin t) (map Fin p) = Ok r.
Proof.
  intros Hl Hne. unfold r2_score.
  rewrite !finite_values_map_Fin.
  rewrite <- Hl, Nat.eqb_refl. simpl negb. cbv iota.
  destruct t as [|a t]; [easy|]. cbn [List.length Nat.eqb].
  destruct (S (List.length t) <? 2)%nat; [eauto|].
  match goal with |- context [negb (Qeq_bool ?d 0)] => destruct (negb (Qeq_bool d 0)) end;
    [eauto|].
  match goal with |- context [Qeq_bool ?d 0] => destruct (Qeq_bool d 0) end; eauto.
Qed.

End Np.

(* ================================================================== *)
(** * 7. Deming regression ([robust_var], [deming_regression]) *)
(* ================================================================== *)

Module Deming.
Import Np.
Local Open Scope Q_scope.

(** [robust_var(x)]: variance from the median absolute deviation. *)
Definition robust_var (x : list float) : float :=
  let med := np_median x in
  let mad := fadd (np_median (map (fun v => fabs (fsub v med)) x)) (Fin 1e-9) in
  fpow2 (fmul (Fin 1.4826) mad).

(** The lines the function prints. *)
Inductive warning : Type :=
| LambdaClamped (lambda_ratio lambda_clamped : float)
| DegenerateInput
| OlsFailed
| DemingFailed.

(** The returned tuple [(slope, intercept, r2, lambda_clamped)]. *)
Record fit : Type := {
  slope : float;
  intercept : float;
  r2 : float;
  lambda_used : float
}.

(** [~np.isnan(x) & ~np.isinf(x) & ~np.isnan(y) & ~np.isinf(y)]. *)
Definition clean_mask (x y : list float) : list bool :=
  zip_with (fun a b => negb (isnan a) && negb (isinf a) && negb (isnan b) && negb (isinf b))
           x y.

(** [a[mask]] for a boolean mask of the same length. *)
Definition select {A : Type} (a : list A) (mask : list bool) : list A :=
  map fst (filter snd (combine a mask)).

(** [slope * x + intercept], elementwise. *)
Definition line (s i : float) (x : list float) : list float :=
  map (fun v => fadd (fmul s v) i) x.

(** The estimate of the variance ratio when none is supplied. *)
Definition estimate_lambda (x y : list float) : float :=
  let var_ground := robust_var x in
  let var_tempo := py_max (robust_var y) (Fin 1e-9) in
  fdiv var_ground var_tempo.

(** The degeneracy test of the [if]. *)
Definition degenerate (x y : list float) : bool :=
  fltb (np_var x) (Fin 1e-6) || fltb (np_var y) (Fin 1e-6)
  || existsb isnan x || existsb isnan y || existsb isinf x || existsb isinf y.

(** The [try] block of the degenerate branch with its bare [except]. *)
Definition ols_fallback (x y : list float) : result (float * float * float) :=
  try_except
    (let x_clean := select x (clean_mask x y) in
     let y_clean := select y (clean_mask x y) in
     if (1 <? List.length x_clean)%nat then
       ols <- np_polyfit1 x_clean y_clean ;;
       r2_ols <- r2_score y_clean (line (fst ols) (snd ols) x_clean) ;;
       Ok (fst ols, snd ols, r2_ols)
     else Ok (Fin 1, Fin 0, Fin 0))
    (Ok (Fin 1, Fin 0, Fin 0)).

(** The objective handed to the optimizer. *)
Definition objective (x y : list float) (lambda_clamped : float)
    (params : float * float) : float :=
  let s := fst params in
  let i := snd params in
  np_sum (zip_with (fun xv yv =>
                      fdiv (fpow2 (fsub yv (fadd (fmul s xv) i)))
                           (fadd lambda_clamped (fpow2 s)))
                   x y).

Section WithOptimizer.

(** [scipy.optimize.minimize(objective, x0, method='BFGS')], reduced to
    [result.x]; it may raise. *)
Variable minimize : (float * float -> float) -> float * float -> result (float * float).

(** [deming_regression(x, y, lambda_ratio=None)]: what is printed, and the
    tuple returned or the exception raised.  [x_err] and [y_err] are never
    read. *)
Definition deming_regression (x y : list float) (lambda_ratio : option float)
  : list warning * result fit :=
  let lambda_ratio :=
    match lambda_ratio with
    | None => estimate_lambda x y
    | Some l => l
    end in
  let lambda_clamped := np_clip lambda_ratio (Fin 0.05) (Fin 20) in
  let log :=
    if fneb lambda_ratio lambda_clamped
    then [LambdaClamped lambda_ratio lambda_clamped] else [] in
  if degenerate x y then
    (log ++ [DegenerateInput],
     r <- ols_fallback x y ;;
     Ok {| slope := fst (fst r); intercept := snd (fst r); r2 := snd r;
           lambda_used := lambda_clamped |})
  else
    let ols_log :=
      match np_polyfit1 x y with
      | Ok p => (p, log)
      | Raise _ => ((Fin 1, Fin 0), log ++ [OlsFailed])
      end in
    let slope_ols := fst (fst ols_log) in
    let intercept_ols := snd (fst ols_log) in
    let log := snd ols_log in
    match minimize (objective x y lambda_clamped) (slope_ols, intercept_ols) with
    | Ok (slope_deming, intercept_deming) =>
        let y_pred := line slope_deming intercept_deming x in
        let ss_res := np_sum (zip_with (fun a b => fpow2 (fsub a b)) y y_pred) in
        let ss_tot := np_sum (map (fun a => fpow2 (fsub a (np_mean y))) y) in
        let r2_deming := fsub (Fin 1) (fdiv ss_res ss_tot) in
        (log, Ok {| slope := slope_deming; intercept := intercept_deming;
                    r2 := r2_deming; lambda_used := lambda_clamped |})
    | Raise _ =>
        (log ++ [DemingFailed],
         r2_ols <- r2_score y (line slope_ols intercept_ols x) ;;
         Ok {| slope := slope_ols; intercept := intercept_ols; r2 := r2_ols;
               lambda_used := lambda_clamped |})
    end.

(** ** Facts about [deming_regression] *)

(** The fallback triple of the degenerate branch, case by case. *)
Definition fallback_triple (x y : list float) : float * float * float :=
  let x_clean := select x (clean_mask x y) in
  let y_clean := select y (clean_mask x y) in
  if (List.length x_clean <? 2)%nat then (Fin 1, Fin 0, Fin 0)
  else
    match np_polyfit1 x_clean y_clean with
    | Ok (s, i) =>
        match r2_score y_clean (line s i x_clean) with
        | Ok r => (s, i, r)
        | Raise _ => (Fin 1, Fin 0, Fin 0)
        end
    | Raise _ => (Fin 1, Fin 0, Fin 0)
    end.

Lemma ols_fallback_returns (x y : list float) :
  ols_fallback x y = Ok (fallback_triple x y).
Proof.
  unfold ols_fallback, fallback_triple.
  set (xc := select x (clean_mask x y)). set (yc := select y (clean_mask x y)).
  replace (1 <? List.length xc)%nat with (negb (List.length xc <? 2)%nat).
  2:{ destruct (List.length xc <? 2)%nat eqn:E.
      - apply Nat.ltb_lt in E. symmetry. apply Nat.ltb_ge. simpl. lia.
      - apply Nat.ltb_ge in E. symmetry. apply Nat.ltb_lt. simpl. lia. }
  destruct (List.length xc <? 2)%nat; simpl negb; cbv iota; [reflexivity|].
  destruct (np_polyfit1 xc yc) as [[s i]|e]; [|reflexivity].
  cbn [bind fst snd].
  destruct (r2_score yc (line s i xc)) as [r|e]; reflexivity.
Qed.

(** The value of lambda the function works with. *)
Definition lambda_of (x y : list float) (lambda_ratio : option float) : float :=
  match lambda_ratio with
  | None => estimate_lambda x y
  | Some l => l
  end.

(** On degenerate input the function returns the fallback triple. *)
Lemma deming_regression_degenerate (x y : list float) (lambda_ratio : option float) :
  degenerate x y = true ->
  snd (deming_regression x y lambda_ratio)
  = Ok {| slope := fst (fst (fallback_triple x y));
          intercept := snd (fst (fallback_triple x y));
          r2 := snd (fallback_triple x y);
          lambda_used := np_clip (lambda_of x y lambda_ratio) (Fin 0.05) (Fin 20) |}.
Proof.
  intros Hd. unfold deming_regression. rewrite Hd. cbn [snd].
  rewrite ols_fallback_returns. reflexivity.
Qed.

Lemma line_finite (s i : Q) (xq : list Q) :
  line (Fin s) (Fin i) (map Fin xq) = map Fin (map (fun v => s * v + i) xq).
Proof. unfold line. rewrite !map_map. reflexivity. Qed.

Lemma degenerate_false_finite (x y : list float) :
  degenerate x y = false ->
  exists xq yq, x = map Fin xq /\ y = map Fin yq.
Proof.
  unfold degenerate. intros H.
  repeat (apply orb_false_iff in H; destruct H as [H ?]).
  destruct (finite_values_total x) as [xq Hx]; try assumption.
  destruct (finite_values_total y) as [yq Hy]; try assumption.
  exists xq, yq. split; now apply finite_values_inv.
Qed.

(** The function returns on every pair of arrays of one length; on empty
    arrays this rests on the optimizer returning. *)
Lemma deming_regression_returns (x y : list float) (lambda_ratio : option float) :
  List.length x = List.length y ->
  (x = [] -> forall f p0, exists p, minimize f p0 = Ok p) ->
  exists f, snd (deming_regression x y lambda_ratio) = Ok f.
Proof.
  intros Hlen Hopt.
  destruct (degenerate x y) eqn:Hd.
  { rewrite (deming_regression_degenerate x y lambda_ratio Hd). eauto. }
  unfold deming_regression. rewrite Hd.
  set (lam := np_clip _ _ _).
  set (ols_log := match np_polyfit1 x y with
                  | Ok p => (p, _)
                  | Raise _ => _
                  end).
  assert (Hols : exists qs qi, fst ols_log = (Fin qs, Fin qi)).
  { subst ols_log. destruct (np_polyfit1 x y) as [[s i]|e] eqn:E; cbn [fst].
    - destruct (np_polyfit1_finite x y s i E) as (qs & qi & -> & ->). eauto.
    - eauto. }
  destruct Hols as (qs & qi & Hols).
  destruct (minimize (objective x y lam) (fst (fst ols_log), snd (fst ols_log)))
    as [[sd id]|e] eqn:Hm.
  { cbn [snd]. eauto. }
  cbn [snd]. rewrite Hols. cbn [fst snd].
  destruct (degenerate_false_finite x y Hd) as (xq & yq & -> & ->).
  rewrite line_finite.
  destruct xq as [|a xq].
  - destruct (Hopt eq_refl (objective (map Fin []) (map Fin yq) lam)
                (fst (fst ols_log), snd (fst ols_log))) as [p Hp].
    rewrite Hp in Hm. discriminate.
  - destruct (r2_score_returns yq (map (fun v => qs * v + qi) (a :: xq))) as [r Hr].
    + rewrite !length_map in Hlen. rewrite length_map. now symmetry.
    + rewrite !length_map in Hlen. destruct yq; [discriminate|easy].
    + rewrite Hr. cbn [bind]. eauto.
Qed.







(** [robust_var] of a non-empty finite array is finite. *)
Lemma robust_var_finite (xq : list Q) :
  xq <> [] -> exists v, robust_var (map Fin xq) = Fin v.
Proof.
  intros Hne. unfold robust_var.
  destruct (np_median_finite (map Fin xq)) as [m ->].
  { destruct xq; [easy|discriminate]. }
  { apply forall_finite_map_Fin. }
  rewrite map_map. cbn [fsub fneg fadd fabs].
  destruct (np_median_finite (map (fun x : Q => Fin (Qabs (x + - m))) xq)) as [m2 ->].
  { destruct xq; [easy|discriminate]. }
  { rewrite <- (map_map (fun x : Q => Qabs (x + - m)) Fin). apply forall_finite_map_Fin. }
  simpl. eauto.
Qed.

(** The estimate of lambda on non-empty finite arrays is finite. *)
Lemma estimate_lambda_finite (xq yq : list Q) :
  xq <> [] -> yq <> [] ->
  exists l, estimate_lambda (map Fin xq) (map Fin yq) = Fin l.
Proof.
  intros Hx Hy. unfold estimate_lambda.
  destruct (robust_var_finite xq Hx) as [vx ->].
  destruct (robust_var_finite yq Hy) as [vy ->].
  unfold py_max, fltb, Qltb.
  destruct (Qle_bool 1e-9 vy) eqn:E; cbn [negb].
  - apply Qle_bool_iff in E. unfold fdiv.
    destruct (Qeq_bool vy 0) eqn:E0; [|eauto].
    apply Qeq_bool_iff in E0. rewrite E0 in E.
    exfalso. apply (Qle_not_lt _ _ E). reflexivity.
  - simpl. eauto.
Qed.

(** The clamped lambda is what every returning path hands back. *)
Lemma deming_regression_lambda (x y : list float) (lambda_ratio : option float) (f : fit) :
  snd (deming_regression x y lambda_ratio) = Ok f ->
  lambda_used f = np_clip (lambda_of x y lambda_ratio) (Fin 0.05) (Fin 20).
Proof.
  unfold deming_regression. fold (lambda_of x y lambda_ratio).
  set (lam := np_clip _ _ _).
  destruct (degenerate x y).
  - cbn [snd]. destruct (ols_fallback x y) as [r|e]; cbn [bind]; [|discriminate].
    now intros [= <-].
  - match goal with
    | |- context [minimize ?o ?p] => destruct (minimize o p) as [[sd id]|e]
    end; cbn [snd].
    + now intros [= <-].
    + match goal with
      | |- context [r2_score ?a ?b] => destruct (r2_score a b) as [r|e']
      end; cbn [bind]; [|discriminate].
      now intros [= <-].
Qed.

(** The clamp line is printed exactly when clamping changed the value. *)
Lemma deming_regression_warns (x y : list float) (lambda_ratio : option float)
    (raw clamped : float) :
  In (LambdaClamped raw clamped) (fst (deming_regression x y lambda_ratio))
  <-> raw = lambda_of x y lambda_ratio
      /\ clamped = np_clip raw (Fin 0.05) (Fin 20)
      /\ fneb raw clamped = true.
Proof.
  unfold deming_regression. fold (lambda_of x y lambda_ratio).
  set (l := lambda_of x y lambda_ratio).
  set (lam := np_clip l (Fin 0.05) (Fin 20)).
  set (log := if fneb l lam then [LambdaClamped l lam] else []).
  assert (Hlog : In (LambdaClamped raw clamped) log
                 <-> raw = l /\ clamped = np_clip raw (Fin 0.05) (Fin 20)
                     /\ fneb raw clamped = true).
  { subst log. destruct (fneb l lam) eqn:E; simpl.
    - split.
      + intros [[= <- <-]|[]]. auto.
      + intros (-> & -> & _). now left.
    - split; [easy|]. intros (-> & -> & H). fold lam in H. congruence. }
  assert (Happ : forall rest,
             ~ In (LambdaClamped raw clamped) rest ->
             (In (LambdaClamped raw clamped) (log ++ rest)
              <-> In (LambdaClamped raw clamped) log)).
  { intros rest Hr. rewrite in_app_iff. tauto. }
  destruct (degenerate x y).
  - cbn [fst]. rewrite Happ; [exact Hlog|]. intros [H|[]]; discriminate.
  - destruct (np_polyfit1 x y) as [p|e]; cbn [fst snd];
      match goal with
      | |- context [minimize ?o ?p] => destruct (minimize o p) as [[sd id]|e']
      end; cbn [fst].
    + exact Hlog.
    + rewrite Happ; [exact Hlog|]. intros [H|[]]; discriminate.
    + rewrite Happ; [exact Hlog|]. intros [H|[]]; discriminate.
    + rewrite <- app_assoc. rewrite Happ; [exact Hlog|].
      intros [H|[H|[]]]; discriminate.
Qed.



(** C4 (amended).  On finite, non-empty arrays of one length and with no
    ratio supplied, the function returns, and the lambda it returns is
    [robust_var(x) / max(robust_var(y), 1e-9)] clamped into [0.05, 20],
    where [robust_var] is [(1.4826 * (MAD + 1e-9))^2]; the clamp line is
    printed exactly when clamping changed the value. *)
Theorem deming_lambda_estimated_and_clamped (xq yq : list Q) :
  xq <> [] ->
  List.length xq = List.length yq ->
  let x := map Fin xq in
  let y := map Fin yq in
  let raw := fdiv (robust_var x) (py_max (robust_var y) (Fin 1e-9)) in
  robust_var x
  = fpow2 (fmul (Fin 1.4826)
                (fadd (np_median (map (fun v => fabs (fsub v (np_median x))) x))
                      (Fin 1e-9)))
  /\ exists f l,
       snd (deming_regression x y None) = Ok f
       /\ lambda_used f = Fin l
       /\ Fin l = np_clip raw (Fin 0.05) (Fin 20)
       /\ 0.05 <= l <= 20
       /\ (fneb raw (Fin l) = true ->
           In (LambdaClamped raw (Fin l)) (fst (deming_regression x y None)))
       /\ (fneb raw (Fin l) = false ->
           forall a b, ~ In (LambdaClamped a b) (fst (deming_regression x y None))).
Proof.
  intros Hx Hlen x y raw. split; [reflexivity|].
  assert (Hy : yq <> []) by (destruct yq; [destruct xq; [easy|discriminate]|discriminate]).
  destruct (deming_regression_returns x y None) as [f Hf].
  { subst x y. now rewrite !length_map. }
  { subst x. destruct xq; [easy|discriminate]. }
  pose proof (deming_regression_lambda x y None f Hf) as Hlam.
  cbn [lambda_of] in Hlam. change (estimate_lambda x y) with raw in Hlam.
  destruct (estimate_lambda_finite xq yq Hx Hy) as [l0 Hl0].
  change (estimate_lambda (map Fin xq) (map Fin yq)) with raw in Hl0.
  destruct (np_clip_bounds raw 0.05 20) as (l & Hl & Hb).
  { discriminate. }
  { rewrite Hl0. reflexivity. }
  exists f, l. split; [exact Hf|]. split; [congruence|].
  split; [now symmetry|]. split; [exact Hb|]. split.
  - intros Hne. apply deming_regression_warns. cbn [lambda_of].
    repeat split; auto.
  - intros Heq a b Hin. apply deming_regression_warns in Hin.
    cbn [lambda_of] in Hin. destruct Hin as (-> & -> & Hne).
    change (estimate_lambda x y) with raw in Hne.
    rewrite Hl in Hne. congruence.
Qed.

End WithOptimizer.

(** ** Concrete runs *)

(** Two stand-ins for the optimizer: one hands back its starting point,
    the other always raises. *)
Definition minimize_at_start (f : float * float -> float) (p0 : float * float)
  : result (float * float) := Ok p0.

Definition minimize_raising (f : float * float -> float) (p0 : float * float)
  : result (float * float) := Raise OptimizerError.



(** Counterexample to C4.  On [x = y = [5, 5]] both robust variances are
    [(1.4826e-9)^2], so [robust_var(x) / robust_var(y)] is 1 and needs no
    clamping; the code divides by [max(robust_var(y), 1e-9) = 1e-9] and
    returns the clamped 0.05.  On an input holding a NaN the returned
    lambda is NaN. *)
Lemma lambda_floor_and_nan :
  (exists f,
      snd (deming_regression minimize_raising [Fin 5; Fin 5] [Fin 5; Fin 5] None) = Ok f
      /\ feqb (lambda_used f) (Fin 0.05) = true
      /\ feqb (np_clip (fdiv (robust_var [Fin 5; Fin 5]) (robust_var [Fin 5; Fin 5]))
                       (Fin 0.05) (Fin 20))
              (Fin 1) = true
      /\ feqb (Fin 0.05) (Fin 1) = false)
  /\ (exists f,
        snd (deming_regression minimize_raising [Fin 1; NaN; Fin 3] [Fin 2; Fin 4; Fin 6] None)
        = Ok f
        /\ lambda_used f = NaN).
Proof.
  split.
  - eexists. split; [vm_compute; reflexivity|].
    repeat split; vm_compute; reflexivity.
  - eexists. split; vm_compute; reflexivity.
Qed.

(** Witness of C4 (amended) on [x = [1, 2, 4]], [y = [1, 3, 4]]. *)
Lemma deming_lambda_estimated_and_clamped_witness :
  let xq := [1; 2; 4] in
  let yq := [1; 3; 4] in
  let x := map Fin xq in
  let y := map Fin yq in
  let raw := fdiv (robust_var x) (py_max (robust_var y) (Fin 1e-9)) in
  xq <> [] /\ List.length xq = List.length yq
  /\ robust_var x
     = fpow2 (fmul (Fin 1.4826)
                   (fadd (np_median (map (fun v => fabs (fsub v (np_median x))) x))
                         (Fin 1e-9)))
  /\ exists f l,
       snd (deming_regression minimize_at_start x y None) = Ok f
       /\ lambda_used f = Fin l
       /\ Fin l = np_clip raw (Fin 0.05) (Fin 20)
       /\ 0.05 <= l <= 20
       /\ (fneb raw (Fin l) = true ->
           In (LambdaClamped raw (Fin l)) (fst (deming_regression minimize_at_start x y None)))
       /\ (fneb raw (Fin l) = false ->
           forall a b,
             ~ In (LambdaClamped a b) (fst (deming_regression minimize_at_start x y None))).
Proof.
  intros xq yq x y raw. split; [discriminate|]. split; [reflexivity|].
  apply (deming_lambda_estimated_and_clamped minimize_at_start xq yq).
  - discriminate.
  - reflexivity.
Defined.

End Deming.

(* ================================================================== *)
(** * 8. Quantile mapping ([quantile_mapping]) *)
(* ================================================================== *)

Module Quantile.
Import Np.
Local Open Scope Q_scope.

(** Sorting of finite values. *)
Fixpoint Qinsert (a : Q) (s : list Q) : list Q :=
  match s with
  | [] => [a]
  | b :: s' => if Qle_bool a b then a :: s else b :: Qinsert a s'
  end.

Definition Qsort (l : list Q) : list Q := fold_right Qinsert [] l.

(** [np.quantile(a, q)] with the default linear interpolation between
    the two order statistics around the virtual index [(n - 1) * q];
    indexing an empty array raises. *)
Definition np_quantile (a : list Q) (q : Q) : result Q :=
  match a with
  | [] => Raise IndexError
  | _ :: _ =>
      let s := Qsort a in
      let n := List.length a in
      let h := inject_Z (Z.of_nat (n - 1)) * q in
      let lo := Z.to_nat (Qfloor h) in
      let hi := Nat.min (lo + 1) (n - 1) in
      let frac := h - inject_Z (Qfloor h) in
      Ok (nth lo s 0 + frac * (nth hi s 0 - nth lo s 0))
  end.

(** [np.quantile(a, [q1, q2, ...])]. *)
Fixpoint np_quantiles (a : list Q) (qs : list Q) : result (list Q) :=
  match qs with
  | [] => Ok []
  | q :: qs' =>
      v <- np_quantile a q ;;
      vs <- np_quantiles a qs' ;;
      Ok (v :: vs)
  end.

(** [np.interp(x, xp, fp)] for a scalar [x]: the search for the interval
    [xp[j] <= x < xp[j+1]] and the line through its end points. *)
Fixpoint interp_from (x x0 f0 : Q) (rest : list (Q * Q)) : float :=
  match rest with
  | [] => Fin f0
  | (x1, f1) :: rest' =>
      if Qltb x x1 then
        if Qeq_bool x0 x then Fin f0
        else fadd (fmul (fdiv (Fin (f1 - f0)) (Fin (x1 - x0))) (Fin (x - x0))) (Fin f0)
      else interp_from x x1 f1 rest'
  end.

Definition np_interp (x : Q) (xp fp : list Q) : result float :=
  if negb (List.length xp =? List.length fp)%nat then Raise ValueError
  else
    match combine xp fp with
    | [] => Raise ValueError
    | (x0, f0) :: rest =>
        let right := List.last rest (x0, f0) in
        if Qltb (fst right) x then Ok (Fin (snd right))
        else if Qltb x x0 then Ok (Fin f0)
        else Ok (interp_from x x0 f0 rest)
    end.

(** [a[k]] on an array. *)
Definition item (a : list Q) (k : nat) : result Q :=
  match nth_error a k with
  | Some v => Ok v
  | None => Raise IndexError
  end.

(** The inner function [map_value(x)], closed over the two anchor
    arrays. *)
Definition map_value (ground_quantiles tempo_quantiles : list Q) (x : Q) : result float :=
  t0 <- item tempo_quantiles 0 ;;
  if Qle_bool x t0 then
    g0 <- item ground_quantiles 0 ;;
    Ok (fmul (Fin g0) (fdiv (Fin x) (Fin t0)))
  else
    t2 <- item tempo_quantiles 2 ;;
    if Qle_bool x t2 then np_interp x tempo_quantiles ground_quantiles
    else
      g2 <- item ground_quantiles 2 ;;
      g1 <- item ground_quantiles 1 ;;
      t1 <- item tempo_quantiles 1 ;;
      let slope := fdiv (Fin (g2 - g1)) (Fin (t2 - t1)) in
      Ok (fadd (Fin g2) (fmul slope (Fin (x - t2)))).

(** The list comprehension over [tempo]. *)
Fixpoint map_values (gq tq : list Q) (xs : list Q) : result (list float) :=
  match xs with
  | [] => Ok []
  | x :: xs' =>
      v <- map_value gq tq x ;;
      vs <- map_values gq tq xs' ;;
      Ok (v :: vs)
  end.

(** The dict returned beside the mapped array. *)
Record mapping_params : Type := {
  ground_quantiles : list Q;
  tempo_quantiles : list Q;
  mapping_quantiles : list Q
}.

(** [quantile_mapping(ground, tempo)]. *)
Definition quantile_mapping (ground tempo : list Q)
  : result (list float * mapping_params) :=
  let quantiles := [0.1; 0.5; 0.9] in
  gq <- np_quantiles ground quantiles ;;
  tq <- np_quantiles tempo quantiles ;;
  tempo_mapped <- map_values gq tq tempo ;;
  Ok (tempo_mapped,
      {| ground_quantiles := gq; tempo_quantiles := tq; mapping_quantiles := quantiles |}).

(** ** Facts about [quantile_mapping] *)

Lemma Qeq_bool_diff_false (a b : Q) : ~ a == b -> Qeq_bool (b - a) 0 = false.
Proof.
  intros H. destruct (Qeq_bool (b - a) 0) eqn:E; [|reflexivity].
  apply Qeq_bool_iff in E. exfalso. apply H. lra.
Qed.

Lemma Qeq_bool_nonzero_false (a : Q) : ~ a == 0 -> Qeq_bool a 0 = false.
Proof.
  intros H. destruct (Qeq_bool a 0) eqn:E; [|reflexivity].
  apply Qeq_bool_iff in E. contradiction.
Qed.

Lemma Qle_bool_false_lt (a b : Q) : Qle_bool a b = false -> b < a.
Proof.
  intros H. destruct (Qlt_le_dec b a) as [Hlt|Hle]; [exact Hlt|].
  apply Qle_bool_iff in Hle. congruence.
Qed.

Lemma Qltb_true_lt (a b : Q) : Qltb a b = true -> a < b.
Proof. unfold Qltb. intros H. apply negb_true_iff in H. now apply Qle_bool_false_lt. Qed.

Lemma Qltb_false_le (a b : Q) : Qltb a b = false -> b <= a.
Proof. unfold Qltb. intros H. apply negb_false_iff in H. now apply Qle_bool_iff. Qed.

Lemma Qltb_of_le (a b : Q) : b <= a -> Qltb a b = false.
Proof. unfold Qltb. intros H. apply negb_false_iff. now apply Qle_bool_iff. Qed.

(** The three branches of [map_value] for a mapping fit on the anchors
    [p10, p50, p90] of one dataset. *)
Lemma map_value_below (p10 p50 p90 x : Q) :
  x <= p10 ->
  map_value [p10; p50; p90] [p10; p50; p90] x
  = Ok (fmul (Fin p10) (fdiv (Fin x) (Fin p10))).
Proof.
  intros H. unfold map_value. cbn [item nth_error bind].
  apply Qle_bool_iff in H. now rewrite H.
Qed.

Lemma map_value_between (p10 p50 p90 x : Q) :
  p10 < x -> x <= p90 ->
  map_value [p10; p50; p90] [p10; p50; p90] x
  = np_interp x [p10; p50; p90] [p10; p50; p90].
Proof.
  intros H1 H2. unfold map_value. cbn [item nth_error bind].
  destruct (Qle_bool x p10) eqn:E.
  - apply Qle_bool_iff in E. exfalso. apply (Qlt_not_le _ _ H1 E).
  - apply Qle_bool_iff in H2. now rewrite H2.
Qed.

Lemma map_value_above (p10 p50 p90 x : Q) :
  p10 < x -> p90 < x ->
  map_value [p10; p50; p90] [p10; p50; p90] x
  = Ok (fadd (Fin p90)
             (fmul (fdiv (Fin (p90 - p50)) (Fin (p90 - p50))) (Fin (x - p90)))).
Proof.
  intros H1 H2. unfold map_value. cbn [item nth_error bind].
  destruct (Qle_bool x p10) eqn:E.
  - apply Qle_bool_iff in E. exfalso. apply (Qlt_not_le _ _ H1 E).
  - destruct (Qle_bool x p90) eqn:E2; [|reflexivity].
    apply Qle_bool_iff in E2. exfalso. apply (Qlt_not_le _ _ H2 E2).
Qed.

(** Interpolating a value against identical anchor arrays returns it. *)
Lemma np_interp_same_anchors (p10 p50 p90 x : Q) :
  ~ p10 == p50 -> ~ p50 == p90 ->
  p10 < x -> x <= p90 ->
  exists v, np_interp x [p10; p50; p90] [p10; p50; p90] = Ok (Fin v) /\ v == x.
Proof.
  intros H12 H23 Hlo Hhi. unfold np_interp.
  cbn [List.length Nat.eqb negb combine List.last fst snd].
  rewrite (Qltb_of_le p90 x Hhi).
  rewrite (Qltb_of_le x p10 (Qlt_le_weak _ _ Hlo)).
  cbn [interp_from].
  destruct (Qltb x p50) eqn:E1.
  - destruct (Qeq_bool p10 x) eqn:E0.
    + apply Qeq_bool_iff in E0. eauto.
    + unfold fdiv. rewrite (Qeq_bool_diff_false p10 p50 H12). cbn [fmul fadd].
      eexists. split; [reflexivity|]. field. intros H. apply H12. lra.
  - destruct (Qltb x p90) eqn:E2.
    + destruct (Qeq_bool p50 x) eqn:E0.
      * apply Qeq_bool_iff in E0. eauto.
      * unfold fdiv. rewrite (Qeq_bool_diff_false p50 p90 H23). cbn [fmul fadd].
        eexists. split; [reflexivity|]. field. intros H. apply H23. lra.
    + apply Qltb_false_le in E2. exists p90. split; [reflexivity|]. lra.
Qed.

(** A mapping fit on one dataset's own anchors is the identity. *)
Lemma map_value_identity (p10 p50 p90 x : Q) :
  ~ p10 == 0 -> ~ p10 == p50 -> ~ p50 == p90 ->
  exists v, map_value [p10; p50; p90] [p10; p50; p90] x = Ok (Fin v) /\ v == x.
Proof.
  intros H0 H12 H23.
  destruct (Qlt_le_dec p10 x) as [Hlo|Hle].
  - destruct (Qlt_le_dec p90 x) as [Hhi|Hhi].
    + rewrite (map_value_above _ _ _ _ Hlo Hhi).
      unfold fdiv. rewrite (Qeq_bool_diff_false p50 p90 H23). cbn [fmul fadd].
      eexists. split; [reflexivity|]. field. intros H. apply H23. lra.
    + rewrite (map_value_between _ _ _ _ Hlo Hhi).
      now apply np_interp_same_anchors.
  - rewrite (map_value_below _ _ _ _ Hle).
    unfold fdiv. rewrite (Qeq_bool_nonzero_false p10 H0). cbn [fmul].
    eexists. split; [reflexivity|]. field. exact H0.
Qed.

Lemma map_values_identity (p10 p50 p90 : Q) (xs : list Q) :
  ~ p10 == 0 -> ~ p10 == p50 -> ~ p50 == p90 ->
  exists mapped,
    map_values [p10; p50; p90] [p10; p50; p90] xs = Ok mapped
    /\ Forall2 (fun m x => exists v, m = Fin v /\ v == x) mapped xs.
Proof.
  intros H0 H12 H23. induction xs as [|x xs IH]; cbn [map_values].
  - exists []. split; [reflexivity|constructor].
  - destruct (map_value_identity p10 p50 p90 x H0 H12 H23) as (v & Hv & Hx).
    destruct IH as (mapped & Hm & HF).
    rewrite Hv, Hm. cbn [bind]. exists (Fin v :: mapped).
    split; [reflexivity|]. constructor; eauto.
Qed.

(** C6.  For a dataset whose 10th, 50th and 90th percentiles are
    pairwise distinct (as neighbours) with a non-zero 10th percentile,
    [quantile_mapping] fit on (g, g) returns [g] itself, value by value,
    and every value is mapped to itself in each of the three branches:
    ratio scaling at or below p10, interpolation in (p10, p90], slope
    extrapolation above p90. *)
Theorem quantile_mapping_round_trip (g : list Q) (p10 p50 p90 : Q) :
  np_quantile g 0.1 = Ok p10 ->
  np_quantile g 0.5 = Ok p50 ->
  np_quantile g 0.9 = Ok p90 ->
  ~ p10 == 0 -> ~ p10 == p50 -> ~ p50 == p90 ->
  (exists mapped params,
      quantile_mapping g g = Ok (mapped, params)
      /\ ground_quantiles params = [p10; p50; p90]
      /\ tempo_quantiles params = [p10; p50; p90]
      /\ Forall2 (fun m x => exists v, m = Fin v /\ v == x) mapped g)
  /\ (forall x, x <= p10 ->
        exists v, map_value [p10; p50; p90] [p10; p50; p90] x = Ok (Fin v)
                  /\ Fin v = fmul (Fin p10) (fdiv (Fin x) (Fin p10)) /\ v == x)
  /\ (forall x, p10 < x -> x <= p90 ->
        exists v, map_value [p10; p50; p90] [p10; p50; p90] x = Ok (Fin v)
                  /\ np_interp x [p10; p50; p90] [p10; p50; p90] = Ok (Fin v) /\ v == x)
  /\ (forall x, p10 < x -> p90 < x ->
        exists v, map_value [p10; p50; p90] [p10; p50; p90] x = Ok (Fin v)
                  /\ Fin v = fadd (Fin p90)
                               (fmul (fdiv (Fin (p90 - p50)) (Fin (p90 - p50)))
                                     (Fin (x - p90)))
                  /\ v == x).
Proof.
  intros Q10 Q50 Q90 H0 H12 H23. split; [|split; [|split]].
  - destruct (map_values_identity p10 p50 p90 g H0 H12 H23) as (mapped & Hm & HF).
    unfold quantile_mapping. cbn [np_quantiles].
    rewrite Q10, Q50, Q90. cbn [bind]. rewrite Hm. cbn [bind].
    eexists _, _. split; [reflexivity|]. cbn [ground_quantiles tempo_quantiles]. auto.
  - intros x Hx.
    destruct (map_value_identity p10 p50 p90 x H0 H12 H23) as (v & Hv & Hvx).
    exists v. split; [exact Hv|]. split; [|exact Hvx].
    rewrite (map_value_below _ _ _ _ Hx) in Hv. now injection Hv.
  - intros x Hlo Hhi.
    destruct (map_value_identity p10 p50 p90 x H0 H12 H23) as (v & Hv & Hvx).
    exists v. split; [exact Hv|]. split; [|exact Hvx].
    now rewrite <- (map_value_between _ _ _ _ Hlo Hhi).
  - intros x Hlo Hhi.
    destruct (map_value_identity p10 p50 p90 x H0 H12 H23) as (v & Hv & Hvx).
    exists v. split; [exact Hv|]. split; [|exact Hvx].
    rewrite (map_value_above _ _ _ _ Hlo Hhi) in Hv. now injection Hv.
Qed.

(** Witness of C6 on the dataset 1, 2, ..., 11, whose anchors are 2, 6
    and 10. *)
Lemma quantile_mapping_round_trip_witness :
  let g := [1; 2; 3; 4; 5; 6; 7; 8; 9; 10; 11] in
  let p10 := 2.0 in
  let p50 := 6.0 in
  let p90 := 10.0 in
  (np_quantile g 0.1 = Ok p10 /\ np_quantile g 0.5 = Ok p50 /\ np_quantile g 0.9 = Ok p90
   /\ ~ p10 == 0 /\ ~ p10 == p50 /\ ~ p50 == p90)
  /\ (exists mapped params,
        quantile_mapping g g = Ok (mapped, params)
        /\ ground_quantiles params = [p10; p50; p90]
        /\ tempo_quantiles params = [p10; p50; p90]
        /\ Forall2 (fun m x => exists v, m = Fin v /\ v == x) mapped g)
  /\ (forall x, x <= p10 ->
        exists v, map_value [p10; p50; p90] [p10; p50; p90] x = Ok (Fin v)
                  /\ Fin v = fmul (Fin p10) (fdiv (Fin x) (Fin p10)) /\ v == x)
  /\ (forall x, p10 < x -> x <= p90 ->
        exists v, map_value [p10; p50; p90] [p10; p50; p90] x = Ok (Fin v)
                  /\ np_interp x [p10; p50; p90] [p10; p50; p90] = Ok (Fin v) /\ v == x)
  /\ (forall x, p10 < x -> p90 < x ->
        exists v, map_value [p10; p50; p90] [p10; p50; p90] x = Ok (Fin v)
                  /\ Fin v = fadd (Fin p90)
                               (fmul (fdiv (Fin (p90 - p50)) (Fin (p90 - p50)))
                                     (Fin (x - p90)))
                  /\ v == x).
Proof.
  intros g p10 p50 p90.
  assert (H0 : ~ p10 == 0) by (intros H; discriminate H).
  assert (H12 : ~ p10 == p50) by (intros H; discriminate H).
  assert (H23 : ~ p50 == p90) by (intros H; discriminate H).
  split.
  - repeat split; try (vm_compute; reflexivity); assumption.
  - apply (quantile_mapping_round_trip g p10 p50 p90); try assumption;
      vm_compute; reflexivity.
Defined.

End Quantile.

(* ================================================================== *)
(** * 9. Permutation test ([permutation_test]) *)
(* ================================================================== *)

Module PermTest.
Import Np.
Local Open Scope Q_scope.

(** The dict returned by the test. *)
Record report : Type := {
  real_r2 : float;
  p_value : float;
  permuted_r2_mean : float;
  permuted_r2_std : float
}.

(** [np.sum(np.array(scores) >= threshold)]. *)
Definition count_ge (scores : list float) (threshold : float) : nat :=
  List.length (filter (fun r => fleb threshold r) scores).

(** [plt.hist(x, bins=50)]: the bin range is taken from the values that
    are not NaN; the call raises [ValueError] when that range is not
    finite, that is when an infinity is present or when the array is not
    empty and holds NaN only.  An empty array is drawn as an empty
    histogram. *)
Definition plt_hist (x : list float) : result unit :=
  if existsb isinf x then Raise ValueError
  else if negb (List.length x =? 0)%nat && forallb isnan x then Raise ValueError
  else Ok tt.

(** [np.std]. *)
Section WithSqrt.
Variable np_sqrt : float -> float.

Definition np_std (x : list float) : float := np_sqrt (np_var x).

Section WithGenerator.

(** The global numpy generator: its state, and [np.random.permutation],
    which returns a shuffled copy and advances the state. *)
Variable rng : Type.
Variable np_random_permutation : rng -> list float -> list float * rng.

(** The [for _ in range(n_permutations)] loop and the list it fills. *)
Fixpoint permuted_scores (n : nat) (state : rng) (ground tempo : list float)
  : result (list float * rng) :=
  match n with
  | O => Ok ([], state)
  | S n' =>
      let draw := np_random_permutation state ground in
      let ground_shuffled := fst draw in
      r2_perm <- r2_score ground_shuffled tempo ;;
      rest <- permuted_scores n' (snd draw) ground tempo ;;
      Ok (r2_perm :: fst rest, snd rest)
  end.

(** [permutation_test(ground, tempo, n_permutations)].  The histogram is
    drawn between the p-value and the [return]; of the figure only this
    call can fail on the data, and the directory the figure is saved to
    is taken to exist. *)
Definition permutation_test (ground tempo : list float) (n_permutations : nat)
    (state : rng) : result (report * rng) :=
  r2_real <- r2_score ground tempo ;;
  loop <- permuted_scores n_permutations state ground tempo ;;
  let r2_permuted := fst loop in
  let p := fdiv (of_nat (count_ge r2_permuted r2_real)) (of_nat n_permutations) in
  _ <- plt_hist r2_permuted ;;
  Ok ({| real_r2 := r2_real;
         p_value := p;
         permuted_r2_mean := np_mean r2_permuted;
         permuted_r2_std := np_std r2_permuted |},
      snd loop).

(** ** Facts about [permutation_test] *)

(** [np.random.permutation] returns a rearrangement of its argument. *)
Hypothesis np_random_permutation_spec :
  forall state l, Permutation (fst (np_random_permutation state l)) l.

Lemma finite_of_forall (l : list float) :
  Forall (fun f => isfinite f = true) l -> exists lq, l = map Fin lq.
Proof.
  induction 1 as [|f l Hf _ (lq & ->)].
  - now exists [].
  - apply isfinite_iff in Hf. destruct Hf as [q ->]. now exists (q :: lq).
Qed.

Lemma r2_score_of_shuffled (gq tq : list Q) (sh : list float) :
  gq <> [] -> List.length gq = List.length tq ->
  Permutation sh (map Fin gq) ->
  exists r, r2_score sh (map Fin tq) = Ok r.
Proof.
  intros Hne Hlen Hp.
  assert (HF : Forall (fun f => isfinite f = true) sh).
  { apply (Permutation_Forall (Permutation_sym Hp)). apply forall_finite_map_Fin. }
  destruct (finite_of_forall sh HF) as [sq ->].
  apply Permutation_length in Hp. rewrite !length_map in Hp.
  apply r2_score_returns; [congruence|].
  destruct sq; [|discriminate]. destruct gq; [easy|discriminate].
Qed.

(** The loop returns [n] scores, each the [r2_score] of a shuffled copy of
    the ground values against the satellite values as given. *)
Lemma permuted_scores_returns (gq tq : list Q) (n : nat) (state : rng) :
  gq <> [] -> List.length gq = List.length tq ->
  exists scores state',
    permuted_scores n state (map Fin gq) (map Fin tq) = Ok (scores, state')
    /\ List.length scores = n
    /\ Forall (fun r => exists sh, Permutation sh (map Fin gq)
                                   /\ r2_score sh (map Fin tq) = Ok r) scores.
Proof.
  intros Hne Hlen. revert state. induction n as [|n IH]; intros state; cbn [permuted_scores].
  - exists [], state. repeat split. constructor.
  - destruct (r2_score_of_shuffled gq tq _ Hne Hlen
                (np_random_permutation_spec state (map Fin gq))) as [r Hr].
    rewrite Hr. cbn [bind].
    destruct (IH (snd (np_random_permutation state (map Fin gq))))
      as (scores & state' & Hs & Hl & HF).
    rewrite Hs. cbn [bind fst snd].
    exists (r :: scores), state'. split; [reflexivity|]. split; [simpl; congruence|].
    constructor; [|exact HF].
    exists (fst (np_random_permutation state (map Fin gq))).
    split; [apply np_random_permutation_spec|exact Hr].
Qed.

Lemma count_ge_le (scores : list float) (threshold : float) :
  (count_ge scores threshold <= List.length scores)%nat.
Proof. unfold count_ge. apply filter_length_le. Qed.

(** A count out of [n > 0] is a fraction between 0 and 1. *)
Lemma fraction_bounds (c n : nat) :
  (0 < n)%nat -> (c <= n)%nat ->
  exists q, fdiv (of_nat c) (of_nat n) = Fin q
            /\ q == inject_Z (Z.of_nat c) / inject_Z (Z.of_nat n)
            /\ 0 <= q <= 1.
Proof.
  intros Hn Hc. unfold of_nat, fdiv.
  assert (Hpos : 0 < inject_Z (Z.of_nat n)).
  { change 0 with (inject_Z 0). rewrite <- Zlt_Qlt. lia. }
  destruct (Qeq_bool (inject_Z (Z.of_nat n)) 0) eqn:E.
  { apply Qeq_bool_iff in E. rewrite E in Hpos. now apply Qlt_irrefl in Hpos. }
  eexists. split; [reflexivity|]. split; [reflexivity|].
  assert (Hc0 : 0 <= inject_Z (Z.of_nat c)).
  { change 0 with (inject_Z 0). rewrite <- Zle_Qle. lia. }
  assert (Hcn : inject_Z (Z.of_nat c) <= inject_Z (Z.of_nat n)).
  { rewrite <- Zle_Qle. lia. }
  split.
  - apply Qle_shift_div_l; [exact Hpos|]. lra.
  - apply Qle_shift_div_r; [exact Hpos|]. lra.
Qed.

(** With two or more samples the score is a number, never NaN. *)
Lemma r2_score_number (t p : list float) (r : float) :
  (2 <= List.length t)%nat -> r2_score t p = Ok r -> isfinite r = true.
Proof.
  intros Hlen. unfold r2_score.
  destruct (finite_values t) as [tq|] eqn:Et; [|discriminate].
  destruct (finite_values p) as [pq|]; [|discriminate].
  apply finite_values_inv in Et. subst t. rewrite length_map in Hlen.
  destruct (negb (List.length tq =? List.length pq)%nat); [discriminate|].
  destruct (List.length tq =? 0)%nat; [discriminate|].
  replace (List.length tq <? 2)%nat with false by (symmetry; apply Nat.ltb_ge; lia).
  match goal with |- context [negb (Qeq_bool ?d 0)] => destruct (negb (Qeq_bool d 0)) end;
    [now intros [= <-]|].
  match goal with |- context [Qeq_bool ?d 0] => destruct (Qeq_bool d 0) end;
    now intros [= <-].
Qed.

(** The histogram of numbers is drawn. *)
Lemma plt_hist_numbers (x : list float) :
  Forall (fun f => isfinite f = true) x -> plt_hist x = Ok tt.
Proof.
  intros H. unfold plt_hist.
  assert (Hinf : existsb isinf x = false).
  { induction H as [|f x Hf _ IH]; simpl; [reflexivity|].
    rewrite IH. now destruct f. }
  rewrite Hinf.
  destruct H as [|f x Hf _]; [reflexivity|].
  simpl. now destruct f.
Qed.

(** C7 (amended).  On finite arrays of one length with two or more
    pairs, and with at least one permutation, the test returns; each
    resampled score is the [r2_score] of a shuffled copy of the ground
    values against the satellite values as given; the p-value is the
    number of resampled scores at or above the observed one, divided by
    the number of permutations, and lies in [0, 1]. *)
Theorem permutation_test_p_value (gq tq : list Q) (n_permutations : nat) (state : rng) :
  (2 <= List.length gq)%nat ->
  List.length gq = List.length tq ->
  (0 < n_permutations)%nat ->
  let ground := map Fin gq in
  let tempo := map Fin tq in
  exists rep state' scores,
    permutation_test ground tempo n_permutations state = Ok (rep, state')
    /\ r2_score ground tempo = Ok (real_r2 rep)
    /\ permuted_scores n_permutations state ground tempo = Ok (scores, state')
    /\ List.length scores = n_permutations
    /\ Forall (fun r => exists sh, Permutation sh ground /\ r2_score sh tempo = Ok r) scores
    /\ exists q,
         p_value rep = Fin q
         /\ q == inject_Z (Z.of_nat (count_ge scores (real_r2 rep)))
                 / inject_Z (Z.of_nat n_permutations)
         /\ 0 <= q <= 1.
Proof.
  intros Htwo Hlen HN ground tempo.
  assert (Hne : gq <> []) by (destruct gq; [simpl in Htwo; lia|discriminate]).
  destruct (r2_score_returns gq tq Hlen Hne) as [r Hr].
  destruct (permuted_scores_returns gq tq n_permutations state Hne Hlen)
    as (scores & state' & Hs & Hl & HF).
  assert (Hnum : Forall (fun f => isfinite f = true) scores).
  { apply Forall_forall. intros f Hf. rewrite Forall_forall in HF.
    destruct (HF f Hf) as (sh & Hp & Hsh).
    apply (r2_score_number sh (map Fin tq) f); [|exact Hsh].
    rewrite (Permutation_length Hp), length_map. exact Htwo. }
  unfold permutation_test. fold ground tempo in Hr, Hs, HF |- *.
  rewrite Hr, Hs. cbn [bind fst snd].
  rewrite (plt_hist_numbers scores Hnum). cbn [bind].
  eexists _, state', scores. split; [reflexivity|].
  cbn [real_r2 p_value]. split; [reflexivity|]. split; [reflexivity|].
  split; [exact Hl|]. split; [exact HF|].
  apply fraction_bounds; [exact HN|].
  rewrite <- Hl. apply count_ge_le.
Qed.

End WithGenerator.
End WithSqrt.

(** ** Concrete runs *)

(** A generator for concrete runs: the state counts the draws and each
    draw reverses the array. *)
Definition reversing_permutation (state : nat) (l : list float) : list float * nat :=
  (rev l, S state).

Lemma reversing_permutation_spec (state : nat) (l : list float) :
  Permutation (fst (reversing_permutation state l)) l.
Proof. simpl. apply Permutation_sym, Permutation_rev. Qed.

(** Counterexample to C7: with zero permutations the p-value is
    [0 / 0 = NaN], which is not in [0, 1]; on empty arrays the test
    raises and there is no p-value; and on a single pair every score is
    NaN, the histogram cannot be drawn and the test raises as well. *)
Lemma zero_permutations_give_nan :
  (exists rep state',
      permutation_test sqrt_on_squares nat reversing_permutation
        [Fin 1; Fin 2; Fin 3] [Fin 1; Fin 2; Fin 4] 0 0%nat = Ok (rep, state')
      /\ p_value rep = NaN
      /\ fleb (Fin 0) (p_value rep) = false)
  /\ permutation_test sqrt_on_squares nat reversing_permutation [] [] 1000 0%nat
     = Raise ValueError
  /\ permutation_test sqrt_on_squares nat reversing_permutation [Fin 5] [Fin 5] 2 0%nat
     = Raise ValueError.
Proof.
  split; [|split].
  - eexists _, _. split; [vm_compute; reflexivity|]. split; reflexivity.
  - reflexivity.
  - vm_compute. reflexivity.
Qed.

(** Witness of C7 (amended): three pairs, two permutations. *)
Lemma permutation_test_p_value_witness :
  let gq := [1; 2; 3] in
  let tq := [1; 2; 4] in
  let ground := map Fin gq in
  let tempo := map Fin tq in
  (2 <= List.length gq)%nat /\ List.length gq = List.length tq /\ (0 < 2)%nat
  /\ exists rep state' scores,
       permutation_test sqrt_on_squares nat reversing_permutation ground tempo 2 0%nat
       = Ok (rep, state')
       /\ r2_score ground tempo = Ok (real_r2 rep)
       /\ permuted_scores nat reversing_permutation 2 0%nat ground tempo
          = Ok (scores, state')
       /\ List.length scores = 2%nat
       /\ Forall (fun r => exists sh, Permutation sh ground /\ r2_score sh tempo = Ok r)
                 scores
       /\ exists q,
            p_value rep = Fin q
            /\ q == inject_Z (Z.of_nat (count_ge scores (real_r2 rep))) / inject_Z (Z.of_nat 2)
            /\ 0 <= q <= 1.
Proof.
  intros gq tq ground tempo.
  split; [simpl; lia|]. split; [reflexivity|]. split; [lia|].
  apply (permutation_test_p_value sqrt_on_squares nat reversing_permutation
           reversing_permutation_spec gq tq 2 0%nat).
  - simpl. lia.
  - reflexivity.
  - lia.
Defined.

End PermTest.

(* ================================================================== *)
(** * 10. Leave-one-city-out validation ([loco_validation]) *)
(* ================================================================== *)

Module Loco.
Import Np Deming.
Local Open Scope Q_scope.

(** The columns of the matched-pairs frame the harness reads. *)
Record MatchedRow : Type := {
  city : string;
  ground_value : float;
  tempo_value : float
}.

(** One entry of [loco_results]. *)
Record loco_result : Type := {
  n_train : nat;
  n_test : nat;
  r2_train : float;
  r2_test : float;
  rmse_raw : float;
  rmse_calibrated : float;
  rmse_improvement : float;
  mae_test : float;
  bias_test : float;
  calibration_slope : float;
  calibration_intercept : float
}.

(** [sklearn.metrics.mean_squared_error] and [mean_absolute_error]:
    [ValueError] on empty, mismatched or non-finite input. *)
Definition mean_error (err : Q -> Q -> Q) (y_true y_pred : list float) : result float :=
  match finite_values y_true, finite_values y_pred with
  | Some t, Some p =>
      if negb (List.length t =? List.length p)%nat then Raise ValueError
      else if (List.length t =? 0)%nat then Raise ValueError
      else Ok (Fin (Qsum (zip_with err t p) / Qlen t))
  | _, _ => Raise ValueError
  end.

Definition mean_squared_error : list float -> list float -> result float :=
  mean_error (fun a b => (a - b) * (a - b)).

Definition mean_absolute_error : list float -> list float -> result float :=
  mean_error (fun a b => Qabs (a - b)).

(** [Series.unique()]: distinct values in order of first appearance. *)
Fixpoint unique (l : list string) : list string :=
  match l with
  | [] => []
  | x :: l' => x :: filter (fun y => negb (String.eqb y x)) (unique l')
  end.

Definition train_of (matched_data : list MatchedRow) (test_city : string) : list MatchedRow :=
  filter (fun r => negb (String.eqb (city r) test_city)) matched_data.

Definition test_of (matched_data : list MatchedRow) (test_city : string) : list MatchedRow :=
  filter (fun r => String.eqb (city r) test_city) matched_data.

Section WithLibraries.

Variable np_sqrt : float -> float.
Variable minimize : (float * float -> float) -> float * float -> result (float * float).

(** The body of the loop for one held-out city: [Ok []] is the
    [continue], a singleton the entry stored under the city. *)
Definition loco_city (matched_data : list MatchedRow) (test_city : string)
  : result (list (string * loco_result)) :=
  let train_data := train_of matched_data test_city in
  let test_data := test_of matched_data test_city in
  if (List.length train_data <? 10)%nat || (List.length test_data <? 5)%nat then Ok []
  else
    let train_ground := map ground_value train_data in
    let train_tempo := map tempo_value train_data in
    fitted <- snd (deming_regression minimize train_ground train_tempo None) ;;
    let test_ground := map ground_value test_data in
    let test_tempo := map tempo_value test_data in
    let test_tempo_calibrated := line (slope fitted) (intercept fitted) test_tempo in
    mse_raw <- mean_squared_error test_ground test_tempo ;;
    let rmse_raw_v := np_sqrt mse_raw in
    mse_calibrated <- mean_squared_error test_ground test_tempo_calibrated ;;
    let rmse_calibrated_v := np_sqrt mse_calibrated in
    let rmse_improvement_v :=
      fmul (fdiv (fsub rmse_raw_v rmse_calibrated_v) rmse_raw_v) (Fin 100) in
    others <-
      try_except
        (r2_test_v <- r2_score test_ground test_tempo_calibrated ;;
         mae_test_v <- mean_absolute_error test_ground test_tempo_calibrated ;;
         Ok (r2_test_v, mae_test_v,
             np_mean (zip_with fsub test_tempo_calibrated test_ground)))
        (Ok (Fin 0, Fin 0, Fin 0)) ;;
    Ok [(test_city,
         {| n_train := List.length train_data;
            n_test := List.length test_data;
            r2_train := r2 fitted;
            r2_test := fst (fst others);
            rmse_raw := rmse_raw_v;
            rmse_calibrated := rmse_calibrated_v;
            rmse_improvement := rmse_improvement_v;
            mae_test := snd (fst others);
            bias_test := snd others;
            calibration_slope := slope fitted;
            calibration_intercept := intercept fitted |})].

(** [loco_validation(matched_data)]: the dict, in insertion order. *)
Definition loco_validation (matched_data : list MatchedRow)
  : result (list (string * loco_result)) :=
  let cities := unique (map city matched_data) in
  for_each (loco_city matched_data) cities.

(** ** Facts about [loco_validation] *)

Lemma unique_In (l : list string) (c : string) : In c (unique l) -> In c l.
Proof.
  induction l as [|x l IH]; simpl; [easy|].
  intros [->|H]; [now left|].
  apply filter_In in H. right. apply IH. tauto.
Qed.

(** What an evaluated city stores. *)
Lemma loco_city_entry (matched_data : list MatchedRow) (test_city : string)
    (o : list (string * loco_result)) (c : string) (r : loco_result) :
  loco_city matched_data test_city = Ok o ->
  In (c, r) o ->
  c = test_city
  /\ (10 <= List.length (train_of matched_data c))%nat
  /\ (5 <= List.length (test_of matched_data c))%nat
  /\ n_train r = List.length (train_of matched_data c)
  /\ n_test r = List.length (test_of matched_data c)
  /\ rmse_improvement r
     = fmul (fdiv (fsub (rmse_raw r) (rmse_calibrated r)) (rmse_raw r)) (Fin 100)
  /\ exists fitted m_raw m_cal,
       snd (deming_regression minimize
              (map ground_value (train_of matched_data c))
              (map tempo_value (train_of matched_data c)) None) = Ok fitted
       /\ mean_squared_error (map ground_value (test_of matched_data c))
                             (map tempo_value (test_of matched_data c)) = Ok m_raw
       /\ rmse_raw r = np_sqrt m_raw
       /\ mean_squared_error (map ground_value (test_of matched_data c))
                             (line (slope fitted) (intercept fitted)
                                   (map tempo_value (test_of matched_data c))) = Ok m_cal
       /\ rmse_calibrated r = np_sqrt m_cal.
Proof.
  unfold loco_city.
  destruct ((List.length (train_of matched_data test_city) <? 10)%nat
            || (List.length (test_of matched_data test_city) <? 5)%nat) eqn:Hskip.
  { intros [= <-] []. }
  apply orb_false_iff in Hskip. destruct Hskip as [Htr Hte].
  apply Nat.ltb_ge in Htr. apply Nat.ltb_ge in Hte.
  destruct (snd (deming_regression minimize
                   (map ground_value (train_of matched_data test_city))
                   (map tempo_value (train_of matched_data test_city)) None))
    as [fitted|e] eqn:Hfit; cbn [bind]; [|discriminate].
  destruct (mean_squared_error (map ground_value (test_of matched_data test_city))
                               (map tempo_value (test_of matched_data test_city)))
    as [m_raw|e] eqn:Hraw; cbn [bind]; [|discriminate].
  destruct (mean_squared_error (map ground_value (test_of matched_data test_city))
              (line (slope fitted) (intercept fitted)
                    (map tempo_value (test_of matched_data test_city))))
    as [m_cal|e] eqn:Hcal; cbn [bind]; [|discriminate].
  match goal with
  | |- context [try_except ?b ?h] => destruct (try_except b h) as [others|e]
  end; cbn [bind]; [|discriminate].
  intros [= <-] [[= <- <-]|[]].
  cbn [n_train n_test rmse_improvement rmse_raw rmse_calibrated].
  repeat (split; [first [reflexivity|assumption]|]).
  exists fitted, m_raw, m_cal. auto.
Qed.

(** A row whose two values are numbers. *)
Definition finite_row (r : MatchedRow) : Prop :=
  isfinite (ground_value r) = true /\ isfinite (tempo_value r) = true.

(** The optimizer, started at a finite point, stops at a finite point
    when it returns. *)
Definition finite_optimizer : Prop :=
  forall f p0 p,
    minimize f p0 = Ok p ->
    isfinite (fst p0) = true -> isfinite (snd p0) = true ->
    isfinite (fst p) = true /\ isfinite (snd p) = true.

Lemma finite_columns (rows : list MatchedRow) :
  Forall finite_row rows ->
  exists gq tq,
    map ground_value rows = map Fin gq /\ map tempo_value rows = map Fin tq
    /\ List.length gq = List.length rows /\ List.length tq = List.length rows.
Proof.
  induction 1 as [|r rows [Hg Ht] _ (gq & tq & Eg & Et & Lg & Lt)].
  - exists [], []. now repeat split.
  - apply isfinite_iff in Hg. destruct Hg as [g Hg].
    apply isfinite_iff in Ht. destruct Ht as [t Ht].
    exists (g :: gq), (t :: tq). simpl. rewrite Hg, Ht, Eg, Et, Lg, Lt. now repeat split.
Qed.

Lemma mean_error_returns (err : Q -> Q -> Q) (t p : list Q) :
  List.length t = List.length p -> t <> [] ->
  exists m, mean_error err (map Fin t) (map Fin p) = Ok m.
Proof.
  intros Hlen Hne. unfold mean_error. rewrite !finite_values_map_Fin.
  rewrite <- Hlen, Nat.eqb_refl. simpl negb. cbv iota.
  destruct t as [|a t]; [easy|]. cbn [List.length Nat.eqb]. eauto.
Qed.

(** The fit handed back for the training cities has a finite slope and a
    finite intercept. *)
Lemma deming_fit_finite (x y : list float) (fitted : fit) :
  finite_optimizer ->
  snd (deming_regression minimize x y None) = Ok fitted ->
  isfinite (slope fitted) = true /\ isfinite (intercept fitted) = true.
Proof.
  intros Hopt. destruct (degenerate x y) eqn:Hd.
  { rewrite (deming_regression_degenerate minimize x y None Hd). intros [= <-].
    cbn [slope intercept]. unfold fallback_triple. cbv zeta.
    destruct (List.length (select x (clean_mask x y)) <? 2)%nat; [now split|].
    destruct (np_polyfit1 _ _) as [[s i]|e] eqn:E; [|now split].
    destruct (np_polyfit1_finite _ _ s i E) as (qs & qi & -> & ->).
    destruct (r2_score _ _); now split. }
  unfold deming_regression. rewrite Hd.
  set (lam := np_clip _ _ _).
  set (ols_log := match np_polyfit1 x y with
                  | Ok p => (p, _)
                  | Raise _ => _
                  end).
  assert (Hols : isfinite (fst (fst ols_log)) = true /\ isfinite (snd (fst ols_log)) = true).
  { subst ols_log. destruct (np_polyfit1 x y) as [[s i]|e] eqn:E; cbn [fst snd].
    - destruct (np_polyfit1_finite x y s i E) as (qs & qi & -> & ->). now split.
    - now split. }
  destruct Hols as [Hs Hi].
  destruct (minimize (objective x y lam) (fst (fst ols_log), snd (fst ols_log)))
    as [[sd id]|e] eqn:Hm.
  - cbn [snd]. intros [= <-]. cbn [slope intercept].
    exact (Hopt _ _ _ Hm Hs Hi).
  - cbn [snd].
    destruct (r2_score y (line (fst (fst ols_log)) (snd (fst ols_log)) x)) as [r|e'];
      cbn [bind]; [|discriminate].
    intros [= <-]. now split.
Qed.

(** A city with at least 10 training and 5 test pairs, all finite, is
    evaluated: the loop body stores an entry under its name. *)
Lemma loco_city_evaluated (matched_data : list MatchedRow) (c : string) :
  finite_optimizer ->
  Forall finite_row matched_data ->
  (10 <= List.length (train_of matched_data c))%nat ->
  (5 <= List.length (test_of matched_data c))%nat ->
  exists r, loco_city matched_data c = Ok [(c, r)].
Proof.
  intros Hopt Hfin Htr Hte. unfold loco_city.
  replace ((List.length (train_of matched_data c) <? 10)%nat
           || (List.length (test_of matched_data c) <? 5)%nat) with false.
  2:{ symmetry. apply orb_false_iff. split; apply Nat.ltb_ge; assumption. }
  assert (Hftr : Forall finite_row (train_of matched_data c)).
  { apply Forall_forall. intros r Hr. apply filter_In in Hr.
    rewrite Forall_forall in Hfin. now apply Hfin. }
  assert (Hfte : Forall finite_row (test_of matched_data c)).
  { apply Forall_forall. intros r Hr. apply filter_In in Hr.
    rewrite Forall_forall in Hfin. now apply Hfin. }
  destruct (finite_columns _ Hftr) as (trg & trt & Etg & Ett & Ltg & Ltt).
  destruct (finite_columns _ Hfte) as (teg & tet & Eeg & Eet & Leg & Let).
  destruct (deming_regression_returns minimize
              (map ground_value (train_of matched_data c))
              (map tempo_value (train_of matched_data c)) None) as [fitted Hfit].
  { now rewrite !length_map. }
  { intros Hnil. apply (f_equal (@List.length float)) in Hnil.
    rewrite length_map in Hnil. simpl in Hnil. lia. }
  rewrite Hfit. cbn [bind].
  destruct (deming_fit_finite _ _ _ Hopt Hfit) as [Hs Hi].
  apply isfinite_iff in Hs. destruct Hs as [qs Hs].
  apply isfinite_iff in Hi. destruct Hi as [qi Hi].
  rewrite Hs, Hi, Eeg, Eet, line_finite.
  assert (Hne : teg <> []) by (destruct teg; [simpl in Leg; lia|discriminate]).
  destruct (mean_error_returns (fun a b => (a - b) * (a - b)) teg tet) as [m_raw Hraw];
    [congruence|exact Hne|].
  destruct (mean_error_returns (fun a b => (a - b) * (a - b)) teg
              (map (fun v => qs * v + qi) tet)) as [m_cal Hcal];
    [rewrite length_map; congruence|exact Hne|].
  unfold mean_squared_error. rewrite Hraw. cbn [bind]. rewrite Hcal. cbn [bind].
  match goal with
  | |- context [try_except ?b ?h] => destruct (try_except b h) as [others|e] eqn:Etry
  end.
  - cbn [bind]. eauto.
  - exfalso. unfold try_except in Etry.
    match type of Etry with
    | match ?b with _ => _ end = _ => destruct b; discriminate Etry
    end.
Qed.

Lemma cities_complete (l : list string) (c : string) : In c l -> In c (unique l).
Proof.
  induction l as [|x l IH]; simpl; [easy|].
  intros [->|H]; [now left|].
  destruct (String.eqb c x) eqn:E.
  - apply String.eqb_eq in E. now left.
  - right. apply filter_In. split; [now apply IH|]. now rewrite E.
Qed.

(** The loop body never raises on finite data. *)
Lemma loco_city_returns (matched_data : list MatchedRow) (c : string) :
  finite_optimizer ->
  Forall finite_row matched_data ->
  exists o, loco_city matched_data c = Ok o
            /\ ((10 <= List.length (train_of matched_data c))%nat ->
                (5 <= List.length (test_of matched_data c))%nat ->
                exists r, o = [(c, r)]).
Proof.
  intros Hopt Hfin.
  destruct (Nat.ltb_spec (List.length (train_of matched_data c)) 10) as [Htr|Htr].
  { exists []. split; [|lia]. unfold loco_city.
    apply Nat.ltb_lt in Htr. now rewrite Htr. }
  destruct (Nat.ltb_spec (List.length (test_of matched_data c)) 5) as [Hte|Hte].
  { exists []. split; [|lia]. unfold loco_city.
    apply Nat.ltb_lt in Hte. rewrite Hte. now rewrite orb_true_r. }
  destruct (loco_city_evaluated matched_data c Hopt Hfin Htr Hte) as [r Hr].
  exists [(c, r)]. split; [exact Hr|]. eauto.
Qed.

Lemma for_each_returns {A B : Type} (f : A -> result (list B)) (l : list A) :
  (forall a, In a l -> exists o, f a = Ok o) ->
  exists out, for_each f l = Ok out
              /\ forall a o, In a l -> f a = Ok o -> incl o out.
Proof.
  induction l as [|a l IH]; intros H; simpl.
  - exists []. split; [reflexivity|]. intros a o [].
  - destruct (H a (or_introl eq_refl)) as [o Ho]. rewrite Ho. cbn [bind].
    destruct IH as (rest & Hrest & Hincl).
    { intros b Hb. apply H. now right. }
    rewrite Hrest. cbn [bind]. exists (o ++ rest). split; [reflexivity|].
    intros b ob [<-|Hb] Hob x Hx.
    + rewrite Ho in Hob. injection Hob as <-. apply in_or_app. now left.
    + apply in_or_app. right. exact (Hincl b ob Hb Hob x Hx).
Qed.

(** C8.  A city whose training set has fewer than 10 pairs or whose test
    set has fewer than 5 pairs is skipped without error and has no entry
    in the result; every entry of the result belongs to a city with at
    least 10 training and 5 test pairs and reports
    [(rmse_raw - rmse_calibrated) / rmse_raw * 100], with both RMSE the
    square roots of the mean squared errors of the held-out city before
    and after the calibration fit on the other cities; and on finite
    data, with an optimizer that stays finite, the validation returns and
    every city of the frame with at least 10 training and 5 test pairs
    is evaluated and has an entry. *)
Theorem loco_skips_small_groups_and_reports_improvement (matched_data : list MatchedRow) :
  (forall test_city,
      (List.length (train_of matched_data test_city) < 10)%nat
      \/ (List.length (test_of matched_data test_city) < 5)%nat ->
      loco_city matched_data test_city = Ok []
      /\ forall results r,
           loco_validation matched_data = Ok results -> ~ In (test_city, r) results)
  /\ (forall results c r,
        loco_validation matched_data = Ok results ->
        In (c, r) results ->
        In c (map city matched_data)
        /\ (10 <= List.length (train_of matched_data c))%nat
        /\ (5 <= List.length (test_of matched_data c))%nat
        /\ rmse_improvement r
           = fmul (fdiv (fsub (rmse_raw r) (rmse_calibrated r)) (rmse_raw r)) (Fin 100)
        /\ exists fitted m_raw m_cal,
             snd (deming_regression minimize
                    (map ground_value (train_of matched_data c))
                    (map tempo_value (train_of matched_data c)) None) = Ok fitted
             /\ mean_squared_error (map ground_value (test_of matched_data c))
                                   (map tempo_value (test_of matched_data c)) = Ok m_raw
             /\ rmse_raw r = np_sqrt m_raw
             /\ mean_squared_error (map ground_value (test_of matched_data c))
                                   (line (slope fitted) (intercept fitted)
                                         (map tempo_value (test_of matched_data c)))
                = Ok m_cal
             /\ rmse_calibrated r = np_sqrt m_cal)
  /\ (finite_optimizer ->
      Forall finite_row matched_data ->
      exists results,
        loco_validation matched_data = Ok results
        /\ forall c,
             In c (map city matched_data) ->
             (10 <= List.length (train_of matched_data c))%nat ->
             (5 <= List.length (test_of matched_data c))%nat ->
             exists r,
               In (c, r) results
               /\ n_train r = List.length (train_of matched_data c)
               /\ n_test r = List.length (test_of matched_data c)
               /\ rmse_improvement r
                  = fmul (fdiv (fsub (rmse_raw r) (rmse_calibrated r)) (rmse_raw r))
                         (Fin 100)).
Proof.
  assert (Hentry : forall results c r,
             loco_validation matched_data = Ok results ->
             In (c, r) results ->
             exists test_city o,
               In test_city (unique (map city matched_data))
               /\ loco_city matched_data test_city = Ok o /\ In (c, r) o).
  { intros results c r Hres Hin. unfold loco_validation in Hres.
    exact (for_each_In _ _ _ _ Hres Hin). }
  split; [|split].
  - intros test_city Hsmall. split.
    + unfold loco_city.
      replace ((List.length (train_of matched_data test_city) <? 10)%nat
               || (List.length (test_of matched_data test_city) <? 5)%nat) with true;
        [reflexivity|].
      symmetry. apply orb_true_iff.
      destruct Hsmall as [H|H]; [left|right]; now apply Nat.ltb_lt.
    + intros results r Hres Hin.
      destruct (Hentry results test_city r Hres Hin) as (tc & o & _ & Ho & Hio).
      destruct (loco_city_entry matched_data tc o test_city r Ho Hio)
        as (_ & Htr & Hte & _).
      lia.
  - intros results c r Hres Hin.
    destruct (Hentry results c r Hres Hin) as (tc & o & Htc & Ho & Hio).
    destruct (loco_city_entry matched_data tc o c r Ho Hio)
      as (-> & Htr & Hte & _ & _ & Himp & Hrest).
    split; [now apply unique_In|]. auto.
  - intros Hopt Hfin.
    destruct (for_each_returns (loco_city matched_data) (unique (map city matched_data)))
      as (results & Hres & Hincl).
    { intros c _. destruct (loco_city_returns matched_data c Hopt Hfin) as (o & Ho & _).
      eauto. }
    exists results. split; [exact Hres|].
    intros c Hc Htr Hte.
    destruct (loco_city_evaluated matched_data c Hopt Hfin Htr Hte) as [r Hr].
    exists r.
    assert (Hin : In (c, r) results).
    { apply (Hincl c [(c, r)] (cities_complete _ _ Hc) Hr). now left. }
    split; [exact Hin|].
    destruct (loco_city_entry matched_data c [(c, r)] c r Hr (or_introl eq_refl))
      as (_ & _ & _ & Hntr & Hnte & Himp & _).
    auto.
Qed.

End WithLibraries.

(** ** A concrete run *)

Definition row (c : string) (g t : Q) : MatchedRow :=
  {| city := c; ground_value := Fin g; tempo_value := Fin t |}.

(** Ten pairs in Toronto and five in Boston; the satellite reads 2 above
    the ground everywhere. *)
Definition sample_pairs : list MatchedRow :=
  map (fun g => row "Toronto" g (g + 2)) [1; 2; 3; 4; 5; 6; 7; 8; 9; 10]
  ++ map (fun g => row "Boston" g (g + 2)) [3; 4; 5; 6; 7].

(** Boston is evaluated against the ten Toronto pairs: the fit is
    [tempo = ground + 2], applying it to the satellite values doubles the
    error, and the improvement reported is [(2 - 4) / 2 * 100 = -100].
    Toronto, with only five training pairs left, has no entry. *)
Lemma loco_sample_run :
  exists r,
    loco_validation sqrt_on_squares minimize_at_start sample_pairs = Ok [("Boston"%string, r)]
    /\ n_train r = 10%nat /\ n_test r = 5%nat
    /\ rmse_raw r = Fin 2 /\ rmse_calibrated r = Fin 4
    /\ feqb (rmse_improvement r) (Fin (-100)) = true.
Proof.
  eexists. split; [vm_compute; reflexivity|].
  repeat split; vm_compute; reflexivity.
Qed.

Lemma minimize_at_start_finite : finite_optimizer minimize_at_start.
Proof. intros f p0 p [= <-] Hs Hi. now split. Qed.

Lemma sample_pairs_finite : Forall finite_row sample_pairs.
Proof. repeat constructor. Qed.

(** Witness of C8 on the concrete run: Toronto, left with five training
    pairs, is skipped; Boston, with exactly ten training and five test
    pairs, is evaluated and has an entry. *)
Lemma loco_skips_small_groups_witness :
  (((List.length (train_of sample_pairs "Toronto") < 10)%nat
    \/ (List.length (test_of sample_pairs "Toronto") < 5)%nat)
   /\ loco_city sqrt_on_squares minimize_at_start sample_pairs "Toronto" = Ok []
   /\ forall results r,
        loco_validation sqrt_on_squares minimize_at_start sample_pairs = Ok results ->
        ~ In ("Toronto"%string, r) results)
  /\ In "Boston"%string (map city sample_pairs)
  /\ List.length (train_of sample_pairs "Boston") = 10%nat
  /\ List.length (test_of sample_pairs "Boston") = 5%nat
  /\ exists results,
       loco_validation sqrt_on_squares minimize_at_start sample_pairs = Ok results
       /\ exists r,
            In ("Boston"%string, r) results
            /\ n_train r = 10%nat
            /\ n_test r = 5%nat
            /\ rmse_improvement r
               = fmul (fdiv (fsub (rmse_raw r) (rmse_calibrated r)) (rmse_raw r)) (Fin 100).
Proof.
  assert (H : (List.length (train_of sample_pairs "Toronto") < 10)%nat
              \/ (List.length (test_of sample_pairs "Toronto") < 5)%nat).
  { left. vm_compute. lia. }
  assert (HB : In "Boston"%string (map city sample_pairs)).
  { vm_compute. do 10 right. now left. }
  assert (Htr : List.length (train_of sample_pairs "Boston") = 10%nat) by reflexivity.
  assert (Hte : List.length (test_of sample_pairs "Boston") = 5%nat) by reflexivity.
  split; [split; [exact H|]|].
  - exact (proj1 (loco_skips_small_groups_and_reports_improvement
                    sqrt_on_squares minimize_at_start sample_pairs) "Toronto"%string H).
  - split; [exact HB|]. split; [exact Htr|]. split; [exact Hte|].
    destruct (proj2 (proj2 (loco_skips_small_groups_and_reports_improvement
                              sqrt_on_squares minimize_at_start sample_pairs))
                minimize_at_start_finite sample_pairs_finite) as (results & Hres & Hall).
    exists results. split; [exact Hres|].
    destruct (Hall "Boston"%string HB) as (r & Hin & Hntr & Hnte & Himp).
    + rewrite Htr. lia.
    + rewrite Hte. lia.
    + exists r. rewrite Hntr, Hnte, Htr, Hte. auto.
Defined.

End Loco.

(* ================================================================== *)
(** * 11. Further facts: the geodistance primitive *)
(* ================================================================== *)

Module GeoFacts.
Import Geo.
Local Open Scope R_scope.

Lemma asin_nonneg (x : R) : 0 <= x -> 0 <= asin x.
Proof.
  intros Hx. pose proof PI_RGT_0 as Hpi. unfold asin.
  destruct (Rle_dec x (-1)) as [H|_]; [lra|].
  destruct (Rle_dec 1 x) as [_|H1]; [lra|].
  assert (Hs : 0 < sqrt (1 - x²)).
  { apply sqrt_lt_R0. unfold Rsqr. nra. }
  assert (Hq : 0 <= x / sqrt (1 - x²)).
  { apply Rmult_le_pos; [exact Hx|]. left. now apply Rinv_0_lt_compat. }
  destruct Hq as [Hq|Hq].
  - left. rewrite <- atan_0. now apply atan_increasing.
  - rewrite <- Hq, atan_0. lra.
Qed.

Lemma haversine_distance_nonneg (lat1 lon1 lat2 lon2 : R) :
  0 <= haversine_distance lat1 lon1 lat2 lon2.
Proof.
  unfold haversine_distance.
  match goal with |- 0 <= 6371 * (2 * asin (sqrt ?a)) =>
    pose proof (asin_nonneg (sqrt a) (sqrt_pos a)) end.
  lra.
Qed.

(** X1.  The distance is never negative and never exceeds half the
    circumference of the sphere of radius 6371 km. *)
Theorem haversine_distance_bounds (lat1 lon1 lat2 lon2 : R) :
  0 <= haversine_distance lat1 lon1 lat2 lon2 <= 6371 * PI.
Proof.
  unfold haversine_distance.
  set (a := sin ((radians lat2 - radians lat1) / 2) ^ 2
            + cos (radians lat1) * cos (radians lat2)
              * sin ((radians lon2 - radians lon1) / 2) ^ 2).
  pose proof (asin_nonneg (sqrt a) (sqrt_pos a)) as Hlo.
  pose proof (asin_bound (sqrt a)) as [_ Hhi].
  split; lra.
Qed.

Lemma sin_sqr_shift_PI (x : R) : sin (x - PI) ^ 2 = sin x ^ 2.
Proof.
  replace x with ((x - PI) + PI) at 2 by ring.
  rewrite neg_sin. ring.
Qed.

(** X2.  Longitudes that differ by a full turn denote the same meridian: the
    distance does not change when 360 degrees are added to a longitude. *)
Theorem haversine_distance_full_turn (lat1 lon1 lat2 lon2 : R) :
  haversine_distance lat1 (lon1 + 360) lat2 lon2
  = haversine_distance lat1 lon1 lat2 lon2
  /\ haversine_distance lat1 lon1 lat2 (lon2 + 360)
     = haversine_distance lat1 lon1 lat2 lon2.
Proof.
  split.
  - unfold haversine_distance, radians.
    replace ((lon2 * PI / 180 - (lon1 + 360) * PI / 180) / 2)
      with ((lon2 * PI / 180 - lon1 * PI / 180) / 2 - PI) by field.
    now rewrite sin_sqr_shift_PI.
  - rewrite (haversine_distance_sym lat1 lon1 lat2 (lon2 + 360)).
    rewrite (haversine_distance_sym lat1 lon1 lat2 lon2).
    unfold haversine_distance, radians.
    replace ((lon1 * PI / 180 - (lon2 + 360) * PI / 180) / 2)
      with ((lon1 * PI / 180 - lon2 * PI / 180) / 2 - PI) by field.
    now rewrite sin_sqr_shift_PI.
Qed.

End GeoFacts.

(* ================================================================== *)
(** * 12. Further facts: grouping rows by a key *)
(* ================================================================== *)

Module Grouping.

Lemma NoDup_filter_eqb_length (x : string) (ks : list string) :
  NoDup ks -> (List.length (filter (fun k => String.eqb x k) ks) <= 1)%nat.
Proof.
  induction 1 as [|k ks Hk Hnd IH]; simpl; [lia|].
  destruct (String.eqb x k) eqn:E; [|exact IH].
  apply String.eqb_eq in E. subst k.
  destruct (filter (fun k => String.eqb x k) ks) as [|k' rest] eqn:F; [simpl; lia|].
  exfalso. apply Hk.
  assert (Hin : In k' (filter (fun k => String.eqb x k) ks)) by (rewrite F; now left).
  apply filter_In in Hin. destruct Hin as [Hin Heq].
  apply String.eqb_eq in Heq. now subst k'.
Qed.

Lemma flat_map_filter_cons {A : Type} (key : A -> string) (e : A) (l : list A)
    (ks : list string) :
  List.length (flat_map (fun k => filter (fun e0 => String.eqb (key e0) k) (e :: l)) ks)
  = (List.length (filter (fun k => String.eqb (key e) k) ks)
     + List.length (flat_map (fun k => filter (fun e0 => String.eqb (key e0) k) l) ks))%nat.
Proof.
  induction ks as [|k ks IH]; [reflexivity|].
  cbn [flat_map]. rewrite !length_app, IH. cbn [filter].
  destruct (String.eqb (key e) k); simpl; lia.
Qed.

(** Rows selected by distinct keys do not outnumber the rows. *)
Lemma partition_length_le {A : Type} (key : A -> string) (l : list A) (ks : list string) :
  NoDup ks ->
  (List.length (flat_map (fun k => filter (fun e => String.eqb (key e) k) l) ks)
   <= List.length l)%nat.
Proof.
  intros Hnd. induction l as [|e l IH].
  - induction ks as [|k ks IHk]; simpl; [lia|].
    apply IHk. now inversion Hnd.
  - rewrite flat_map_filter_cons.
    pose proof (NoDup_filter_eqb_length (key e) ks Hnd). simpl. lia.
Qed.

Lemma flat_map_length_bound {A B C : Type} (f : A -> list B) (g : A -> list C) (l : list A) :
  (forall a, In a l -> (List.length (f a) <= List.length (g a))%nat) ->
  (List.length (flat_map f l) <= List.length (flat_map g l))%nat.
Proof.
  induction l as [|a l IH]; intros H; simpl; [lia|].
  rewrite !length_app.
  pose proof (H a (or_introl eq_refl)).
  pose proof (IH (fun b Hb => H b (or_intror Hb))). lia.
Qed.

End Grouping.

(* ================================================================== *)
(** * 13. Further facts: the configurable matcher *)
(* ================================================================== *)

Module ScientificFacts.
Import Pandas Scientific Grouping.
Local Open Scope R_scope.

(** ** The groups of [groupby('city')] *)

Definition key_lt : string -> string -> Prop := OrderedTypeEx.String_as_OT.lt.

Lemma compare_Lt_iff (a b : string) : String.compare a b = Lt <-> key_lt a b.
Proof. apply OrderedTypeEx.String_as_OT.cmp_lt. Qed.

Lemma compare_Gt_lt (a b : string) : String.compare a b = Gt -> key_lt b a.
Proof.
  intros H. apply compare_Lt_iff. rewrite String.compare_antisym, H. reflexivity.
Qed.

Lemma insert_key_In (k x : string) (ks : list string) :
  In x (insert_key k ks) <-> x = k \/ In x ks.
Proof.
  induction ks as [|k' ks IH]; simpl.
  - split; [intros [<-|[]]; auto|intros [->|[]]; auto].
  - destruct (String.compare k k') eqn:E; simpl.
    + apply String.compare_eq_iff in E. subst. intuition (subst; auto).
    + intuition (subst; auto).
    + rewrite IH. intuition (subst; auto).
Qed.

Lemma insert_key_sorted (k : string) (ks : list string) :
  StronglySorted key_lt ks -> StronglySorted key_lt (insert_key k ks).
Proof.
  induction 1 as [|k' ks Hs IH Hall]; simpl.
  - repeat constructor.
  - destruct (String.compare k k') eqn:E.
    + now constructor.
    + apply compare_Lt_iff in E. constructor; [now constructor|].
      constructor; [exact E|].
      rewrite Forall_forall in Hall |- *. intros x Hx.
      exact (OrderedTypeEx.String_as_OT.lt_trans _ _ _ E (Hall x Hx)).
    + apply compare_Gt_lt in E. constructor; [exact IH|].
      rewrite Forall_forall in Hall |- *. intros x Hx.
      apply insert_key_In in Hx. destruct Hx as [->|Hx]; [exact E|now apply Hall].
Qed.

Lemma group_keys_sorted (df : Series GroundRow) : StronglySorted key_lt (group_keys df).
Proof.
  unfold group_keys. induction (map (fun e => g_city (snd e)) df) as [|k ks IH]; simpl.
  - constructor.
  - now apply insert_key_sorted.
Qed.

Lemma sorted_keys_NoDup (ks : list string) : StronglySorted key_lt ks -> NoDup ks.
Proof.
  induction 1 as [|k ks Hs IH Hall]; constructor; [|exact IH].
  intros Hin. rewrite Forall_forall in Hall.
  exact (OrderedTypeEx.String_as_OT.lt_not_eq _ _ (Hall k Hin) eq_refl).
Qed.

Lemma group_keys_In (df : Series GroundRow) (k : string) :
  In k (group_keys df) <-> exists e, In e df /\ g_city (snd e) = k.
Proof.
  unfold group_keys. induction df as [|e df IH]; simpl.
  - split; [easy|intros (e & [] & _)].
  - rewrite insert_key_In, IH. split.
    + intros [->|(e' & He' & Hk)]; eauto.
    + intros (e' & [<-|He'] & Hk); eauto.
Qed.

Lemma flat_map_emitted_length {A : Type} (f : A -> option MatchedPair) (l : list A) :
  (List.length (flat_map (fun a => emitted (f a)) l) <= List.length l)%nat.
Proof.
  induction l as [|a l IH]; simpl; [lia|].
  rewrite length_app. destruct (f a); simpl; lia.
Qed.

(** X3.  The matcher emits at most one pair per ground row. *)
Theorem scientific_matching_at_most_one_pair_per_row
    (ground_data : Series GroundRow) (tempo_data : TempoData) (r w : R) :
  exists pairs,
    scientific_spatial_temporal_matching ground_data tempo_data r w = Ok pairs
    /\ (List.length pairs <= List.length ground_data)%nat.
Proof.
  exists (matched_pairs_of ground_data tempo_data r w).
  split; [apply scientific_matching_total|].
  unfold matched_pairs_of.
  apply Nat.le_trans with (List.length (flat_map snd (groupby_city ground_data))).
  - apply flat_map_length_bound. intros [c rows] _. simpl.
    destruct (tempo_region_of c) as [reg|]; [|simpl; lia].
    destruct (dict_get tempo_data reg) as [T|]; [|simpl; lia].
    eapply Nat.le_trans; [apply flat_map_emitted_length|].
    now rewrite length_map.
  - unfold groupby_city. rewrite flat_map_concat_map, map_map. cbn [snd].
    rewrite <- flat_map_concat_map.
    apply (partition_length_le (fun e => g_city (snd e))).
    apply sorted_keys_NoDup, group_keys_sorted.
Qed.

Lemma groupby_city_In (df : Series GroundRow) (c : string) (rows : Series GroundRow) :
  In (c, rows) (groupby_city df) ->
  forall e, In e rows -> In e df /\ g_city (snd e) = c.
Proof.
  unfold groupby_city. intros H e He.
  apply in_map_iff in H. destruct H as (k & [= <- <-] & _).
  apply filter_In in He. destruct He as [He Hk].
  apply String.eqb_eq in Hk. now split.
Qed.

Lemma select_pair_of (r w : R) (c reg : string) (T : Series TempoRow) (g : GroundRow)
    (mp : MatchedPair) :
  select r w c reg T g = Some mp ->
  exists k p, In (k, p) T /\ admissible r w g p = true /\ mp = pair_of c reg g p.
Proof.
  intros H.
  assert (HC : candidates r w g T <> []) by (apply (select_some_iff r w c reg); eauto).
  destruct (match_ground_row_selects r w c reg T g HC)
    as (k & q & C1 & C2 & p & _ & _ & _ & Hp & Hres).
  unfold select in H. rewrite Hres in H. injection H as <-.
  apply loc_In in Hp. rewrite candidates_admissible in Hp.
  apply filter_In in Hp. destruct Hp as [Hin Hadm].
  exists k, p. now repeat split.
Qed.

(** X4.  Where a returned pair comes from, when every frame of
    [tempo_data] has a unique row index: a ground row of the input whose
    city is routed to a region present in [tempo_data], joined with a
    pixel of that region's frame; the pair carries the fields of exactly
    these two rows, and its distance and time difference lie in
    [0, radius] and [0, window]. *)
Theorem scientific_matching_provenance
    (ground_data : Series GroundRow) (tempo_data : TempoData) (r w : R) :
  (forall reg T, dict_get tempo_data reg = Some T -> NoDup (labels T)) ->
  exists pairs,
    scientific_spatial_temporal_matching ground_data tempo_data r w = Ok pairs
    /\ forall mp, In mp pairs ->
         exists i g reg T k p,
           In (i, g) ground_data
           /\ tempo_region_of (g_city g) = Some reg
           /\ dict_get tempo_data reg = Some T
           /\ In (k, p) T
           /\ mp = pair_of (g_city g) reg g p
           /\ 0 <= distance_km mp <= r
           /\ 0 <= time_diff_hours mp <= w.
Proof.
  intros _.
  exists (matched_pairs_of ground_data tempo_data r w).
  split; [apply scientific_matching_total|].
  intros mp Hmp. unfold matched_pairs_of in Hmp.
  apply in_flat_map in Hmp. destruct Hmp as ([c rows] & Hgrp & Hmp). simpl in Hmp.
  destruct (tempo_region_of c) as [reg|] eqn:Ereg; [|easy].
  destruct (dict_get tempo_data reg) as [T|] eqn:ET; [|easy].
  apply in_flat_map in Hmp. destruct Hmp as (g & Hg & Hmp).
  apply in_map_iff in Hg. destruct Hg as ([i g'] & Hsnd & Hrow). simpl in Hsnd. subst g'.
  destruct (groupby_city_In _ _ _ Hgrp _ Hrow) as [Hin Hcity]. simpl in Hcity.
  destruct (select r w c reg T g) as [mp'|] eqn:Esel; [|easy].
  destruct Hmp as [<-|[]].
  destruct (select_pair_of _ _ _ _ _ _ _ Esel) as (k & p & HT & Hadm & ->).
  exists i, g, reg, T, k, p. subst c.
  unfold admissible in Hadm. apply andb_true_iff in Hadm. destruct Hadm as [Hd Ht].
  apply Rleb_true_iff in Hd. apply Rleb_true_iff in Ht.
  repeat split; try assumption.
  - apply GeoFacts.haversine_distance_nonneg.
  - apply Rabs_pos.
Qed.

Lemma sample_tempo_unique_index (reg : string) (T : Series TempoRow) :
  dict_get sample_tempo reg = Some T -> NoDup (labels T).
Proof.
  unfold sample_tempo. cbn [dict_get].
  destruct (String.eqb "NYC" reg); [|discriminate].
  intros [= <-]. apply NoDup_labels_one.
Qed.

Lemma scientific_matching_provenance_witness :
  exists pairs,
    scientific_spatial_temporal_matching sample_ground sample_tempo 20 1 = Ok pairs
    /\ forall mp, In mp pairs ->
         exists i g reg T k p,
           In (i, g) sample_ground
           /\ tempo_region_of (g_city g) = Some reg
           /\ dict_get sample_tempo reg = Some T
           /\ In (k, p) T
           /\ mp = pair_of (g_city g) reg g p
           /\ 0 <= distance_km mp <= 20
           /\ 0 <= time_diff_hours mp <= 1.
Proof.
  apply scientific_matching_provenance. exact sample_tempo_unique_index.
Defined.

(** X5.  A negative radius or a negative window leaves nothing to match. *)
Theorem scientific_matching_negative_tolerance
    (ground_data : Series GroundRow) (tempo_data : TempoData) (r w : R) :
  r < 0 \/ w < 0 ->
  scientific_spatial_temporal_matching ground_data tempo_data r w = Ok [].
Proof.
  intros Hneg. rewrite scientific_matching_total. f_equal.
  destruct (matched_pairs_of ground_data tempo_data r w) as [|mp rest] eqn:E; [reflexivity|].
  exfalso.
  assert (Hmp : In mp (matched_pairs_of ground_data tempo_data r w)) by (rewrite E; now left).
  unfold matched_pairs_of in Hmp.
  apply in_flat_map in Hmp. destruct Hmp as ([c rows] & _ & Hmp). simpl in Hmp.
  destruct (tempo_region_of c) as [reg|]; [|easy].
  destruct (dict_get tempo_data reg) as [T|]; [|easy].
  apply in_flat_map in Hmp. destruct Hmp as (g & _ & Hmp).
  destruct (select r w c reg T g) as [mp'|] eqn:Esel; [|easy].
  destruct (select_pair_of _ _ _ _ _ _ _ Esel) as (k & p & _ & Hadm & _).
  unfold admissible in Hadm. apply andb_true_iff in Hadm. destruct Hadm as [Hd Ht].
  apply Rleb_true_iff in Hd. apply Rleb_true_iff in Ht.
  pose proof (GeoFacts.haversine_distance_nonneg
                (Latitude g) (Longitude g) (latitude p) (longitude p)) as Hd0.
  pose proof (Rabs_pos (hours_between (time_utc p) (g_time_utc g))) as Ht0.
  unfold dist in Hd. unfold tdiff in Ht. destruct Hneg; lra.
Qed.

Lemma scientific_matching_negative_tolerance_witness :
  scientific_spatial_temporal_matching sample_ground sample_tempo (-1) 1 = Ok [].
Proof. apply scientific_matching_negative_tolerance. left. lra. Defined.

(** ** [create_sensitivity_analysis] *)

(** One entry of [sensitivity_results]. *)
Record sensitivity_entry : Type := {
  s_spatial_radius_km : R;
  s_temporal_window_hours : R;
  s_n_matches : nat;
  s_r2 : R;
  s_rmse : R
}.

Section WithMetrics.

(** The [try: ... except: r2, rmse = 0, 0] block: whatever the two library
    calls do, a pair of numbers comes out. *)
Variable metrics : list MatchedPair -> R * R.

(** The body of the two nested loops for one (radius, window) setting;
    the matcher is called with an empty [tempo_data] dictionary. *)
Definition sensitivity_cell (matched_data : Series GroundRow) (radius window : R)
  : result (list sensitivity_entry) :=
  temp_matched <- scientific_spatial_temporal_matching matched_data [] radius window ;;
  if (0 <? List.length temp_matched)%nat then
    let '(r2, rmse) := metrics temp_matched in
    Ok [{| s_spatial_radius_km := radius;
           s_temporal_window_hours := window;
           s_n_matches := List.length temp_matched;
           s_r2 := r2;
           s_rmse := rmse |}]
  else Ok [].

Definition create_sensitivity_analysis (matched_data : Series GroundRow)
  : result (list sensitivity_entry) :=
  let spatial_radii := [10; 20; 30] in
  let temporal_windows := [1; 3; 6] in
  for_each
    (fun radius => for_each (fun window => sensitivity_cell matched_data radius window)
                            temporal_windows)
    spatial_radii.

End WithMetrics.

(** Without a frame for the region no city yields a pair. *)
Lemma matched_pairs_of_no_frames (ground_data : Series GroundRow) (r w : R) :
  matched_pairs_of ground_data [] r w = [].
Proof.
  unfold matched_pairs_of.
  induction (groupby_city ground_data) as [|[c rows] gs IH]; [reflexivity|].
  cbn [flat_map]. rewrite IH. cbn. now destruct (tempo_region_of c).
Qed.

(** X6.  The sensitivity analysis re-runs the matcher with an empty TEMPO
    dictionary, so for every input frame and every metrics routine it
    returns an empty list of results. *)
Theorem create_sensitivity_analysis_always_empty
    (metrics : list MatchedPair -> R * R) (matched_data : Series GroundRow) :
  create_sensitivity_analysis metrics matched_data = Ok [].
Proof.
  assert (Hcell : forall radius window,
             sensitivity_cell metrics matched_data radius window = Ok []).
  { intros radius window. unfold sensitivity_cell.
    rewrite scientific_matching_total, matched_pairs_of_no_frames. reflexivity. }
  unfold create_sensitivity_analysis. simpl. rewrite !Hcell. reflexivity.
Qed.

End ScientificFacts.

(* ================================================================== *)
(** * 14. Further facts: the region-segmented matcher *)
(* ================================================================== *)

Module RegionFacts.
Import Pandas Region Grouping.
Local Open Scope R_scope.

(** The three quality conditions, each binding only when its column is
    present in the frame. *)
Definition passes_quality (cols : list string) (p : TempoRow) : Prop :=
  (has_column "quality_flag" cols = true ->
   cell_leb (cells p "quality_flag"%string) 2 = true)
  /\ (has_column "cloud_fraction" cols = true ->
      cell_ltb (cells p "cloud_fraction"%string) 0.8 = true)
  /\ (has_column "solar_zenith_angle" cols = true ->
      cell_ltb (cells p "solar_zenith_angle"%string) 85 = true).

Lemma quality_filter_In (F : TempoFrame) (e : nat * TempoRow) :
  In e (quality_filter F) -> In e (rows F) /\ passes_quality (columns F) (snd e).
Proof.
  unfold quality_filter, passes_quality. cbv zeta.
  rewrite !bool_index_smap.
  destruct (has_column "quality_flag" (columns F));
    destruct (has_column "cloud_fraction" (columns F));
    destruct (has_column "solar_zenith_angle" (columns F));
    rewrite ?bool_index_smap; rewrite ?filter_In; intuition discriminate.
Qed.

Lemma unique_NoDup (l : list string) : NoDup (unique l).
Proof.
  induction l as [|x l IH]; simpl; constructor.
  - intros H. apply filter_In in H. destruct H as [_ H].
    rewrite String.eqb_refl in H. discriminate.
  - now apply NoDup_filter.
Qed.

(** The pair built from ground row [g], the pixel [p] found under the
    selected label in the frame, and the pixel [p'] found under it among
    the nearby rows. *)
Lemma appended_cases (cols : list string) (T : Series TempoRow) (c : string)
    (g : GroundRow) :
  appended cols T c g = []
  \/ exists k p p',
       In (k, p) T /\ In (k, p') (nearby g T)
       /\ appended cols T c g = emit cols c g p (dist g p) (tdiff g p').
Proof.
  unfold appended.
  destruct (valid g T) as [|e V] eqn:EV.
  - left. now rewrite (match_region_row_skips _ _ _ _ EV).
  - right.
    destruct (match_region_row_selects cols T c g)
      as (k & q & N1 & N2 & p & p' & _ & _ & _ & Hp & Hp' & H).
    { rewrite EV. discriminate. }
    exists k, p, p'. rewrite H.
    split; [now apply loc_In|]. split; [now apply loc_In|reflexivity].
Qed.

Lemma emit_length (cols : list string) (c : string) (g : GroundRow) (p : TempoRow)
    (d t : R) :
  (List.length (emit cols c g p d t) <= 1)%nat.
Proof.
  unfold emit.
  destruct (pollutant_col_of (parameter g)) as [col|]; [|simpl; lia].
  destruct (has_column col cols); [|simpl; lia].
  destruct (pd_notna (cells p col) && cell_neb (cells p col) (-999)); simpl; lia.
Qed.

Lemma appended_length (cols : list string) (T : Series TempoRow) (c : string)
    (g : GroundRow) :
  (List.length (appended cols T c g) <= 1)%nat.
Proof.
  destruct (appended_cases cols T c g) as [->|(k & p & p' & _ & _ & ->)];
    [simpl; lia|apply emit_length].
Qed.

Lemma flat_map_appended_length (cols : list string) (T : Series TempoRow) (c : string)
    (l : list GroundRow) :
  (List.length (flat_map (appended cols T c) l) <= List.length l)%nat.
Proof.
  induction l as [|g l IH]; simpl; [lia|].
  rewrite length_app. pose proof (appended_length cols T c g). lia.
Qed.

(** X7.  Where a pair of the region-segmented matcher comes from, on a
    satellite frame with a unique row index: a ground row of the input
    whose city is not the placeholder, and a pixel of the frame that
    passed the quality filters; the satellite column is the one the
    ground parameter is mapped to, it is a column of the frame, and
    neither recorded quantity is negative. *)
Theorem region_matching_provenance
    (ground_region : Series GroundRow) (tempo_region : TempoFrame) :
  NoDup (labels (rows tempo_region)) ->
  exists pairs,
    match_region_temporally_and_spatially ground_region tempo_region = Ok pairs
    /\ forall mp, In mp pairs ->
         exists i g k p,
           In (i, g) ground_region
           /\ city mp = g_city g
           /\ g_city g <> "Unknown"%string
           /\ ground_parameter mp = parameter g
           /\ pollutant_col_of (parameter g) = Some (tempo_parameter mp)
           /\ has_column (tempo_parameter mp) (columns tempo_region) = true
           /\ In (k, p) (rows tempo_region)
           /\ passes_quality (columns tempo_region) p
           /\ tempo_value mp = cells p (tempo_parameter mp)
           /\ tempo_lat mp = latitude p /\ tempo_lon mp = longitude p
           /\ distance_km mp = dist g p
           /\ 0 <= distance_km mp
           /\ 0 <= time_diff_hours mp.
Proof.
  intros _.
  exists (region_pairs_of ground_region tempo_region).
  split; [apply match_region_total|].
  intros mp Hin. unfold region_pairs_of in Hin.
  apply in_flat_map in Hin. destruct Hin as (c & Hc & Hin).
  apply filter_In in Hc. destruct Hc as [_ Hc].
  apply negb_true_iff, String.eqb_neq in Hc.
  apply in_flat_map in Hin. destruct Hin as (g & Hg & Hin).
  apply in_map_iff in Hg. destruct Hg as ([i g'] & Hsnd & Hrow). simpl in Hsnd. subst g'.
  apply filter_In in Hrow. destruct Hrow as [Hrow Hcity].
  apply String.eqb_eq in Hcity. simpl in Hcity. subst c.
  destruct (appended_cases (columns tempo_region) (quality_filter tempo_region)
              (g_city g) g) as [E|(k & p & p' & Hp & _ & E)];
    rewrite E in Hin; [easy|].
  apply quality_filter_In in Hp. destruct Hp as [Hp Hq]. simpl in Hq.
  unfold emit in Hin.
  destruct (pollutant_col_of (parameter g)) as [col|] eqn:Ecol; [|easy].
  destruct (has_column col (columns tempo_region)) eqn:Ehas; [|easy].
  destruct (pd_notna (cells p col) && cell_neb (cells p col) (-999)); [|easy].
  destruct Hin as [<-|[]]. cbn.
  exists i, g, k, p.
  repeat split; try assumption; try reflexivity; try apply Hq.
  - apply GeoFacts.haversine_distance_nonneg.
  - apply Rabs_pos.
Qed.

Lemma region_matching_provenance_witness :
  exists pairs,
    match_region_temporally_and_spatially [(0%nat, ground_obs)]
      (frame_of (pixel_at (3600 * 50)%Z (Num 5)) (pixel_at (3600 * 0)%Z (Num 6)))
    = Ok pairs
    /\ forall mp, In mp pairs ->
         exists i g k p,
           In (i, g) [(0%nat, ground_obs)]
           /\ city mp = g_city g
           /\ g_city g <> "Unknown"%string
           /\ ground_parameter mp = parameter g
           /\ pollutant_col_of (parameter g) = Some (tempo_parameter mp)
           /\ has_column (tempo_parameter mp)
                (columns (frame_of (pixel_at (3600 * 50)%Z (Num 5))
                                   (pixel_at (3600 * 0)%Z (Num 6)))) = true
           /\ In (k, p) (rows (frame_of (pixel_at (3600 * 50)%Z (Num 5))
                                        (pixel_at (3600 * 0)%Z (Num 6))))
           /\ passes_quality
                (columns (frame_of (pixel_at (3600 * 50)%Z (Num 5))
                                   (pixel_at (3600 * 0)%Z (Num 6)))) p
           /\ tempo_value mp = cells p (tempo_parameter mp)
           /\ tempo_lat mp = latitude p /\ tempo_lon mp = longitude p
           /\ distance_km mp = dist g p
           /\ 0 <= distance_km mp
           /\ 0 <= time_diff_hours mp.
Proof. apply region_matching_provenance. apply NoDup_labels_two. Defined.

(** X8.  With a unique row index in the satellite frame, every pair records a
    pixel within the 150 km radius of its ground row, and the recorded time
    difference is the one between that pixel and the ground row. *)
Theorem region_matching_within_radius
    (ground_region : Series GroundRow) (tempo_region : TempoFrame) :
  NoDup (labels (rows tempo_region)) ->
  exists pairs,
    match_region_temporally_and_spatially ground_region tempo_region = Ok pairs
    /\ forall mp, In mp pairs ->
         exists i g k p,
           In (i, g) ground_region /\ In (k, p) (rows tempo_region)
           /\ distance_km mp = dist g p
           /\ time_diff_hours mp = tdiff g p
           /\ distance_km mp <= 150.
Proof.
  intros Hnd.
  exists (region_pairs_of ground_region tempo_region).
  split; [apply match_region_total|].
  intros mp Hin. unfold region_pairs_of in Hin.
  apply in_flat_map in Hin. destruct Hin as (c & _ & Hin).
  apply in_flat_map in Hin. destruct Hin as (g & Hg & Hin).
  apply in_map_iff in Hg. destruct Hg as ([i g'] & Hsnd & Hrow). simpl in Hsnd. subst g'.
  apply filter_In in Hrow. destruct Hrow as [Hrow _].
  unfold appended in Hin.
  destruct (valid g (quality_filter tempo_region)) as [|e V] eqn:EV.
  { rewrite (match_region_row_skips _ _ _ _ EV) in Hin. easy. }
  destruct (match_region_row_closest (columns tempo_region) (quality_filter tempo_region) c g)
    as (T1 & k & q & T2 & HT & Hd & _ & _ & Hres).
  { now apply quality_filter_NoDup. }
  { rewrite EV. discriminate. }
  rewrite Hres in Hin.
  assert (Hq : In (k, q) (rows tempo_region)).
  { apply (quality_filter_In tempo_region (k, q)). rewrite HT.
    apply in_or_app. right. now left. }
  unfold emit in Hin.
  destruct (pollutant_col_of (parameter g)) as [col|]; [|easy].
  destruct (has_column col (columns tempo_region)); [|easy].
  destruct (pd_notna (cells q col) && cell_neb (cells q col) (-999)); [|easy].
  destruct Hin as [<-|[]]. cbn.
  exists i, g, k, q. repeat split; assumption.
Qed.

Lemma region_matching_within_radius_witness :
  exists pairs,
    match_region_temporally_and_spatially [(0%nat, ground_obs)]
      (frame_of (pixel_at (3600 * 100)%Z (Num 5)) (pixel_at (3600 * 0)%Z (Num 6)))
    = Ok pairs
    /\ forall mp, In mp pairs ->
         exists i g k p,
           In (i, g) [(0%nat, ground_obs)]
           /\ In (k, p) (rows (frame_of (pixel_at (3600 * 100)%Z (Num 5))
                                        (pixel_at (3600 * 0)%Z (Num 6))))
           /\ distance_km mp = dist g p
           /\ time_diff_hours mp = tdiff g p
           /\ distance_km mp <= 150.
Proof.
  apply region_matching_within_radius. simpl.
  repeat constructor; simpl; intuition discriminate.
Defined.

(** X9.  On a satellite frame with a unique row index the
    region-segmented matcher appends at most one pair per ground row, and
    none for rows of the placeholder city. *)
Theorem region_matching_at_most_one_pair_per_row
    (ground_region : Series GroundRow) (tempo_region : TempoFrame) :
  NoDup (labels (rows tempo_region)) ->
  exists pairs,
    match_region_temporally_and_spatially ground_region tempo_region = Ok pairs
    /\ (List.length pairs
        <= List.length (filter (fun e => negb (String.eqb (g_city (snd e)) "Unknown"))
                               ground_region))%nat.
Proof.
  intros _.
  exists (region_pairs_of ground_region tempo_region).
  split; [apply match_region_total|].
  unfold region_pairs_of.
  set (known := filter (fun e => negb (String.eqb (g_city (snd e)) "Unknown")) ground_region).
  set (cities := filter (fun c => negb (String.eqb c "Unknown"))
                        (unique (map (fun e => g_city (snd e)) ground_region))).
  apply Nat.le_trans with
    (List.length (flat_map (fun c => filter (fun e => String.eqb (g_city (snd e)) c) known)
                           cities)).
  - apply flat_map_length_bound. intros c Hc.
    eapply Nat.le_trans; [apply flat_map_appended_length|].
    rewrite length_map.
    apply filter_In in Hc. destruct Hc as [_ Hc].
    apply negb_true_iff, String.eqb_neq in Hc.
    unfold known. clear -Hc.
    induction ground_region as [|e l IH]; simpl; [lia|].
    destruct (String.eqb (g_city (snd e)) c) eqn:E.
    + assert (Hu : String.eqb (g_city (snd e)) "Unknown" = false).
      { apply String.eqb_neq. apply String.eqb_eq in E. congruence. }
      rewrite Hu. simpl. rewrite E. simpl. lia.
    + destruct (negb (String.eqb (g_city (snd e)) "Unknown")); simpl; [rewrite E|]; exact IH.
  - apply (partition_length_le (fun e => g_city (snd e))).
    unfold cities. apply NoDup_filter, unique_NoDup.
Qed.

Lemma region_matching_at_most_one_pair_per_row_witness :
  exists pairs,
    match_region_temporally_and_spatially [(0%nat, ground_obs)]
      (frame_of (pixel_at (3600 * 50)%Z (Num 5)) (pixel_at (3600 * 0)%Z (Num 6)))
    = Ok pairs
    /\ (List.length pairs
        <= List.length (filter (fun e => negb (String.eqb (g_city (snd e)) "Unknown"))
                               [(0%nat, ground_obs)]))%nat.
Proof. apply region_matching_at_most_one_pair_per_row. apply NoDup_labels_two. Defined.

End RegionFacts.

(* ================================================================== *)
(** * 15. Further facts: the Fisher-z confidence interval *)
(* ================================================================== *)

Module Fisher.
Local Open Scope R_scope.

(** The pair [fisher_ci] returns: [(nan, nan)] or two numbers. *)
Inductive interval : Type :=
| NanPair
| Bounds (lo hi : R).

(** [fisher_ci(rho, n, z=1.96)], on real numbers, for a correlation
    strictly between -1 and 1; [n] is a Python int.  At [rho = 1] or
    [rho = -1] and beyond, the source's floats give an infinity, NaN or a
    [ZeroDivisionError], which the real numbers do not represent: every
    statement below assumes [-1 < rho < 1]. *)
Definition fisher_ci (rho : R) (n : Z) (z : R) : interval :=
  if (n <? 4)%Z then NanPair else
  let z0 := 0.5 * ln ((1 + rho) / (1 - rho)) in
  let dz := z / sqrt (IZR (Z.max (n - 3) 1)) in
  let lo := tanh (z0 - dz) in
  let hi := tanh (z0 + dz) in
  Bounds lo hi.

Definition default_z : R := 1.96.

(** ** The hyperbolic tangent *)

Lemma tanh_exp (x : R) : tanh x = (exp x * exp x - 1) / (exp x * exp x + 1).
Proof.
  unfold tanh, sinh, cosh. rewrite exp_Ropp.
  pose proof (exp_pos x) as He.
  field. split; nra.
Qed.

Lemma tanh_increasing (x y : R) : x < y -> tanh x < tanh y.
Proof.
  intros H. rewrite !tanh_exp.
  pose proof (exp_pos x) as Hx. pose proof (exp_pos y) as Hy.
  pose proof (exp_increasing x y H) as Hxy.
  set (a := exp x) in *. set (b := exp y) in *.
  assert (Ha : 0 < a * a + 1) by nra.
  assert (Hb : 0 < b * b + 1) by nra.
  apply (Rmult_lt_reg_r ((a * a + 1) * (b * b + 1))); [nra|].
  replace ((a * a - 1) / (a * a + 1) * ((a * a + 1) * (b * b + 1)))
    with ((a * a - 1) * (b * b + 1)) by (field; lra).
  replace ((b * b - 1) / (b * b + 1) * ((a * a + 1) * (b * b + 1)))
    with ((b * b - 1) * (a * a + 1)) by (field; lra).
  nra.
Qed.

Lemma tanh_le (x y : R) : x <= y -> tanh x <= tanh y.
Proof. intros [H| ->]; [left; now apply tanh_increasing|right; reflexivity]. Qed.

Lemma tanh_bounds (x : R) : -1 < tanh x < 1.
Proof.
  rewrite tanh_exp. pose proof (exp_pos x) as He. set (a := exp x) in *.
  assert (Ha : 0 < a * a + 1) by nra.
  split.
  - apply (Rmult_lt_reg_r (a * a + 1)); [exact Ha|].
    replace ((a * a - 1) / (a * a + 1) * (a * a + 1)) with (a * a - 1) by (field; lra).
    nra.
  - apply (Rmult_lt_reg_r (a * a + 1)); [exact Ha|].
    replace ((a * a - 1) / (a * a + 1) * (a * a + 1)) with (a * a - 1) by (field; lra).
    nra.
Qed.

Lemma tanh_opp (x : R) : tanh (- x) = - tanh x.
Proof.
  rewrite !tanh_exp, exp_Ropp. pose proof (exp_pos x) as He.
  field. split; nra.
Qed.

(** The Fisher transform and its inverse. *)
Definition fisher_z (rho : R) : R := 0.5 * ln ((1 + rho) / (1 - rho)).

Lemma tanh_fisher_z (rho : R) : -1 < rho < 1 -> tanh (fisher_z rho) = rho.
Proof.
  intros [Hlo Hhi]. rewrite tanh_exp. unfold fisher_z.
  assert (Hq : 0 < (1 + rho) / (1 - rho)).
  { apply Rdiv_lt_0_compat; lra. }
  rewrite <- exp_plus.
  replace (0.5 * ln ((1 + rho) / (1 - rho)) + 0.5 * ln ((1 + rho) / (1 - rho)))
    with (ln ((1 + rho) / (1 - rho))) by lra.
  rewrite (exp_ln _ Hq). field. lra.
Qed.

Lemma fisher_z_opp (rho : R) : -1 < rho < 1 -> fisher_z (- rho) = - fisher_z rho.
Proof.
  intros [Hlo Hhi]. unfold fisher_z.
  replace ((1 + - rho) / (1 - - rho)) with (/ ((1 + rho) / (1 - rho))) by (field; lra).
  rewrite ln_Rinv by (apply Rdiv_lt_0_compat; lra). lra.
Qed.

Lemma half_width_pos (n : Z) (z : R) :
  0 < z -> 0 < z / sqrt (IZR (Z.max (n - 3) 1)).
Proof.
  intros Hz. apply Rdiv_lt_0_compat; [exact Hz|].
  apply sqrt_lt_R0. apply IZR_lt. lia.
Qed.

Lemma half_width_antitone (n n' : Z) (z : R) :
  (n <= n')%Z -> 0 <= z ->
  z / sqrt (IZR (Z.max (n' - 3) 1)) <= z / sqrt (IZR (Z.max (n - 3) 1)).
Proof.
  intros Hn Hz. unfold Rdiv. apply Rmult_le_compat_l; [exact Hz|].
  apply Rinv_le_contravar.
  - apply sqrt_lt_R0. apply IZR_lt. lia.
  - apply sqrt_le_1_alt. apply IZR_le. lia.
Qed.

(** X10.  With at least four samples, a correlation strictly between -1 and 1 and
    a positive critical value, the function returns two numbers that
    bracket the correlation and stay strictly inside (-1, 1). *)
Theorem fisher_ci_brackets_rho (rho : R) (n : Z) (z : R) :
  (4 <= n)%Z -> -1 < rho < 1 -> 0 < z ->
  exists lo hi,
    fisher_ci rho n z = Bounds lo hi /\ -1 < lo /\ lo < rho /\ rho < hi /\ hi < 1.
Proof.
  intros Hn Hrho Hz. unfold fisher_ci.
  assert (E : (n <? 4)%Z = false) by (apply Z.ltb_ge; lia).
  rewrite E. cbv zeta. fold (fisher_z rho).
  pose proof (half_width_pos n z Hz) as Hdz.
  set (dz := z / sqrt (IZR (Z.max (n - 3) 1))) in *.
  exists (tanh (fisher_z rho - dz)), (tanh (fisher_z rho + dz)).
  split; [reflexivity|].
  pose proof (tanh_bounds (fisher_z rho - dz)) as [H1 _].
  pose proof (tanh_bounds (fisher_z rho + dz)) as [_ H2].
  pose proof (tanh_increasing (fisher_z rho - dz) (fisher_z rho) ltac:(lra)) as H3.
  pose proof (tanh_increasing (fisher_z rho) (fisher_z rho + dz) ltac:(lra)) as H4.
  rewrite (tanh_fisher_z rho Hrho) in H3, H4.
  repeat split; assumption.
Qed.

Lemma fisher_ci_brackets_rho_witness :
  exists lo hi,
    fisher_ci 0.5 10 default_z = Bounds lo hi
    /\ -1 < lo /\ lo < 0.5 /\ 0.5 < hi /\ hi < 1.
Proof. apply fisher_ci_brackets_rho; [lia|lra|unfold default_z; lra]. Defined.

(** X11.  More samples never widen the interval: for a correlation strictly
    between -1 and 1 and sample sizes [4 <= n <= n'] the interval at [n']
    lies inside the interval at [n]. *)
Theorem fisher_ci_narrows_with_n (rho : R) (n n' : Z) (z : R) :
  (4 <= n)%Z -> (n <= n')%Z -> -1 < rho < 1 -> 0 <= z ->
  exists lo hi lo' hi',
    fisher_ci rho n z = Bounds lo hi
    /\ fisher_ci rho n' z = Bounds lo' hi'
    /\ lo <= lo' /\ lo' <= hi' /\ hi' <= hi.
Proof.
  intros Hn Hn' _ Hz. unfold fisher_ci.
  assert (E : (n <? 4)%Z = false) by (apply Z.ltb_ge; lia).
  assert (E' : (n' <? 4)%Z = false) by (apply Z.ltb_ge; lia).
  rewrite E, E'. cbv zeta. fold (fisher_z rho).
  pose proof (half_width_antitone n n' z Hn' Hz) as Hdz.
  assert (Hdz' : 0 <= z / sqrt (IZR (Z.max (n' - 3) 1))).
  { apply Rmult_le_pos; [exact Hz|]. left. apply Rinv_0_lt_compat.
    apply sqrt_lt_R0. apply IZR_lt. lia. }
  set (dz := z / sqrt (IZR (Z.max (n - 3) 1))) in *.
  set (dz' := z / sqrt (IZR (Z.max (n' - 3) 1))) in *.
  do 4 eexists. split; [reflexivity|]. split; [reflexivity|].
  repeat split; apply tanh_le; lra.
Qed.

Lemma fisher_ci_narrows_with_n_witness :
  exists lo hi lo' hi',
    fisher_ci 0.5 10 default_z = Bounds lo hi
    /\ fisher_ci 0.5 100 default_z = Bounds lo' hi'
    /\ lo <= lo' /\ lo' <= hi' /\ hi' <= hi.
Proof. apply fisher_ci_narrows_with_n; [lia|lia|lra|unfold default_z; lra]. Defined.

(** X12.  The interval for [-rho] is the mirror image of the interval for
    [rho]. *)
Theorem fisher_ci_mirror (rho : R) (n : Z) (z : R) :
  (4 <= n)%Z -> -1 < rho < 1 ->
  exists lo hi,
    fisher_ci rho n z = Bounds lo hi
    /\ fisher_ci (- rho) n z = Bounds (- hi) (- lo).
Proof.
  intros Hn Hrho. unfold fisher_ci.
  assert (E : (n <? 4)%Z = false) by (apply Z.ltb_ge; lia).
  rewrite E. cbv zeta. fold (fisher_z rho). fold (fisher_z (- rho)).
  rewrite (fisher_z_opp rho Hrho).
  set (dz := z / sqrt (IZR (Z.max (n - 3) 1))).
  do 2 eexists. split; [reflexivity|].
  rewrite <- !tanh_opp. f_equal; f_equal; lra.
Qed.

Lemma fisher_ci_mirror_witness :
  exists lo hi,
    fisher_ci 0.5 10 default_z = Bounds lo hi
    /\ fisher_ci (Ropp 0.5) 10 default_z = Bounds (- hi) (- lo).
Proof. apply (fisher_ci_mirror 0.5 10 default_z); [lia|lra]. Defined.

End Fisher.

(* ================================================================== *)
(** * 16. Further facts: the calibration split *)
(* ================================================================== *)

Module Split.
Import Np.

(** [a[idx]] for an array [a] and an array of non-negative indices. *)
Fixpoint take {A : Type} (a : list A) (idx : list nat) : result (list A) :=
  match idx with
  | [] => Ok []
  | i :: rest =>
      match nth_error a i with
      | None => Raise IndexError
      | Some x => l <- take a rest ;; Ok (x :: l)
      end
  end.

(** Where a slice bound [k] falls in a sequence of length [len]: negative
    bounds count from the end, and bounds are clipped to the sequence. *)
Definition slice_bound (len : nat) (k : Z) : nat :=
  if (k <? 0)%Z then Z.to_nat (Z.max (Z.of_nat len + k) 0)
  else Z.to_nat (Z.min k (Z.of_nat len)).

(** [l[:k]] and [l[k:]]. *)
Definition slice_to {A : Type} (l : list A) (k : Z) : list A :=
  firstn (slice_bound (List.length l) k) l.

Definition slice_from {A : Type} (l : list A) (k : Z) : list A :=
  skipn (slice_bound (List.length l) k) l.

(** [int(q)]: truncation toward zero. *)
Definition int (q : Q) : Z :=
  if Qle_bool 0 q then Qfloor q else (- Qfloor (- q))%Z.

Definition default_test_ratio : Q := 1 # 2.

Section WithShuffle.

Variable rng : Type.

(** [np.random.shuffle(indices)]: the shuffled array and the next state
    of the generator. *)
Variable np_random_shuffle : rng -> list nat -> list nat * rng.

(** [train_test_split_calibration(ground, tempo, test_ratio)]; the four
    arrays are returned in the source's order. *)
Definition train_test_split_calibration (ground tempo : list float) (test_ratio : Q)
    (state : rng)
  : result ((list float * list float * list float * list float) * rng) :=
  let n := List.length ground in
  let '(indices, state') := np_random_shuffle state (seq 0 n) in
  let split_idx := int (inject_Z (Z.of_nat n) * (1 - test_ratio))%Q in
  let train_idx := slice_to indices split_idx in
  let test_idx := slice_from indices split_idx in
  ground_train <- take ground train_idx ;;
  tempo_train <- take tempo train_idx ;;
  ground_test <- take ground test_idx ;;
  tempo_test <- take tempo test_idx ;;
  Ok ((ground_train, tempo_train, ground_test, tempo_test), state').

(** ** Facts *)

Lemma slice_to_from {A : Type} (l : list A) (k : Z) : slice_to l k ++ slice_from l k = l.
Proof. apply firstn_skipn. Qed.

Lemma nth_error_combine {A B : Type} (a : list A) (b : list B) (i : nat) (x : A) (y : B) :
  nth_error a i = Some x -> nth_error b i = Some y ->
  nth_error (combine a b) i = Some (x, y).
Proof.
  revert b i. induction a as [|a0 a IH]; intros [|b0 b] [|i]; simpl; try discriminate.
  - now intros [= ->] [= ->].
  - apply IH.
Qed.

Lemma take_total {A : Type} (a : list A) (idx : list nat) :
  Forall (fun i => (i < List.length a)%nat) idx ->
  exists l, take a idx = Ok l /\ List.length l = List.length idx.
Proof.
  induction 1 as [|i idx Hi _ (l & Hl & Hlen)]; simpl.
  - now exists [].
  - destruct (nth_error a i) as [x|] eqn:E.
    + rewrite Hl. exists (x :: l). simpl. now rewrite Hlen.
    + apply nth_error_None in E. lia.
Qed.

Lemma take_combine {A B : Type} (a : list A) (b : list B) (idx : list nat)
    (la : list A) (lb : list B) :
  take a idx = Ok la -> take b idx = Ok lb ->
  take (combine a b) idx = Ok (combine la lb).
Proof.
  revert la lb. induction idx as [|i idx IH]; intros la lb; simpl.
  - now intros [= <-] [= <-].
  - destruct (nth_error a i) as [x|] eqn:Ea; [|discriminate].
    destruct (nth_error b i) as [y|] eqn:Eb; [|discriminate].
    destruct (take a idx) as [la'|]; [|discriminate].
    destruct (take b idx) as [lb'|]; [|discriminate].
    simpl. intros [= <-] [= <-].
    rewrite (nth_error_combine _ _ _ _ _ Ea Eb), (IH la' lb' eq_refl eq_refl).
    reflexivity.
Qed.

Lemma take_app {A : Type} (a : list A) (i1 i2 : list nat) (l1 l2 : list A) :
  take a i1 = Ok l1 -> take a i2 = Ok l2 -> take a (i1 ++ i2) = Ok (l1 ++ l2).
Proof.
  revert l1. induction i1 as [|i i1 IH]; intros l1; simpl.
  - now intros [= <-].
  - destruct (nth_error a i); [|discriminate].
    destruct (take a i1) as [l|]; [|discriminate].
    simpl. intros [= <-] H2. now rewrite (IH l eq_refl H2).
Qed.

Lemma take_Permutation {A : Type} (a : list A) (idx idx' : list nat) :
  Permutation idx idx' ->
  forall l, take a idx = Ok l -> exists l', take a idx' = Ok l' /\ Permutation l l'.
Proof.
  induction 1 as [|i idx idx' _ IH|i j idx|idx1 idx2 idx3 _ IH1 _ IH2]; intros l; simpl.
  - intros [= <-]. now exists [].
  - destruct (nth_error a i) as [x|]; [|discriminate].
    destruct (take a idx) as [l0|]; [|discriminate].
    simpl. intros [= <-].
    destruct (IH l0 eq_refl) as (l' & -> & Hp).
    exists (x :: l'). split; [reflexivity|now constructor].
  - destruct (nth_error a j) as [y|]; [|discriminate].
    destruct (nth_error a i) as [x|]; [|simpl; destruct (take a idx); discriminate].
    destruct (take a idx) as [l0|]; [|discriminate].
    simpl. intros [= <-].
    exists (x :: y :: l0). split; [reflexivity|apply perm_swap].
  - intros H1. destruct (IH1 l H1) as (l2 & H2 & Hp12).
    destruct (IH2 l2 H2) as (l3 & H3 & Hp23).
    exists l3. split; [exact H3|]. now apply Permutation_trans with l2.
Qed.

Lemma take_seq {A : Type} (pre a : list A) :
  take (pre ++ a) (seq (List.length pre) (List.length a)) = Ok a.
Proof.
  revert pre. induction a as [|x a IH]; intros pre; simpl; [reflexivity|].
  rewrite nth_error_app2 by lia. rewrite Nat.sub_diag. simpl.
  replace (pre ++ x :: a) with ((pre ++ [x]) ++ a) by (now rewrite <- app_assoc).
  replace (S (List.length pre)) with (List.length (pre ++ [x]))
    by (rewrite length_app; simpl; lia).
  now rewrite IH.
Qed.

Lemma take_index_bound {A : Type} (a : list A) (idx : list nat) (l : list A) :
  take a idx = Ok l -> Forall (fun i => (i < List.length a)%nat) idx.
Proof.
  revert l. induction idx as [|i idx IH]; intros l; simpl; [constructor|].
  destruct (nth_error a i) as [x|] eqn:E; [|discriminate].
  destruct (take a idx) as [l0|]; [|discriminate].
  intros _. constructor; [|now apply (IH l0)].
  apply nth_error_Some. now rewrite E.
Qed.

Hypothesis np_random_shuffle_spec :
  forall state l, Permutation (fst (np_random_shuffle state l)) l.

Lemma shuffled_indices_bound (state : rng) (n : nat) :
  Forall (fun i => (i < n)%nat) (fst (np_random_shuffle state (seq 0 n))).
Proof.
  apply Forall_forall. intros i Hi.
  apply (Permutation_in _ (np_random_shuffle_spec state (seq 0 n))) in Hi.
  apply in_seq in Hi. lia.
Qed.

(** X13.  When [tempo] is at least as long as [ground], the split returns, the
    train arrays have equal lengths and so have the test arrays, no
    observation is lost or duplicated, and each ground value keeps the
    satellite value it was paired with. *)
Theorem train_test_split_partitions_the_pairs
    (ground tempo : list float) (test_ratio : Q) (state : rng) :
  (List.length ground <= List.length tempo)%nat ->
  exists ground_train tempo_train ground_test tempo_test state',
    train_test_split_calibration ground tempo test_ratio state
    = Ok ((ground_train, tempo_train, ground_test, tempo_test), state')
    /\ List.length ground_train = List.length tempo_train
    /\ List.length ground_test = List.length tempo_test
    /\ Permutation (combine ground_train tempo_train ++ combine ground_test tempo_test)
                   (combine ground tempo).
Proof.
  intros Hlen. unfold train_test_split_calibration.
  pose proof (np_random_shuffle_spec state (seq 0 (List.length ground))) as Hperm.
  pose proof (shuffled_indices_bound state (List.length ground)) as Hb.
  destruct (np_random_shuffle state (seq 0 (List.length ground))) as [indices state'].
  simpl in Hperm, Hb. cbv zeta.
  set (k := int (inject_Z (Z.of_nat (List.length ground)) * (1 - test_ratio))%Q).
  pose proof (slice_to_from indices k) as Hsl.
  set (tr := slice_to indices k) in *. set (te := slice_from indices k) in *.
  assert (Htr : Forall (fun i => (i < List.length ground)%nat) tr).
  { apply Forall_forall. intros i Hi. rewrite Forall_forall in Hb. apply Hb.
    rewrite <- Hsl. apply in_or_app. now left. }
  assert (Hte : Forall (fun i => (i < List.length ground)%nat) te).
  { apply Forall_forall. intros i Hi. rewrite Forall_forall in Hb. apply Hb.
    rewrite <- Hsl. apply in_or_app. now right. }
  destruct (take_total ground tr Htr) as (gtr & Hgtr & Lgtr).
  destruct (take_total ground te Hte) as (gte & Hgte & Lgte).
  destruct (take_total tempo tr) as (ttr & Httr & Lttr).
  { eapply Forall_impl; [|exact Htr]. simpl. intros. lia. }
  destruct (take_total tempo te) as (tte & Htte & Ltte).
  { eapply Forall_impl; [|exact Hte]. simpl. intros. lia. }
  rewrite Hgtr, Httr, Hgte, Htte. cbn [bind].
  exists gtr, ttr, gte, tte, state'.
  split; [reflexivity|]. split; [congruence|]. split; [congruence|].
  pose proof (take_app _ _ _ _ _ (take_combine _ _ _ _ _ Hgtr Httr)
                               (take_combine _ _ _ _ _ Hgte Htte)) as Happ.
  rewrite Hsl in Happ.
  assert (Hseq : take (combine ground tempo) (seq 0 (List.length (combine ground tempo)))
                 = Ok (combine ground tempo)) by apply (take_seq []).
  rewrite length_combine, Nat.min_l in Hseq by exact Hlen.
  destruct (take_Permutation _ _ _ Hperm _ Happ) as (l' & Hl' & Hp).
  rewrite Hseq in Hl'. injection Hl' as <-. exact Hp.
Qed.

(** X14.  When [tempo] is shorter than [ground], indexing it with the shuffled
    indices goes out of bounds and the split raises. *)
Theorem train_test_split_short_tempo_raises
    (ground tempo : list float) (test_ratio : Q) (state : rng) :
  (List.length tempo < List.length ground)%nat ->
  train_test_split_calibration ground tempo test_ratio state = Raise IndexError.
Proof.
  intros Hlen. unfold train_test_split_calibration.
  pose proof (np_random_shuffle_spec state (seq 0 (List.length ground))) as Hperm.
  pose proof (shuffled_indices_bound state (List.length ground)) as Hb.
  destruct (np_random_shuffle state (seq 0 (List.length ground))) as [indices state'].
  simpl in Hperm, Hb. cbv zeta.
  set (k := int (inject_Z (Z.of_nat (List.length ground)) * (1 - test_ratio))%Q).
  pose proof (slice_to_from indices k) as Hsl.
  set (tr := slice_to indices k) in *. set (te := slice_from indices k) in *.
  assert (Hin : In (List.length tempo) (tr ++ te)).
  { rewrite Hsl. apply (Permutation_in _ (Permutation_sym Hperm)).
    apply in_seq. lia. }
  assert (Hraise : forall idx l, In (List.length tempo) idx -> take tempo idx <> Ok l).
  { intros idx l Hi Hl. apply take_index_bound in Hl.
    rewrite Forall_forall in Hl. specialize (Hl _ Hi). lia. }
  assert (Hexn : forall (A : Type) (a : list A) idx e, take a idx = Raise e -> e = IndexError).
  { intros A a idx. induction idx as [|i idx IH]; intros e; simpl; [discriminate|].
    destruct (nth_error a i); [|now intros [= <-]].
    destruct (take a idx) as [l|e'] eqn:E; simpl; [discriminate|].
    intros [= <-]. now apply IH. }
  destruct (take ground tr) as [gtr|e] eqn:Egtr; [|now rewrite (Hexn _ _ _ _ Egtr)].
  cbn [bind].
  destruct (take tempo tr) as [ttr|e] eqn:Ettr; [|now rewrite (Hexn _ _ _ _ Ettr)].
  cbn [bind].
  destruct (take ground te) as [gte|e] eqn:Egte; [|now rewrite (Hexn _ _ _ _ Egte)].
  cbn [bind].
  destruct (take tempo te) as [tte|e] eqn:Ette; [|now rewrite (Hexn _ _ _ _ Ette)].
  exfalso. apply in_app_or in Hin. destruct Hin as [Hin|Hin].
  - exact (Hraise _ _ Hin Ettr).
  - exact (Hraise _ _ Hin Ette).
Qed.

(** X15.  With the default ratio the train part takes the first half of the
    shuffled observations, rounded down, and the test part the rest. *)
Theorem train_test_split_default_sizes (ground tempo : list float) (state : rng) :
  (List.length ground <= List.length tempo)%nat ->
  exists ground_train tempo_train ground_test tempo_test state',
    train_test_split_calibration ground tempo default_test_ratio state
    = Ok ((ground_train, tempo_train, ground_test, tempo_test), state')
    /\ List.length ground_train = (List.length ground / 2)%nat
    /\ List.length ground_test = (List.length ground - List.length ground / 2)%nat.
Proof.
  intros Hlen. unfold train_test_split_calibration.
  pose proof (np_random_shuffle_spec state (seq 0 (List.length ground))) as Hperm.
  pose proof (shuffled_indices_bound state (List.length ground)) as Hb.
  destruct (np_random_shuffle state (seq 0 (List.length ground))) as [indices state'].
  simpl in Hperm, Hb. cbv zeta.
  assert (Hn : List.length indices = List.length ground).
  { rewrite (Permutation_length Hperm). apply length_seq. }
  set (n := List.length ground) in *.
  assert (Hk : int (inject_Z (Z.of_nat n) * (1 - default_test_ratio))%Q
               = Z.of_nat (n / 2)).
  { unfold int, default_test_ratio.
    assert (Hq : (inject_Z (Z.of_nat n) * (1 - (1 # 2)) == Z.of_nat n # 2)%Q).
    { unfold Qeq, inject_Z. simpl. lia. }
    assert (Hpos : Qle_bool 0 (inject_Z (Z.of_nat n) * (1 - (1 # 2))) = true).
    { apply Qle_bool_iff. rewrite Hq. unfold Qle. simpl. lia. }
    rewrite Hpos, Hq. unfold Qfloor.
    rewrite Nat2Z.inj_div. reflexivity. }
  rewrite Hk.
  assert (Hsb : slice_bound (List.length indices) (Z.of_nat (n / 2)) = (n / 2)%nat).
  { unfold slice_bound.
    assert (E : (Z.of_nat (n / 2) <? 0)%Z = false) by (apply Z.ltb_ge; lia).
    rewrite E, Hn.
    pose proof (Nat.Div0.div_le_upper_bound n 2 n ltac:(lia)). lia. }
  pose proof (slice_to_from indices (Z.of_nat (n / 2))) as Hsl.
  assert (Ltr : List.length (slice_to indices (Z.of_nat (n / 2))) = (n / 2)%nat).
  { unfold slice_to. rewrite Hsb, length_firstn, Hn.
    pose proof (Nat.Div0.div_le_upper_bound n 2 n ltac:(lia)). lia. }
  assert (Lte : List.length (slice_from indices (Z.of_nat (n / 2))) = (n - n / 2)%nat).
  { unfold slice_from. rewrite Hsb, length_skipn, Hn. reflexivity. }
  set (tr := slice_to indices (Z.of_nat (n / 2))) in *.
  set (te := slice_from indices (Z.of_nat (n / 2))) in *.
  assert (Htr : Forall (fun i => (i < n)%nat) tr).
  { apply Forall_forall. intros i Hi. rewrite Forall_forall in Hb. apply Hb.
    rewrite <- Hsl. apply in_or_app. now left. }
  assert (Hte : Forall (fun i => (i < n)%nat) te).
  { apply Forall_forall. intros i Hi. rewrite Forall_forall in Hb. apply Hb.
    rewrite <- Hsl. apply in_or_app. now right. }
  destruct (take_total ground tr Htr) as (gtr & Hgtr & Lgtr).
  destruct (take_total ground te Hte) as (gte & Hgte & Lgte).
  destruct (take_total tempo tr) as (ttr & Httr & Lttr).
  { eapply Forall_impl; [|exact Htr]. simpl. intros. lia. }
  destruct (take_total tempo te) as (tte & Htte & Ltte).
  { eapply Forall_impl; [|exact Hte]. simpl. intros. lia. }
  rewrite Hgtr, Httr, Hgte, Htte. cbn [bind].
  exists gtr, ttr, gte, tte, state'.
  split; [reflexivity|]. split; congruence.
Qed.

End WithShuffle.

(** ** A concrete generator *)

(** The generator state counts the draws; each draw reverses the array. *)
Definition reversing_shuffle (state : nat) (l : list nat) : list nat * nat :=
  (rev l, S state).

Lemma reversing_shuffle_spec (state : nat) (l : list nat) :
  Permutation (fst (reversing_shuffle state l)) l.
Proof. simpl. apply Permutation_sym, Permutation_rev. Qed.

Definition sample_ground : list float := [Fin 10; Fin 20; Fin 30; Fin 40; Fin 50].
Definition sample_tempo : list float := [Fin 11; Fin 21; Fin 31; Fin 41; Fin 51].

Lemma train_test_split_partitions_the_pairs_witness :
  exists ground_train tempo_train ground_test tempo_test state',
    train_test_split_calibration nat reversing_shuffle sample_ground sample_tempo (3 # 10) 0%nat
    = Ok ((ground_train, tempo_train, ground_test, tempo_test), state')
    /\ List.length ground_train = List.length tempo_train
    /\ List.length ground_test = List.length tempo_test
    /\ Permutation (combine ground_train tempo_train ++ combine ground_test tempo_test)
                   (combine sample_ground sample_tempo).
Proof.
  apply (train_test_split_partitions_the_pairs nat reversing_shuffle reversing_shuffle_spec).
  simpl. lia.
Defined.

Lemma train_test_split_short_tempo_raises_witness :
  train_test_split_calibration nat reversing_shuffle sample_ground [Fin 11; Fin 21]
    default_test_ratio 0%nat
  = Raise IndexError.
Proof.
  apply (train_test_split_short_tempo_raises nat reversing_shuffle reversing_shuffle_spec).
  simpl. lia.
Defined.

Lemma train_test_split_default_sizes_witness :
  exists ground_train tempo_train ground_test tempo_test state',
    train_test_split_calibration nat reversing_shuffle sample_ground sample_tempo
      default_test_ratio 0%nat
    = Ok ((ground_train, tempo_train, ground_test, tempo_test), state')
    /\ List.length ground_train = (List.length sample_ground / 2)%nat
    /\ List.length ground_test
       = (List.length sample_ground - List.length sample_ground / 2)%nat.
Proof.
  apply (train_test_split_default_sizes nat reversing_shuffle reversing_shuffle_spec).
  simpl. lia.
Defined.

End Split.

(* ================================================================== *)
(** * 17. Further facts: the sensitivity heatmap *)
(* ================================================================== *)

Module Heatmap.
Import Pandas Region.
Local Open Scope R_scope.

(** One entry of [sensitivity_results]. *)
Record entry : Type := {
  spatial_radius_km : R;
  temporal_window_hours : R;
  n_matches : nat;
  r2 : R;
  rmse : R
}.

Definition spatial_radii : list R := [10; 20; 30].
Definition temporal_windows : list R := [1; 3; 6].

(** The two successive row filters of one grid cell. *)
Definition within (matched_data : list MatchedPair) (radius window : R) : list MatchedPair :=
  let temp_data := filter (fun mp => Rleb (distance_km mp) radius) matched_data in
  filter (fun mp => Rleb (time_diff_hours mp) window) temp_data.

Section WithMetrics.

(** The [try: ... except: r2, rmse = 0, 0] block: whatever the two library
    calls do, a pair of numbers comes out. *)
Variable metrics : list MatchedPair -> R * R.

Definition heat_cell (matched_data : list MatchedPair) (radius window : R) : list entry :=
  let temp_data := within matched_data radius window in
  if (10 <? List.length temp_data)%nat then
    [{| spatial_radius_km := radius;
        temporal_window_hours := window;
        n_matches := List.length temp_data;
        r2 := fst (metrics temp_data);
        rmse := snd (metrics temp_data) |}]
  else [].

(** [create_sensitivity_heatmap(matched_data)]: the returned list. *)
Definition create_sensitivity_heatmap (matched_data : list MatchedPair) : list entry :=
  flat_map (fun radius => flat_map (heat_cell matched_data radius) temporal_windows)
           spatial_radii.

(** ** Facts *)

Lemma filter_length_mono {A : Type} (f g : A -> bool) (l : list A) :
  (forall a, f a = true -> g a = true) ->
  (List.length (filter f l) <= List.length (filter g l))%nat.
Proof.
  intros H. induction l as [|a l IH]; simpl; [lia|].
  destruct (f a) eqn:E.
  - rewrite (H a E). simpl. lia.
  - destruct (g a); simpl; lia.
Qed.

Lemma within_length_le (matched_data : list MatchedPair) (radius window : R) :
  (List.length (within matched_data radius window) <= List.length matched_data)%nat.
Proof.
  unfold within. cbv zeta.
  eapply Nat.le_trans; apply filter_length_le.
Qed.

Lemma within_filter (matched_data : list MatchedPair) (radius window : R) :
  within matched_data radius window
  = filter (fun mp => Rleb (distance_km mp) radius && Rleb (time_diff_hours mp) window)
           matched_data.
Proof.
  unfold within. cbv zeta.
  induction matched_data as [|mp l IH]; simpl; [reflexivity|].
  destruct (Rleb (distance_km mp) radius); simpl; [|exact IH].
  destruct (Rleb (time_diff_hours mp) window); now rewrite IH.
Qed.

Lemma within_widen (matched_data : list MatchedPair) (radius window radius' window' : R) :
  radius <= radius' -> window <= window' ->
  (List.length (within matched_data radius window)
   <= List.length (within matched_data radius' window'))%nat.
Proof.
  intros Hr Hw. rewrite !within_filter. apply filter_length_mono.
  intros mp H. apply andb_true_iff in H. destruct H as [Hd Ht].
  apply Rleb_true_iff in Hd. apply Rleb_true_iff in Ht.
  apply andb_true_iff. split; apply Rleb_true_iff; lra.
Qed.

Lemma heatmap_In (matched_data : list MatchedPair) (e : entry) :
  In e (create_sensitivity_heatmap matched_data) <->
  In (spatial_radius_km e) spatial_radii
  /\ In (temporal_window_hours e) temporal_windows
  /\ (10 < n_matches e)%nat
  /\ e = {| spatial_radius_km := spatial_radius_km e;
            temporal_window_hours := temporal_window_hours e;
            n_matches := List.length
                           (within matched_data (spatial_radius_km e)
                                   (temporal_window_hours e));
            r2 := fst (metrics (within matched_data (spatial_radius_km e)
                                       (temporal_window_hours e)));
            rmse := snd (metrics (within matched_data (spatial_radius_km e)
                                         (temporal_window_hours e))) |}.
Proof.
  unfold create_sensitivity_heatmap. split.
  - intros H. apply in_flat_map in H. destruct H as (radius & Hr & H).
    apply in_flat_map in H. destruct H as (window & Hw & H).
    unfold heat_cell in H. cbv zeta in H.
    destruct (10 <? List.length (within matched_data radius window))%nat eqn:E; [|easy].
    destruct H as [<-|[]]. cbn. apply Nat.ltb_lt in E. now repeat split.
  - intros (Hr & Hw & Hn & He).
    apply in_flat_map. exists (spatial_radius_km e). split; [exact Hr|].
    apply in_flat_map. exists (temporal_window_hours e). split; [exact Hw|].
    unfold heat_cell. cbv zeta.
    rewrite He in Hn. cbn in Hn. apply Nat.ltb_lt in Hn. rewrite Hn.
    left. now rewrite <- He.
Qed.

End WithMetrics.

(** X16.  Every reported grid cell lies on the 3 x 3 grid, counts the rows
    of the input that are within both thresholds, and holds more than ten
    and no more than all rows. *)
Theorem sensitivity_heatmap_entries
    (metrics : list MatchedPair -> R * R) (matched_data : list MatchedPair) :
  forall e, In e (create_sensitivity_heatmap metrics matched_data) ->
    In (spatial_radius_km e) [10; 20; 30]
    /\ In (temporal_window_hours e) [1; 3; 6]
    /\ n_matches e
       = List.length
           (filter (fun mp => Rleb (distance_km mp) (spatial_radius_km e)
                              && Rleb (time_diff_hours mp) (temporal_window_hours e))
                   matched_data)
    /\ (10 < n_matches e <= List.length matched_data)%nat.
Proof.
  intros e He. apply heatmap_In in He. destruct He as (Hr & Hw & Hn & He).
  split; [exact Hr|]. split; [exact Hw|].
  assert (Hc : n_matches e
               = List.length (within matched_data (spatial_radius_km e)
                                     (temporal_window_hours e))).
  { rewrite He at 1. reflexivity. }
  split; [now rewrite Hc, within_filter|].
  split; [exact Hn|]. rewrite Hc. apply within_length_le.
Qed.

(** X17.  Reported cells are closed upwards: when a cell is reported, every
    grid cell with a radius and a window at least as large is reported
    too, with at least as many matches. *)
Theorem sensitivity_heatmap_monotone
    (metrics : list MatchedPair -> R * R) (matched_data : list MatchedPair)
    (e : entry) (radius' window' : R) :
  In e (create_sensitivity_heatmap metrics matched_data) ->
  In radius' spatial_radii -> In window' temporal_windows ->
  spatial_radius_km e <= radius' -> temporal_window_hours e <= window' ->
  exists e',
    In e' (create_sensitivity_heatmap metrics matched_data)
    /\ spatial_radius_km e' = radius'
    /\ temporal_window_hours e' = window'
    /\ (n_matches e <= n_matches e')%nat.
Proof.
  intros He Hr' Hw' Hr Hw.
  apply heatmap_In in He. destruct He as (_ & _ & Hn & He).
  assert (Hc : n_matches e
               = List.length (within matched_data (spatial_radius_km e)
                                     (temporal_window_hours e))).
  { rewrite He at 1. reflexivity. }
  pose proof (within_widen matched_data _ _ _ _ Hr Hw) as Hwid.
  exists {| spatial_radius_km := radius';
            temporal_window_hours := window';
            n_matches := List.length (within matched_data radius' window');
            r2 := fst (metrics (within matched_data radius' window'));
            rmse := snd (metrics (within matched_data radius' window')) |}.
  split.
  - apply heatmap_In. cbn. repeat split; try assumption. lia.
  - cbn. repeat split. lia.
Qed.

(** ** A concrete frame: eleven copies of a pair at distance 0 and time
    difference 0. *)
Definition eleven_pairs : list MatchedPair := repeat (pair_with 0 (Num 5)) 11.

Definition zero_metrics (l : list MatchedPair) : R * R := (0, 0).

Lemma within_eleven_pairs (radius window : R) :
  0 <= radius -> 0 <= window -> within eleven_pairs radius window = eleven_pairs.
Proof.
  intros Hr Hw. rewrite within_filter. unfold eleven_pairs.
  assert (E : Rleb (distance_km (pair_with 0 (Num 5))) radius
              && Rleb (time_diff_hours (pair_with 0 (Num 5))) window = true).
  { apply andb_true_iff. split; apply Rleb_true_iff; simpl; lra. }
  cbn [repeat filter]. rewrite !E. reflexivity.
Qed.

Definition first_cell : entry :=
  {| spatial_radius_km := 10; temporal_window_hours := 1; n_matches := 11;
     r2 := 0; rmse := 0 |}.

Lemma first_cell_reported : In first_cell (create_sensitivity_heatmap zero_metrics eleven_pairs).
Proof.
  apply heatmap_In. cbn [spatial_radius_km temporal_window_hours n_matches first_cell].
  rewrite within_eleven_pairs by lra.
  split; [now left|]. split; [now left|]. split; [lia|reflexivity].
Qed.

Lemma sensitivity_heatmap_entries_witness :
  In (spatial_radius_km first_cell) [10; 20; 30]
  /\ In (temporal_window_hours first_cell) [1; 3; 6]
  /\ n_matches first_cell
     = List.length
         (filter (fun mp => Rleb (distance_km mp) (spatial_radius_km first_cell)
                            && Rleb (time_diff_hours mp) (temporal_window_hours first_cell))
                 eleven_pairs)
  /\ (10 < n_matches first_cell <= List.length eleven_pairs)%nat.
Proof.
  apply (sensitivity_heatmap_entries zero_metrics eleven_pairs first_cell).
  exact first_cell_reported.
Defined.

Lemma sensitivity_heatmap_monotone_witness :
  exists e',
    In e' (create_sensitivity_heatmap zero_metrics eleven_pairs)
    /\ spatial_radius_km e' = 30
    /\ temporal_window_hours e' = 6
    /\ (n_matches first_cell <= n_matches e')%nat.
Proof.
  apply (sensitivity_heatmap_monotone zero_metrics eleven_pairs first_cell 30 6).
  - exact first_cell_reported.
  - right. right. now left.
  - right. right. now left.
  - simpl. lra.
  - simpl. lra.
Defined.

End Heatmap.

(* ================================================================== *)
(** * 18. Further facts: medians and the robust variance *)
(* ================================================================== *)

Module MedianFacts.
Import Np.
Local Open Scope Q_scope.

(** [a] is the finite value [b] moved down by [m]. *)
Definition shifted (m : Q) (a b : float) : Prop :=
  exists r d, a = Fin r /\ b = Fin d /\ r == d - m.

(** A finite value that is not negative. *)
Definition nonneg (a : float) : Prop := exists q, a = Fin q /\ 0 <= q.

Lemma Qle_bool_shift (m r r' d d' : Q) :
  r == d - m -> r' == d' - m -> Qle_bool r r' = Qle_bool d d'.
Proof.
  intros H H'.
  destruct (Qle_bool r r') eqn:E; destruct (Qle_bool d d') eqn:E'; try reflexivity.
  - apply Qle_bool_iff in E.
    assert (Hd : d <= d') by lra.
    apply Qle_bool_iff in Hd. congruence.
  - apply Qle_bool_iff in E'.
    assert (Hr : r <= r') by lra.
    apply Qle_bool_iff in Hr. congruence.
Qed.

Lemma fleb_shifted (m : Q) (a a' b b' : float) :
  shifted m a b -> shifted m a' b' -> fleb a a' = fleb b b'.
Proof.
  intros (r & d & -> & -> & H) (r' & d' & -> & -> & H'). simpl.
  now apply (Qle_bool_shift m).
Qed.

Lemma insert_sorted_shifted (m : Q) (a b : float) (s t : list float) :
  shifted m a b -> Forall2 (shifted m) s t ->
  Forall2 (shifted m) (insert_sorted a s) (insert_sorted b t).
Proof.
  intros Hab. induction 1 as [|a' b' s t Hab' Hst IH]; simpl.
  - repeat constructor. exact Hab.
  - rewrite (fleb_shifted m a a' b b' Hab Hab').
    destruct (fleb b b'); repeat constructor; assumption.
Qed.

Lemma np_sort_shifted (m : Q) (x y : list float) :
  Forall2 (shifted m) x y -> Forall2 (shifted m) (np_sort x) (np_sort y).
Proof.
  unfold np_sort. induction 1 as [|a b x y Hab _ IH]; simpl; [constructor|].
  now apply insert_sorted_shifted.
Qed.

Lemma nth_shifted (m : Q) (s t : list float) (k : nat) :
  Forall2 (shifted m) s t -> (k < List.length s)%nat ->
  shifted m (nth k s NaN) (nth k t NaN).
Proof.
  intros H. revert k. induction H as [|a b s t Hab _ IH]; intros k Hk; simpl in *; [lia|].
  destruct k as [|k]; [exact Hab|]. apply IH. lia.
Qed.

Lemma shifted_finite_l (m : Q) (x y : list float) :
  Forall2 (shifted m) x y -> Forall (fun f => isfinite f = true) x.
Proof.
  induction 1 as [|a b x y (r & d & -> & _ & _) _ IH]; constructor; [reflexivity|exact IH].
Qed.

Lemma shifted_finite_r (m : Q) (x y : list float) :
  Forall2 (shifted m) x y -> Forall (fun f => isfinite f = true) y.
Proof.
  induction 1 as [|a b x y (r & d & _ & -> & _) _ IH]; constructor; [reflexivity|exact IH].
Qed.

(** The median moves with the data: shifting every element down by [m]
    shifts the median down by [m]. *)
Lemma np_median_shifted (m : Q) (x y : list float) :
  x <> [] -> Forall2 (shifted m) x y -> shifted m (np_median x) (np_median y).
Proof.
  intros Hne H. unfold np_median.
  pose proof (Forall2_length H) as Hlen.
  rewrite (forall_finite_no_nan x (shifted_finite_l m x y H)).
  rewrite (forall_finite_no_nan y (shifted_finite_r m x y H)).
  rewrite <- Hlen.
  assert (Hn : (0 < List.length x)%nat) by (destruct x; [easy|simpl; lia]).
  replace (List.length x =? 0)%nat with false by (symmetry; apply Nat.eqb_neq; lia).
  pose proof (np_sort_shifted m x y H) as Hs.
  pose proof (np_sort_length x) as Hl.
  assert (Hhalf : (List.length x / 2 < List.length x)%nat) by (apply Nat.div_lt; lia).
  destruct (Nat.odd (List.length x)).
  - apply nth_shifted; [exact Hs|lia].
  - destruct (nth_shifted m _ _ (List.length x / 2 - 1) Hs) as (r1 & d1 & -> & -> & H1); [lia|].
    destruct (nth_shifted m _ _ (List.length x / 2) Hs) as (r2 & d2 & -> & -> & H2); [lia|].
    simpl. exists ((r1 + r2) / 2), ((d1 + d2) / 2).
    split; [reflexivity|]. split; [reflexivity|].
    rewrite H1, H2. field.
Qed.

Lemma insert_sorted_Forall (P : float -> Prop) (a : float) (s : list float) :
  P a -> Forall P s -> Forall P (insert_sorted a s).
Proof.
  intros Ha. induction 1 as [|b s Hb Hs IH]; simpl; [now repeat constructor|].
  destruct (fleb a b); repeat constructor; assumption.
Qed.

Lemma np_sort_Forall (P : float -> Prop) (x : list float) :
  Forall P x -> Forall P (np_sort x).
Proof.
  unfold np_sort. induction 1 as [|a x Ha _ IH]; simpl; [constructor|].
  now apply insert_sorted_Forall.
Qed.

Lemma nonneg_finite (x : list float) :
  Forall nonneg x -> Forall (fun f => isfinite f = true) x.
Proof. induction 1 as [|a x (q & -> & _) _ IH]; constructor; [reflexivity|exact IH]. Qed.

(** The median of values that are not negative is not negative. *)
Lemma np_median_nonneg (x : list float) :
  x <> [] -> Forall nonneg x -> nonneg (np_median x).
Proof.
  intros Hne H. unfold np_median.
  rewrite (forall_finite_no_nan x (nonneg_finite x H)).
  assert (Hn : (0 < List.length x)%nat) by (destruct x; [easy|simpl; lia]).
  replace (List.length x =? 0)%nat with false by (symmetry; apply Nat.eqb_neq; lia).
  pose proof (np_sort_Forall nonneg x H) as Hs.
  pose proof (np_sort_length x) as Hl.
  assert (Hhalf : (List.length x / 2 < List.length x)%nat) by (apply Nat.div_lt; lia).
  rewrite Forall_forall in Hs.
  destruct (Nat.odd (List.length x)).
  - apply Hs, nth_In. lia.
  - destruct (Hs (nth (List.length x / 2 - 1) (np_sort x) NaN)) as (q1 & -> & H1);
      [apply nth_In; lia|].
    destruct (Hs (nth (List.length x / 2) (np_sort x) NaN)) as (q2 & -> & H2);
      [apply nth_In; lia|].
    simpl. exists ((q1 + q2) / 2). split; [reflexivity|].
    apply Qle_shift_div_l; lra.
Qed.

End MedianFacts.

Module DemingFacts.
Import Np Deming MedianFacts.
Local Open Scope Q_scope.

(** The least value [robust_var] can take: the square of the scaled
    offset added to the median absolute deviation. *)
Definition robust_var_floor : Q := (1.4826 * 1e-9) * (1.4826 * 1e-9).

(** X18.  On a non-empty finite array [robust_var] is a number, and it is
    strictly positive: never below [(1.4826e-9)^2]. *)
Theorem robust_var_positive (xq : list Q) :
  xq <> [] ->
  exists v, robust_var (map Fin xq) = Fin v /\ 0 < robust_var_floor /\ robust_var_floor <= v.
Proof.
  intros Hne. unfold robust_var.
  destruct (np_median_finite (map Fin xq)) as [m ->].
  { destruct xq; [easy|discriminate]. }
  { apply forall_finite_map_Fin. }
  rewrite map_map. cbn [fsub fneg fadd fabs].
  destruct (np_median_nonneg (map (fun x : Q => Fin (Qabs (x + - m))) xq))
    as (mad & -> & Hmad).
  { destruct xq; [easy|discriminate]. }
  { apply Forall_forall. intros f Hf. apply in_map_iff in Hf.
    destruct Hf as (q & <- & _). exists (Qabs (q + - m)).
    split; [reflexivity|apply Qabs_nonneg]. }
  cbn [fadd fmul fpow2].
  eexists. split; [reflexivity|]. unfold robust_var_floor.
  split; [reflexivity|].
  assert (Hk : 0 < 1.4826) by reflexivity.
  assert (He : 0 < 1e-9) by reflexivity.
  set (k := 1.4826) in *. set (e := 1e-9) in *. clearbody k e.
  assert (Hab : 0 <= k * e <= k * (mad + e)).
  { split; [apply Qmult_le_0_compat; lra|].
    apply (Qmult_le_l _ _ _ Hk). lra. }
  now apply Qmult_le_compat_nonneg.
Qed.

Lemma robust_var_positive_witness :
  exists v, robust_var (map Fin [1; 2; 4]) = Fin v
            /\ 0 < robust_var_floor /\ robust_var_floor <= v.
Proof. apply robust_var_positive. discriminate. Defined.

(** X19.  [robust_var] does not change when a constant is added to every
    element of a non-empty finite array. *)
Theorem robust_var_shift_invariant (xq : list Q) (c : Q) :
  xq <> [] ->
  exists v v',
    robust_var (map Fin xq) = Fin v
    /\ robust_var (map (fun q => Fin (q + c)) xq) = Fin v'
    /\ v == v'.
Proof.
  intros Hne. unfold robust_var.
  assert (Hx : Forall2 (shifted c) (map Fin xq) (map (fun q => Fin (q + c)) xq)).
  { clear Hne. induction xq as [|q xq IH]; simpl; constructor; [|exact IH].
    exists q, (q + c). split; [reflexivity|]. split; [reflexivity|]. ring. }
  assert (Hne1 : map Fin xq <> []) by (destruct xq; [easy|discriminate]).
  destruct (np_median_shifted c _ _ Hne1 Hx) as (m & m' & -> & -> & Hm).
  rewrite !map_map. cbn [fsub fneg fadd fabs].
  assert (Hd : Forall2 (shifted 0)
                 (map (fun x : Q => Fin (Qabs (x + - m))) xq)
                 (map (fun x : Q => Fin (Qabs (x + c + - m'))) xq)).
  { clear Hne Hx Hne1. induction xq as [|q xq IH]; cbn [map]; constructor; [|exact IH].
    eexists _, _. split; [reflexivity|]. split; [reflexivity|].
    assert (E : q + - m == q + c + - m') by (rewrite Hm; ring).
    rewrite (Qabs_wd _ _ E). generalize (Qabs (q + c + - m')). intros z. ring. }
  assert (Hne2 : map (fun x : Q => Fin (Qabs (x + - m))) xq <> [])
    by (destruct xq; [easy|discriminate]).
  destruct (np_median_shifted 0 _ _ Hne2 Hd) as (a & a' & -> & -> & Ha).
  cbn [fadd fmul fpow2].
  eexists _, _. split; [reflexivity|]. split; [reflexivity|].
  rewrite Ha. ring.
Qed.

Lemma robust_var_shift_invariant_witness :
  exists v v',
    robust_var (map Fin [1; 2; 4]) = Fin v
    /\ robust_var (map (fun q => Fin (q + 10)) [1; 2; 4]) = Fin v'
    /\ v == v'.
Proof. apply robust_var_shift_invariant. discriminate. Defined.

End DemingFacts.

(* ================================================================== *)
(** * 19. Further facts: leave-one-city-out *)
(* ================================================================== *)

Module LocoFacts.
Import Np Deming Loco Grouping.

Lemma cities_NoDup (l : list string) : NoDup (unique l).
Proof.
  induction l as [|x l IH]; simpl; constructor.
  - intros H. apply filter_In in H. destruct H as [_ H].
    rewrite String.eqb_refl in H. discriminate.
  - now apply NoDup_filter.
Qed.

(** Every row is either in the training part or in the test part. *)
Lemma train_test_length (matched_data : list MatchedRow) (c : string) :
  (List.length (train_of matched_data c) + List.length (test_of matched_data c)
   = List.length matched_data)%nat.
Proof.
  unfold train_of, test_of.
  induction matched_data as [|r l IH]; simpl; [reflexivity|].
  destruct (String.eqb (city r) c); simpl; lia.
Qed.

Section WithLibraries.

Variable np_sqrt : float -> float.
Variable minimize : (float * float -> float) -> float * float -> result (float * float).

Lemma loco_city_shape (matched_data : list MatchedRow) (c : string)
    (o : list (string * loco_result)) :
  loco_city np_sqrt minimize matched_data c = Ok o ->
  o = [] \/ exists r, o = [(c, r)].
Proof.
  unfold loco_city.
  destruct ((List.length (train_of matched_data c) <? 10)%nat
            || (List.length (test_of matched_data c) <? 5)%nat).
  { intros [= <-]. now left. }
  destruct (snd (deming_regression minimize _ _ None)) as [fitted|e]; cbn [bind];
    [|discriminate].
  destruct (mean_squared_error _ _) as [m_raw|e]; cbn [bind]; [|discriminate].
  destruct (mean_squared_error _ _) as [m_cal|e]; cbn [bind]; [|discriminate].
  match goal with
  | |- context [try_except ?b ?h] => destruct (try_except b h) as [others|e]
  end; cbn [bind]; [|discriminate].
  intros [= <-]. right. eauto.
Qed.

Lemma for_each_keys (matched_data : list MatchedRow) (cities : list string)
    (results : list (string * loco_result)) :
  for_each (loco_city np_sqrt minimize matched_data) cities = Ok results ->
  NoDup cities ->
  NoDup (map fst results) /\ incl (map fst results) cities.
Proof.
  revert results. induction cities as [|c cities IH]; intros results; simpl.
  - intros [= <-] _. split; [constructor|easy].
  - destruct (loco_city np_sqrt minimize matched_data c) as [o|e] eqn:Ho; [|discriminate].
    cbn [bind].
    destruct (for_each (loco_city np_sqrt minimize matched_data) cities) as [rest|e];
      [|discriminate].
    cbn [bind]. intros [= <-] Hnd. inversion Hnd as [|x l Hc Hnd']; subst.
    destruct (IH rest eq_refl Hnd') as [Hk Hincl].
    destruct (loco_city_shape _ _ _ Ho) as [->|[r ->]]; simpl.
    + split; [exact Hk|]. intros k Hin. right. now apply Hincl.
    + split.
      * constructor; [|exact Hk]. intros Hin. apply Hc. now apply Hincl.
      * intros k [<-|Hin]; [now left|right; now apply Hincl].
Qed.

(** X20.  With fewer than fifteen pairs in all, no city can be held out: the
    validation returns an empty result and calls no fit. *)
Theorem loco_validation_needs_fifteen_pairs (matched_data : list MatchedRow) :
  (List.length matched_data < 15)%nat ->
  loco_validation np_sqrt minimize matched_data = Ok [].
Proof.
  intros Hlen. unfold loco_validation. cbv zeta.
  rewrite (for_each_ok _ (fun _ => [])).
  - induction (unique (map city matched_data)); simpl; [reflexivity|assumption].
  - intros c _. unfold loco_city.
    pose proof (train_test_length matched_data c) as Hsum.
    replace ((List.length (train_of matched_data c) <? 10)%nat
             || (List.length (test_of matched_data c) <? 5)%nat) with true; [reflexivity|].
    symmetry. apply orb_true_iff.
    destruct (Nat.ltb_spec (List.length (train_of matched_data c)) 10) as [H|H];
      [now left|right]. apply Nat.ltb_lt. lia.
Qed.

(** X21.  When the validation returns, each city is reported at most once, the
    training and test sizes of every entry add up to the whole frame, and
    there are at most a fifth as many entries as pairs. *)
Theorem loco_validation_entries (matched_data : list MatchedRow)
    (results : list (string * loco_result)) :
  loco_validation np_sqrt minimize matched_data = Ok results ->
  NoDup (map fst results)
  /\ (forall c r, In (c, r) results ->
        (n_train r + n_test r = List.length matched_data)%nat)
  /\ (5 * List.length results <= List.length matched_data)%nat.
Proof.
  intros Hres.
  assert (Hentry : forall c r, In (c, r) results ->
             (5 <= List.length (test_of matched_data c))%nat
             /\ n_train r = List.length (train_of matched_data c)
             /\ n_test r = List.length (test_of matched_data c)).
  { intros c r Hin. unfold loco_validation in Hres.
    destruct (for_each_In _ _ _ _ Hres Hin) as (tc & o & _ & Ho & Hio).
    destruct (loco_city_entry np_sqrt minimize matched_data tc o c r Ho Hio)
      as (_ & _ & Hte & Hntr & Hnte & _).
    auto. }
  destruct (for_each_keys matched_data _ results Hres (cities_NoDup _)) as [Hnd _].
  split; [exact Hnd|]. split.
  - intros c r Hin. destruct (Hentry c r Hin) as (_ & -> & ->).
    apply train_test_length.
  - pose proof (partition_length_le city matched_data (map fst results) Hnd) as Hpart.
    eapply Nat.le_trans; [|exact Hpart].
    clear Hpart Hnd Hres.
    induction results as [|[c r] results IH]; simpl; [lia|].
    rewrite length_app.
    destruct (Hentry c r (or_introl eq_refl)) as (H5 & _ & _).
    unfold test_of in H5.
    assert (IH' : (5 * List.length results
                   <= List.length
                        (flat_map (fun k => filter (fun e => String.eqb (city e) k) matched_data)
                                  (map fst results)))%nat).
    { apply IH. intros c' r' Hin. apply Hentry. now right. }
    lia.
Qed.

End WithLibraries.

Lemma loco_validation_needs_fifteen_pairs_witness :
  loco_validation sqrt_on_squares minimize_at_start
    (map (fun g => row "Toronto" g (g + 2)) [1%Q; 2%Q; 3%Q])
  = Ok [].
Proof. apply loco_validation_needs_fifteen_pairs. simpl. lia. Defined.

Lemma loco_validation_entries_witness :
  exists r,
    loco_validation sqrt_on_squares minimize_at_start sample_pairs = Ok [("Boston"%string, r)]
    /\ NoDup (map fst [("Boston"%string, r)])
    /\ (forall c r', In (c, r') [("Boston"%string, r)] ->
          (n_train r' + n_test r' = List.length sample_pairs)%nat)
    /\ (5 * List.length [("Boston"%string, r)] <= List.length sample_pairs)%nat.
Proof.
  destruct loco_sample_run as (r & Hrun & _).
  exists r. split; [exact Hrun|].
  exact (loco_validation_entries sqrt_on_squares minimize_at_start sample_pairs _ Hrun).
Defined.

End LocoFacts.

(* ================================================================== *)
(** * 20. Further facts: quantile mapping *)
(* ================================================================== *)

Module QuantileFacts.
Import Np Quantile.
Local Open Scope Q_scope.

Lemma np_quantiles_length (a qs : list Q) (vs : list Q) :
  np_quantiles a qs = Ok vs -> List.length vs = List.length qs.
Proof.
  revert vs. induction qs as [|q qs IH]; intros vs; simpl.
  - now intros [= <-].
  - destruct (np_quantile a q) as [v|e]; [|discriminate]. cbn [bind].
    destruct (np_quantiles a qs) as [vs'|e]; [|discriminate]. cbn [bind].
    intros [= <-]. simpl. now rewrite (IH vs').
Qed.

Lemma np_quantiles_returns (a qs : list Q) :
  a <> [] -> exists vs, np_quantiles a qs = Ok vs.
Proof.
  intros Hne. induction qs as [|q qs [vs IH]]; simpl; [eauto|].
  destruct a as [|x a]; [easy|]. cbn [np_quantile bind]. rewrite IH. cbn [bind]. eauto.
Qed.

Lemma np_quantiles_empty (q : Q) (qs : list Q) :
  np_quantiles [] (q :: qs) = Raise IndexError.
Proof. reflexivity. Qed.

(** With three anchors on each side [map_value] returns a float for
    every input: a zero divisor gives NaN or an infinity, no exception. *)
Lemma map_value_returns (g0 g1 g2 t0 t1 t2 x : Q) :
  exists v, map_value [g0; g1; g2] [t0; t1; t2] x = Ok v.
Proof.
  unfold map_value. cbn [item nth_error bind].
  destruct (Qle_bool x t0); [eauto|].
  destruct (Qle_bool x t2); [|eauto].
  unfold np_interp. cbn [List.length Nat.eqb negb combine List.last fst snd].
  destruct (Qltb t2 x); [eauto|].
  destruct (Qltb x t0); eauto.
Qed.

Lemma map_values_returns (g0 g1 g2 t0 t1 t2 : Q) (xs : list Q) :
  exists vs, map_values [g0; g1; g2] [t0; t1; t2] xs = Ok vs
             /\ List.length vs = List.length xs.
Proof.
  induction xs as [|x xs (vs & IH & Hlen)]; simpl; [now exists []|].
  destruct (map_value_returns g0 g1 g2 t0 t1 t2 x) as [v ->]. cbn [bind].
  rewrite IH. cbn [bind]. exists (v :: vs). simpl. now rewrite Hlen.
Qed.

(** X22.  [quantile_mapping] returns on non-empty arrays, with one mapped value
    per satellite value and three anchors on each side; it raises
    [IndexError] when either array is empty. *)
Theorem quantile_mapping_returns_or_raises (ground tempo : list Q) :
  (ground <> [] -> tempo <> [] ->
   exists tempo_mapped params,
     quantile_mapping ground tempo = Ok (tempo_mapped, params)
     /\ List.length tempo_mapped = List.length tempo
     /\ List.length (ground_quantiles params) = 3%nat
     /\ List.length (tempo_quantiles params) = 3%nat)
  /\ (ground = [] \/ tempo = [] -> quantile_mapping ground tempo = Raise IndexError).
Proof.
  split.
  - intros Hg Ht. unfold quantile_mapping. cbv zeta.
    destruct (np_quantiles_returns ground [0.1; 0.5; 0.9] Hg) as [gq Hgq].
    destruct (np_quantiles_returns tempo [0.1; 0.5; 0.9] Ht) as [tq Htq].
    pose proof (np_quantiles_length _ _ _ Hgq) as Lg.
    pose proof (np_quantiles_length _ _ _ Htq) as Lt.
    rewrite Hgq, Htq. cbn [bind].
    destruct gq as [|g0 [|g1 [|g2 [|? ?]]]]; try discriminate Lg.
    destruct tq as [|t0 [|t1 [|t2 [|? ?]]]]; try discriminate Lt.
    destruct (map_values_returns g0 g1 g2 t0 t1 t2 tempo) as (vs & -> & Hlen).
    cbn [bind]. eexists _, _. split; [reflexivity|]. now repeat split.
  - intros [-> | ->]; unfold quantile_mapping; cbv zeta.
    + reflexivity.
    + destruct ground as [|g ground]; [reflexivity|].
      destruct (np_quantiles_returns (g :: ground) [0.1; 0.5; 0.9]) as [gq ->];
        [discriminate|reflexivity].
Qed.

(** X23.  The mapping sends anchor to anchor: for strictly increasing satellite
    anchors with a non-zero first one, the 10th, 50th and 90th percentile
    of the satellite values are mapped to those of the ground values. *)
Theorem map_value_sends_anchors_to_anchors (g0 g1 g2 t0 t1 t2 : Q) :
  t0 < t1 -> t1 < t2 -> ~ t0 == 0 ->
  (exists v, map_value [g0; g1; g2] [t0; t1; t2] t0 = Ok (Fin v) /\ v == g0)
  /\ map_value [g0; g1; g2] [t0; t1; t2] t1 = Ok (Fin g1)
  /\ map_value [g0; g1; g2] [t0; t1; t2] t2 = Ok (Fin g2).
Proof.
  intros H01 H12 H0.
  assert (E00 : Qle_bool t0 t0 = true) by (apply Qle_bool_iff; apply Qle_refl).
  assert (E10 : Qle_bool t1 t0 = false).
  { destruct (Qle_bool t1 t0) eqn:E; [|reflexivity]. apply Qle_bool_iff in E. lra. }
  assert (E20 : Qle_bool t2 t0 = false).
  { destruct (Qle_bool t2 t0) eqn:E; [|reflexivity]. apply Qle_bool_iff in E. lra. }
  assert (E12 : Qle_bool t1 t2 = true) by (apply Qle_bool_iff; lra).
  assert (E22 : Qle_bool t2 t2 = true) by (apply Qle_bool_iff; apply Qle_refl).
  assert (E11 : Qle_bool t1 t1 = true) by (apply Qle_bool_iff; apply Qle_refl).
  assert (E21 : Qle_bool t2 t1 = false).
  { destruct (Qle_bool t2 t1) eqn:E; [|reflexivity]. apply Qle_bool_iff in E. lra. }
  assert (E01 : Qle_bool t0 t1 = true) by (apply Qle_bool_iff; lra).
  assert (E02 : Qle_bool t0 t2 = true) by (apply Qle_bool_iff; lra).
  split; [|split].
  - unfold map_value. cbn [item nth_error bind]. rewrite E00.
    cbn [fdiv fmul]. rewrite (Qeq_bool_nonzero_false t0 H0).
    eexists. split; [reflexivity|]. field. exact H0.
  - unfold map_value. cbn [item nth_error bind]. rewrite E10, E12.
    unfold np_interp. cbn [List.length Nat.eqb negb combine List.last fst snd].
    unfold Qltb. rewrite E12, E01. cbn [negb interp_from].
    unfold Qltb. rewrite E11, E21. cbn [negb].
    assert (Eq : Qeq_bool t1 t1 = true) by (apply Qeq_bool_iff; reflexivity).
    now rewrite Eq.
  - unfold map_value. cbn [item nth_error bind]. rewrite E20, E22.
    unfold np_interp. cbn [List.length Nat.eqb negb combine List.last fst snd].
    unfold Qltb. rewrite E22, E02. cbn [negb interp_from].
    unfold Qltb. rewrite E12, E22. cbn [negb]. reflexivity.
Qed.

Lemma map_value_sends_anchors_to_anchors_witness :
  (exists v, map_value [10; 20; 40] [1; 2; 3] 1 = Ok (Fin v) /\ v == 10)
  /\ map_value [10; 20; 40] [1; 2; 3] 2 = Ok (Fin 20)
  /\ map_value [10; 20; 40] [1; 2; 3] 3 = Ok (Fin 40).
Proof.
  apply (map_value_sends_anchors_to_anchors 10 20 40 1 2 3); [reflexivity|reflexivity|].
  intros H. discriminate H.
Defined.

(** X24.  When the 10th percentile of the satellite values is zero, a
    satellite value of zero is mapped to NaN and every negative one to
    an infinite value or NaN: the low branch divides by that percentile. *)
Theorem map_value_zero_low_anchor (g0 g1 g2 t1 t2 x : Q) :
  x <= 0 ->
  exists v, map_value [g0; g1; g2] [0; t1; t2] x = Ok v /\ isfinite v = false.
Proof.
  intros Hx. unfold map_value. cbn [item nth_error bind].
  apply Qle_bool_iff in Hx. rewrite Hx.
  eexists. split; [reflexivity|].
  cbn [fdiv]. change (Qeq_bool 0 0) with true. cbv iota.
  destruct (Qeq_bool x 0); [reflexivity|].
  unfold inf_of_sign. destruct (Qltb 0 x); cbn [fmul];
    destruct (Qeq_bool g0 0); try reflexivity;
    unfold inf_of_sign; match goal with |- context [Qltb ?a ?b] => destruct (Qltb a b) end;
    reflexivity.
Qed.

Lemma map_value_zero_low_anchor_witness :
  exists v, map_value [10; 20; 40] [0; 2; 3] 0 = Ok v /\ isfinite v = false.
Proof. apply map_value_zero_low_anchor. discriminate. Defined.

End QuantileFacts.

(* ================================================================== *)
(** * 21. Further facts: city-specific bias correction *)
(* ================================================================== *)

Module Bias.
Import Np MedianFacts.
Local Open Scope Q_scope.

(** The columns of the matched frame the correction reads. *)
Record MatchedRow : Type := {
  city : string;
  ground_value : float;
  tempo_o3 : float
}.

(** [Series.unique()]: distinct values in order of first appearance. *)
Fixpoint unique (l : list string) : list string :=
  match l with
  | [] => []
  | x :: l' => x :: filter (fun y => negb (String.eqb y x)) (unique l')
  end.

(** [corrected_data.loc[mask, column] = values] on a frame with a unique
    index: the rows under the mask take the values, in order; the other
    rows keep what they hold. *)
Fixpoint loc_assign (mask : list bool) (values column : list float) : list float :=
  match mask, column with
  | true :: mask', _ :: column' =>
      match values with
      | v :: values' => v :: loc_assign mask' values' column'
      | [] => NaN :: loc_assign mask' [] column'
      end
  | false :: mask', old :: column' => old :: loc_assign mask' values column'
  | _, _ => column
  end.

(** The body of the loop for one city, acting on the new column. *)
Definition correct_city (matched_data : list MatchedRow) (c : string)
    (column : list float) : list float :=
  let city_mask := map (fun r => String.eqb (city r) c) matched_data in
  let city_data := filter (fun r => String.eqb (city r) c) matched_data in
  if (10 <? List.length city_data)%nat then
    let bias :=
      np_median (map (fun r => fsub (ground_value r) (tempo_o3 r)) city_data) in
    loc_assign city_mask (map (fun r => fadd (tempo_o3 r) bias) city_data) column
  else
    loc_assign city_mask (map tempo_o3 city_data) column.

(** [apply_bias_correction(matched_data)]: the column
    [tempo_o3_corrected] of the returned frame, row by row; a row not yet
    assigned holds NaN. *)
Definition apply_bias_correction (matched_data : list MatchedRow) : list float :=
  fold_left (fun column c => correct_city matched_data c column)
            (unique (map city matched_data))
            (repeat NaN (List.length matched_data)).

(** ** Facts *)

(** The rows of one city, and the value the loop stores for a row. *)
Definition rows_of (matched_data : list MatchedRow) (c : string) : list MatchedRow :=
  filter (fun r => String.eqb (city r) c) matched_data.

Definition bias_of (matched_data : list MatchedRow) (c : string) : float :=
  np_median (map (fun r => fsub (ground_value r) (tempo_o3 r)) (rows_of matched_data c)).

Definition corrected_of (matched_data : list MatchedRow) (r : MatchedRow) : float :=
  if (10 <? List.length (rows_of matched_data (city r)))%nat
  then fadd (tempo_o3 r) (bias_of matched_data (city r))
  else tempo_o3 r.

Lemma loc_assign_map (p : MatchedRow -> bool) (f h : MatchedRow -> float)
    (l : list MatchedRow) :
  loc_assign (map p l) (map f (filter p l)) (map h l)
  = map (fun r => if p r then f r else h r) l.
Proof.
  induction l as [|r l IH]; simpl; [reflexivity|].
  destruct (p r); simpl; now rewrite IH.
Qed.

Lemma unique_complete (l : list string) (c : string) : In c l -> In c (unique l).
Proof.
  induction l as [|x l IH]; simpl; [easy|].
  intros [->|H]; [now left|].
  destruct (String.eqb c x) eqn:E.
  - apply String.eqb_eq in E. now left.
  - right. apply filter_In. split; [now apply IH|]. now rewrite E.
Qed.

(** The column after the cities in [done] have been processed. *)
Definition partial (matched_data : list MatchedRow) (done : list string)
    (r : MatchedRow) : float :=
  if existsb (String.eqb (city r)) done then corrected_of matched_data r else NaN.

Lemma correct_city_step (matched_data : list MatchedRow) (done : list string) (c : string) :
  correct_city matched_data c (map (partial matched_data done) matched_data)
  = map (partial matched_data (done ++ [c])) matched_data.
Proof.
  unfold correct_city. cbv zeta.
  assert (Hrow : forall r,
             (if String.eqb (city r) c then corrected_of matched_data r
              else partial matched_data done r)
             = partial matched_data (done ++ [c]) r).
  { intros r. unfold partial. rewrite existsb_app. simpl. rewrite orb_false_r.
    destruct (String.eqb (city r) c); [now rewrite orb_true_r|now rewrite orb_false_r]. }
  destruct (10 <? List.length (filter (fun r => String.eqb (city r) c) matched_data))%nat
    eqn:E.
  - rewrite (loc_assign_map (fun r => String.eqb (city r) c)).
    apply map_ext_in. intros r _. rewrite <- Hrow.
    destruct (String.eqb (city r) c) eqn:Ec; [|reflexivity].
    apply String.eqb_eq in Ec. unfold corrected_of, bias_of, rows_of.
    rewrite Ec, E. reflexivity.
  - rewrite (loc_assign_map (fun r => String.eqb (city r) c)).
    apply map_ext_in. intros r _. rewrite <- Hrow.
    destruct (String.eqb (city r) c) eqn:Ec; [|reflexivity].
    apply String.eqb_eq in Ec. unfold corrected_of, rows_of.
    rewrite Ec, E. reflexivity.
Qed.

Lemma fold_correct_city (matched_data : list MatchedRow) (cities done : list string) :
  fold_left (fun column c => correct_city matched_data c column) cities
            (map (partial matched_data done) matched_data)
  = map (partial matched_data (done ++ cities)) matched_data.
Proof.
  revert done. induction cities as [|c cities IH]; intros done; simpl.
  - now rewrite app_nil_r.
  - rewrite correct_city_step, IH. now rewrite <- app_assoc.
Qed.

(** The loop, row by row: every row ends with the value computed from
    the rows of its own city. *)
Lemma apply_bias_correction_rows (matched_data : list MatchedRow) :
  apply_bias_correction matched_data = map (corrected_of matched_data) matched_data.
Proof.
  unfold apply_bias_correction.
  replace (repeat NaN (List.length matched_data))
    with (map (partial matched_data []) matched_data).
  - rewrite fold_correct_city. simpl. apply map_ext_in. intros r Hr.
    unfold partial.
    replace (existsb (String.eqb (city r)) (unique (map city matched_data))) with true;
      [reflexivity|].
    symmetry. apply existsb_exists. exists (city r).
    split; [|apply String.eqb_refl].
    apply unique_complete, in_map, Hr.
  - induction matched_data as [|r l IH]; simpl; [reflexivity|]. now f_equal.
Qed.

(** The residuals [ground_value - tempo_o3_corrected] of one city in the
    corrected frame. *)
Definition residuals_of (matched_data : list MatchedRow) (c : string) : list float :=
  map (fun rc => fsub (ground_value (fst rc)) (snd rc))
      (filter (fun rc => String.eqb (city (fst rc)) c)
              (combine matched_data (apply_bias_correction matched_data))).

Definition finite_row (r : MatchedRow) : Prop :=
  isfinite (ground_value r) = true /\ isfinite (tempo_o3 r) = true.

Lemma filter_combine_map (p : MatchedRow -> bool) (f : MatchedRow -> float)
    (l : list MatchedRow) :
  filter (fun rc => p (fst rc)) (combine l (map f l))
  = map (fun r => (r, f r)) (filter p l).
Proof.
  induction l as [|r l IH]; simpl; [reflexivity|].
  destruct (p r); simpl; now rewrite IH.
Qed.

(** X25.  The correction keeps one value per row, and in a city with more
    than ten pairs, all finite, the median of the residuals
    [ground_value - tempo_o3_corrected] is zero after the correction. *)
Theorem bias_correction_centres_each_city (matched_data : list MatchedRow) (c : string) :
  (10 < List.length (rows_of matched_data c))%nat ->
  Forall finite_row (rows_of matched_data c) ->
  List.length (apply_bias_correction matched_data) = List.length matched_data
  /\ exists m, np_median (residuals_of matched_data c) = Fin m /\ m == 0.
Proof.
  intros Hn Hfin.
  split; [now rewrite apply_bias_correction_rows, length_map|].
  unfold residuals_of. rewrite apply_bias_correction_rows.
  rewrite (filter_combine_map (fun r => String.eqb (city r) c)), map_map. cbn [fst snd].
  fold (rows_of matched_data c).
  set (rows := rows_of matched_data c) in *.
  set (diffs := map (fun r => fsub (ground_value r) (tempo_o3 r)) rows).
  assert (Hne : rows <> []) by (destruct rows; [simpl in Hn; lia|discriminate]).
  assert (Hdf : Forall (fun f => isfinite f = true) diffs).
  { unfold diffs. apply Forall_forall. intros f Hf. apply in_map_iff in Hf.
    destruct Hf as (r & <- & Hr). rewrite Forall_forall in Hfin.
    destruct (Hfin r Hr) as [Hg Ht].
    destruct (ground_value r); try discriminate.
    destruct (tempo_o3 r); try discriminate. reflexivity. }
  destruct (np_median_finite diffs) as [b Hb].
  { unfold diffs. destruct rows; [easy|discriminate]. }
  { exact Hdf. }
  assert (Hcity : forall r, In r rows -> corrected_of matched_data r = fadd (tempo_o3 r) (Fin b)).
  { intros r Hr. unfold rows, rows_of in Hr. apply filter_In in Hr.
    destruct Hr as [_ Hc]. apply String.eqb_eq in Hc.
    unfold corrected_of, bias_of. rewrite Hc. fold rows. fold diffs. rewrite Hb.
    apply Nat.ltb_lt in Hn. now rewrite Hn. }
  assert (Hsh : Forall2 (shifted b)
                  (map (fun r => fsub (ground_value r) (corrected_of matched_data r)) rows)
                  diffs).
  { unfold diffs. clear Hdf Hb Hne Hn.
    induction rows as [|r rows' IH]; simpl; constructor.
    - rewrite (Hcity r (or_introl eq_refl)).
      inversion Hfin as [|? ? [Hg Ht] _]; subst.
      destruct (ground_value r) as [g| | |]; try discriminate.
      destruct (tempo_o3 r) as [t| | |]; try discriminate.
      simpl. eexists _, _. split; [reflexivity|]. split; [reflexivity|]. ring.
    - apply IH.
      + now inversion Hfin.
      + intros r' Hr'. apply Hcity. now right. }
  assert (Hne' : map (fun r => fsub (ground_value r) (corrected_of matched_data r)) rows
                 <> []) by (destruct rows; [easy|discriminate]).
  destruct (np_median_shifted b _ _ Hne' Hsh) as (m & d & Hm & Hd & Hmd).
  rewrite Hb in Hd. injection Hd as <-.
  exists m. split; [exact Hm|]. rewrite Hmd. ring.
Qed.

(** Eleven pairs in one city, the satellite reading 3 below the ground. *)
Definition sample_rows : list MatchedRow :=
  map (fun g => {| city := "Boston"; ground_value := Fin g; tempo_o3 := Fin (g - 3) |})
      [1; 2; 3; 4; 5; 6; 7; 8; 9; 10; 11].

Lemma bias_correction_centres_each_city_witness :
  List.length (apply_bias_correction sample_rows) = List.length sample_rows
  /\ exists m, np_median (residuals_of sample_rows "Boston") = Fin m /\ m == 0.
Proof.
  apply bias_correction_centres_each_city.
  - vm_compute. lia.
  - repeat constructor.
Defined.

End Bias.

(* ================================================================== *)
(** * 22. Further facts: the region-wise driver *)
(* ================================================================== *)

Module Perform.
Import Pandas Region.
Local Open Scope R_scope.

(** [tempo_data]: a dict from region key to frame. *)
Definition TempoData : Type := list (string * TempoFrame).

Fixpoint dict_get (d : TempoData) (k : string) : option TempoFrame :=
  match d with
  | [] => None
  | (k', v) :: d' => if String.eqb k' k then Some v else dict_get d' k
  end.

(** [tempo_region_map.get(region)]. *)
Definition tempo_region_map (region : string) : option string :=
  if String.eqb region "Canada" then Some "CANADA"%string
  else if String.eqb region "NYC" then Some "NYC"%string
  else if String.eqb region "Mexico" then Some "MEXICO"%string
  else None.

(** The values of the [region] column that are not missing. *)
Definition region_values (ground_data : Series GroundRow) : list string :=
  flat_map (fun e => match g_region (snd e) with Some s => [s] | None => [] end) ground_data.

Definition in_region (region : string) (e : nat * GroundRow) : bool :=
  match g_region (snd e) with
  | Some s => String.eqb s region
  | None => false
  end.

(** [tempo_region['datetime'] = ...]: the frame gains the column. *)
Definition with_datetime (F : TempoFrame) : TempoFrame :=
  {| columns := if has_column "datetime" (columns F) then columns F
                else columns F ++ ["datetime"%string];
     rows := rows F |}.

(** The body of the loop for one region. *)
Definition match_one_region (ground_data : Series GroundRow) (tempo_data : TempoData)
    (region : string) : result (list MatchedPair) :=
  let ground_region := filter (in_region region) ground_data in
  match tempo_region_map region with
  | None => Ok []
  | Some tempo_region_name =>
      match dict_get tempo_data tempo_region_name with
      | None => Ok []
      | Some F =>
          let tempo_region := with_datetime F in
          if (List.length ground_region =? 0)%nat || (List.length (rows tempo_region) =? 0)%nat
          then Ok []
          else match_region_temporally_and_spatially ground_region tempo_region
      end
  end.

(** [perform_spatial_temporal_matching(ground_data, tempo_data)]: the
    rows of the returned frame.  A missing region value selects no row
    and has no key, so its iteration appends nothing. *)
Definition perform_spatial_temporal_matching (ground_data : Series GroundRow)
    (tempo_data : TempoData) : result (list MatchedPair) :=
  for_each (match_one_region ground_data tempo_data)
           (unique (region_values ground_data)).

(** ** Facts *)

Definition pairs_of_region (ground_data : Series GroundRow) (tempo_data : TempoData)
    (region : string) : list MatchedPair :=
  match match_one_region ground_data tempo_data region with
  | Ok l => l
  | Raise _ => []
  end.

Lemma match_one_region_total (ground_data : Series GroundRow) (tempo_data : TempoData)
    (region : string) :
  match_one_region ground_data tempo_data region
  = Ok (pairs_of_region ground_data tempo_data region).
Proof.
  unfold pairs_of_region, match_one_region. cbv zeta.
  destruct (tempo_region_map region) as [name|]; [|reflexivity].
  destruct (dict_get tempo_data name) as [F|]; [|reflexivity].
  destruct ((List.length (filter (in_region region) ground_data) =? 0)%nat
            || (List.length (rows (with_datetime F)) =? 0)%nat); [reflexivity|].
  now rewrite match_region_total.
Qed.

Lemma perform_total (ground_data : Series GroundRow) (tempo_data : TempoData) :
  perform_spatial_temporal_matching ground_data tempo_data
  = Ok (flat_map (pairs_of_region ground_data tempo_data)
                 (unique (region_values ground_data))).
Proof.
  unfold perform_spatial_temporal_matching.
  apply for_each_ok. intros region _. apply match_one_region_total.
Qed.

(** The ground row behind a pair of the region matcher. *)
Lemma region_pairs_source (ground_region : Series GroundRow) (F : TempoFrame)
    (mp : MatchedPair) :
  In mp (region_pairs_of ground_region F) ->
  exists i g,
    In (i, g) ground_region
    /\ region mp = get (g_region g) "Unknown"%string
    /\ city mp = g_city g
    /\ g_city g <> "Unknown"%string.
Proof.
  intros Hin. unfold region_pairs_of in Hin.
  apply in_flat_map in Hin. destruct Hin as (c & Hc & Hin).
  apply filter_In in Hc. destruct Hc as [_ Hc].
  apply negb_true_iff, String.eqb_neq in Hc.
  apply in_flat_map in Hin. destruct Hin as (g & Hg & Hin).
  apply in_map_iff in Hg. destruct Hg as ([i g'] & Hsnd & Hrow). simpl in Hsnd. subst g'.
  apply filter_In in Hrow. destruct Hrow as [Hrow Hcity].
  apply String.eqb_eq in Hcity. simpl in Hcity. subst c.
  exists i, g. split; [exact Hrow|].
  unfold appended in Hin.
  destruct (valid g (quality_filter F)) as [|e V] eqn:EV.
  { rewrite (match_region_row_skips _ _ _ _ EV) in Hin. easy. }
  destruct (match_region_row_selects (columns F) (quality_filter F) (g_city g) g)
    as (k & q & N1 & N2 & p & p' & _ & _ & _ & _ & _ & Hres).
  { rewrite EV. discriminate. }
  rewrite Hres in Hin. unfold emit in Hin.
  destruct (pollutant_col_of (parameter g)) as [col|]; [|easy].
  destruct (has_column col (columns F)); [|easy].
  destruct (pd_notna (cells p col) && cell_neb (cells p col) (-999)); [|easy].
  destruct Hin as [<-|[]]. cbn. now repeat split.
Qed.

Lemma tempo_region_map_some (region name : string) :
  tempo_region_map region = Some name ->
  In (region, name) [("Canada", "CANADA"); ("NYC", "NYC"); ("Mexico", "MEXICO")]%string.
Proof.
  unfold tempo_region_map.
  destruct (String.eqb region "Canada") eqn:E1.
  { apply String.eqb_eq in E1. intros [= <-]. subst. now left. }
  destruct (String.eqb region "NYC") eqn:E2.
  { apply String.eqb_eq in E2. intros [= <-]. subst. right. now left. }
  destruct (String.eqb region "Mexico") eqn:E3; [|discriminate].
  apply String.eqb_eq in E3. intros [= <-]. subst. right. right. now left.
Qed.

(** X26.  When every frame of [tempo_data] has a unique row index, every
    pair the driver returns belongs to a ground row of the input whose
    region is Canada, NYC or Mexico and whose city is not the
    placeholder; the satellite frame was found under the upper-case key
    of that region, and the pair carries the region and the city of its
    ground row. *)
Theorem perform_matching_provenance (ground_data : Series GroundRow)
    (tempo_data : TempoData) :
  (forall key F, dict_get tempo_data key = Some F -> NoDup (labels (rows F))) ->
  exists pairs,
    perform_spatial_temporal_matching ground_data tempo_data = Ok pairs
    /\ forall mp, In mp pairs ->
         exists i g key F,
           In (i, g) ground_data
           /\ g_region g = Some (region mp)
           /\ city mp = g_city g
           /\ g_city g <> "Unknown"%string
           /\ In (region mp, key)
                 [("Canada", "CANADA"); ("NYC", "NYC"); ("Mexico", "MEXICO")]%string
           /\ dict_get tempo_data key = Some F
           /\ rows F <> [].
Proof.
  intros _.
  eexists. split; [apply perform_total|].
  intros mp Hin. apply in_flat_map in Hin. destruct Hin as (reg & _ & Hin).
  unfold pairs_of_region, match_one_region in Hin. cbv zeta in Hin.
  destruct (tempo_region_map reg) as [name|] eqn:Emap; [|easy].
  destruct (dict_get tempo_data name) as [F|] eqn:Eget; [|easy].
  destruct ((List.length (filter (in_region reg) ground_data) =? 0)%nat
            || (List.length (rows (with_datetime F)) =? 0)%nat) eqn:Eempty; [easy|].
  rewrite match_region_total in Hin.
  destruct (region_pairs_source _ _ _ Hin) as (i & g & Hg & Hreg & Hcity & Hunk).
  apply filter_In in Hg. destruct Hg as [Hg Hsel].
  unfold in_region in Hsel. simpl in Hsel.
  destruct (g_region g) as [s|] eqn:Es; [|discriminate].
  apply String.eqb_eq in Hsel. subst s. simpl in Hreg.
  exists i, g, name, F.
  split; [exact Hg|]. split; [now rewrite Hreg|]. split; [exact Hcity|].
  split; [exact Hunk|]. split; [rewrite Hreg; now apply tempo_region_map_some|].
  split; [exact Eget|].
  apply orb_false_iff in Eempty. destruct Eempty as [_ E].
  simpl in E. intros Hnil. rewrite Hnil in E. discriminate.
Qed.

(** A dictionary with one frame, under the key the driver reads. *)
Definition nyc_tempo_data : TempoData :=
  [("NYC"%string, frame_of (pixel_at (3600 * 50)%Z (Num 5)) (pixel_at (3600 * 0)%Z (Num 6)))].

Lemma nyc_tempo_data_unique_index (key : string) (F : TempoFrame) :
  dict_get nyc_tempo_data key = Some F -> NoDup (labels (rows F)).
Proof.
  unfold nyc_tempo_data. cbn [dict_get].
  destruct (String.eqb "NYC" key); [|discriminate].
  intros [= <-]. apply NoDup_labels_two.
Qed.

Lemma perform_matching_provenance_witness :
  exists pairs,
    perform_spatial_temporal_matching [(0%nat, ground_obs)] nyc_tempo_data = Ok pairs
    /\ forall mp, In mp pairs ->
         exists i g key F,
           In (i, g) [(0%nat, ground_obs)]
           /\ g_region g = Some (region mp)
           /\ city mp = g_city g
           /\ g_city g <> "Unknown"%string
           /\ In (region mp, key)
                 [("Canada", "CANADA"); ("NYC", "NYC"); ("Mexico", "MEXICO")]%string
           /\ dict_get nyc_tempo_data key = Some F
           /\ rows F <> [].
Proof. apply perform_matching_provenance. exact nyc_tempo_data_unique_index. Defined.

(** X27.  The driver looks frames up under the keys CANADA, NYC and MEXICO: a
    dictionary without these keys, such as one keyed Canada and Mexico,
    yields no pair at all. *)
Theorem perform_matching_needs_upper_case_keys (ground_data : Series GroundRow)
    (tempo_data : TempoData) :
  dict_get tempo_data "CANADA" = None ->
  dict_get tempo_data "NYC" = None ->
  dict_get tempo_data "MEXICO" = None ->
  perform_spatial_temporal_matching ground_data tempo_data = Ok [].
Proof.
  intros Hc Hn Hm. rewrite perform_total. f_equal.
  induction (unique (region_values ground_data)) as [|reg regs IH]; [reflexivity|].
  cbn [flat_map]. rewrite IH, app_nil_r.
  unfold pairs_of_region, match_one_region. cbv zeta.
  destruct (tempo_region_map reg) as [name|] eqn:Emap; [|reflexivity].
  apply tempo_region_map_some in Emap.
  destruct Emap as [[= _ <-]|[[= _ <-]|[[= _ <-]|[]]]].
  - now rewrite Hc.
  - now rewrite Hn.
  - now rewrite Hm.
Qed.

Definition canada_obs : GroundRow :=
  {| g_latitude := 40; g_longitude := -74; utc := 0%Z; parameter := "NO2"%string;
     g_city := "Toronto"%string; g_region := Some "Canada"%string;
     value := Some 30; aqi := None |}.

Lemma perform_matching_needs_upper_case_keys_witness :
  perform_spatial_temporal_matching [(0%nat, canada_obs)]
    [("Canada"%string, frame_of (pixel_at 0%Z (Num 5)) (pixel_at 0%Z (Num 6)))]
  = Ok [].
Proof. apply perform_matching_needs_upper_case_keys; reflexivity. Defined.

End Perform.

(* ================================================================== *)
(** * 23. Further facts: event-aware stratification *)
(* ================================================================== *)

Module Stratify.
Import Np.

(** The columns of the matched frame the stratification reads; the
    ground time is counted in whole seconds since the epoch. *)
Record MatchedRow : Type := {
  ground_time : Z;
  ground_value : float;
  tempo_value : float
}.

(** [.dt.hour] and [.dt.dayofweek] (Monday is 0; the epoch fell on a
    Thursday). *)
Definition hour (t : Z) : Z := ((t / 3600) mod 24)%Z.
Definition dayofweek (t : Z) : Z := ((t / 86400 + 3) mod 7)%Z.

(** [dayofweek.isin([5, 6])] and [hour.between(6, 18)]. *)
Definition is_weekend (r : MatchedRow) : bool :=
  let d := dayofweek (ground_time r) in (d =? 5)%Z || (d =? 6)%Z.

Definition is_daytime (r : MatchedRow) : bool :=
  let h := hour (ground_time r) in (6 <=? h)%Z && (h <=? 18)%Z.

Inductive aqi_level : Type := Good | Moderate | Unhealthy | VeryUnhealthy.

Definition label (l : aqi_level) : string :=
  match l with
  | Good => "Good"
  | Moderate => "Moderate"
  | Unhealthy => "Unhealthy"
  | VeryUnhealthy => "Very Unhealthy"
  end.

Definition level_eqb (a b : aqi_level) : bool :=
  match a, b with
  | Good, Good | Moderate, Moderate | Unhealthy, Unhealthy
  | VeryUnhealthy, VeryUnhealthy => true
  | _, _ => false
  end.

(** [pd.cut(v, bins=[0, 50, 100, 200, 500], labels=...)]: the bins are
    open on the left and closed on the right; a value in no bin, and
    NaN, gets no level. *)
Definition pd_cut (v : float) : option aqi_level :=
  match v with
  | Fin q =>
      if Qle_bool q 0 then None
      else if Qle_bool q 50 then Some Good
      else if Qle_bool q 100 then Some Moderate
      else if Qle_bool q 200 then Some Unhealthy
      else if Qle_bool q 500 then Some VeryUnhealthy
      else None
  | _ => None
  end.

(** [matched_data['aqi_level'] == level]. *)
Definition has_level (l : aqi_level) (r : MatchedRow) : bool :=
  match pd_cut (ground_value r) with
  | Some l' => level_eqb l' l
  | None => false
  end.

(** One value of [stratification_results]. *)
Record entry : Type := {
  r2 : float;
  rmse : float;
  n : nat
}.

Section WithMetrics.

(** The [try: ... except: r2, rmse = 0, 0] block: a pair of numbers on
    either path. *)
Variable metrics : list MatchedRow -> float * float.

(** The body shared by the three loops: a stratum is stored when it has
    more than ten rows. *)
Definition stratum (name : string) (period_data : list MatchedRow)
  : list (string * entry) :=
  if (10 <? List.length period_data)%nat then
    [(name, {| r2 := fst (metrics period_data);
               rmse := snd (metrics period_data);
               n := List.length period_data |})]
  else [].

(** [event_aware_stratification(matched_data)]: the dict, in insertion
    order. *)
Definition event_aware_stratification (matched_data : list MatchedRow)
  : list (string * entry) :=
  stratum "Daytime" (filter is_daytime matched_data)
  ++ stratum "Nighttime" (filter (fun r => negb (is_daytime r)) matched_data)
  ++ stratum "Weekend" (filter is_weekend matched_data)
  ++ stratum "Weekday" (filter (fun r => negb (is_weekend r)) matched_data)
  ++ flat_map (fun l => stratum ("AQI_" ++ label l) (filter (has_level l) matched_data))
              [Good; Moderate; Unhealthy; VeryUnhealthy].

(** ** Facts *)

Lemma stratum_In (name : string) (period_data : list MatchedRow) (k : string) (e : entry) :
  In (k, e) (stratum name period_data) ->
  k = name /\ (10 < List.length period_data)%nat /\ n e = List.length period_data.
Proof.
  unfold stratum.
  destruct (10 <? List.length period_data)%nat eqn:E; [|easy].
  intros [[= <- <-]|[]]. apply Nat.ltb_lt in E. now repeat split.
Qed.

Lemma filter_complement_length {A : Type} (p : A -> bool) (l : list A) :
  (List.length (filter p l) + List.length (filter (fun a => negb (p a)) l)
   = List.length l)%nat.
Proof.
  induction l as [|a l IH]; simpl; [reflexivity|].
  destruct (p a); simpl; lia.
Qed.

(** The source of an entry, by its key. *)
Lemma stratification_In (matched_data : list MatchedRow) (k : string) (e : entry) :
  In (k, e) (event_aware_stratification matched_data) ->
  (10 < n e)%nat
  /\ ((k = "Daytime"%string /\ n e = List.length (filter is_daytime matched_data))
      \/ (k = "Nighttime"%string
          /\ n e = List.length (filter (fun r => negb (is_daytime r)) matched_data))
      \/ (k = "Weekend"%string /\ n e = List.length (filter is_weekend matched_data))
      \/ (k = "Weekday"%string
          /\ n e = List.length (filter (fun r => negb (is_weekend r)) matched_data))
      \/ exists l, k = ("AQI_" ++ label l)%string
                   /\ n e = List.length (filter (has_level l) matched_data)).
Proof.
  unfold event_aware_stratification. intros H.
  apply in_app_or in H. destruct H as [H|H].
  { apply stratum_In in H. destruct H as (-> & Hn & He). split; [lia|]. now left. }
  apply in_app_or in H. destruct H as [H|H].
  { apply stratum_In in H. destruct H as (-> & Hn & He). split; [lia|]. right. now left. }
  apply in_app_or in H. destruct H as [H|H].
  { apply stratum_In in H. destruct H as (-> & Hn & He). split; [lia|].
    right. right. now left. }
  apply in_app_or in H. destruct H as [H|H].
  { apply stratum_In in H. destruct H as (-> & Hn & He). split; [lia|].
    right. right. right. now left. }
  apply in_flat_map in H. destruct H as (l & _ & H).
  apply stratum_In in H. destruct H as (-> & Hn & He). split; [lia|].
  right. right. right. right. now exists l.
Qed.

End WithMetrics.

(** X28.  Every stratum reported holds more than ten rows; when both Daytime
    and Nighttime are reported their sizes add up to the whole frame, and
    so do those of Weekend and Weekday. *)
Theorem stratification_complements_partition
    (metrics : list MatchedRow -> float * float) (matched_data : list MatchedRow) :
  (forall k e, In (k, e) (event_aware_stratification metrics matched_data) ->
               (10 < n e <= List.length matched_data)%nat)
  /\ (forall e1 e2,
        In ("Daytime"%string, e1) (event_aware_stratification metrics matched_data) ->
        In ("Nighttime"%string, e2) (event_aware_stratification metrics matched_data) ->
        (n e1 + n e2 = List.length matched_data)%nat)
  /\ (forall e1 e2,
        In ("Weekend"%string, e1) (event_aware_stratification metrics matched_data) ->
        In ("Weekday"%string, e2) (event_aware_stratification metrics matched_data) ->
        (n e1 + n e2 = List.length matched_data)%nat).
Proof.
  split; [|split].
  - intros k e H. apply stratification_In in H. destruct H as [Hn H].
    split; [exact Hn|].
    destruct H as [[_ ->]|[[_ ->]|[[_ ->]|[[_ ->]|(l & _ & ->)]]]]; apply filter_length_le.
  - intros e1 e2 H1 H2.
    apply stratification_In in H1. apply stratification_In in H2.
    destruct H1 as [_ [[_ ->]|[[H _]|[[H _]|[[H _]|(l & H & _)]]]]];
      try discriminate H; try (destruct l; discriminate H).
    destruct H2 as [_ [[H _]|[[_ ->]|[[H _]|[[H _]|(l & H & _)]]]]];
      try discriminate H; try (destruct l; discriminate H).
    apply filter_complement_length.
  - intros e1 e2 H1 H2.
    apply stratification_In in H1. apply stratification_In in H2.
    destruct H1 as [_ [[H _]|[[H _]|[[_ ->]|[[H _]|(l & H & _)]]]]];
      try discriminate H; try (destruct l; discriminate H).
    destruct H2 as [_ [[H _]|[[H _]|[[H _]|[[_ ->]|(l & H & _)]]]]];
      try discriminate H; try (destruct l; discriminate H).
    apply filter_complement_length.
Qed.

(** X29.  The AQI bins start above zero and end at 500: a frame whose ground
    values are all zero or below, above 500, or not finite, gets no AQI
    stratum, however many rows it has. *)
Theorem stratification_aqi_bins_exclude_zero
    (metrics : list MatchedRow -> float * float) (matched_data : list MatchedRow) :
  (forall r, In r matched_data ->
     match ground_value r with
     | Fin q => (q <= 0 \/ 500 < q)%Q
     | _ => True
     end) ->
  filter (fun ke => String.prefix "AQI_" (fst ke))
         (event_aware_stratification metrics matched_data) = [].
Proof.
  intros Hall.
  assert (Hnone : forall l', filter (has_level l') matched_data = []).
  { intros l'. induction matched_data as [|r rows IH]; [reflexivity|].
    cbn [filter].
    assert (Hr : has_level l' r = false).
    { specialize (Hall r (or_introl eq_refl)). unfold has_level, pd_cut.
      destruct (ground_value r) as [q| | |]; try reflexivity.
      destruct (Qle_bool q 0) eqn:E0; [reflexivity|].
      destruct Hall as [H|H]; [apply Qle_bool_iff in H; congruence|].
      assert (E : forall b, (b <= 500)%Q -> Qle_bool q b = false).
      { intros b Hb. destruct (Qle_bool q b) eqn:Eb; [|reflexivity].
        apply Qle_bool_iff in Eb. exfalso.
        apply (Qlt_irrefl 500). apply Qlt_le_trans with q; [exact H|].
        now apply Qle_trans with b. }
      rewrite (E 50%Q), (E 100%Q), (E 200%Q), (E 500%Q) by discriminate. reflexivity. }
    rewrite Hr. apply IH. intros r' Hr'. apply Hall. now right. }
  destruct (filter _ (event_aware_stratification metrics matched_data))
    as [|[k e] rest] eqn:E; [reflexivity|].
  exfalso.
  assert (Hin : In (k, e) (filter (fun ke => String.prefix "AQI_" (fst ke))
                                  (event_aware_stratification metrics matched_data)))
    by (rewrite E; now left).
  apply filter_In in Hin. destruct Hin as [Hin Hp]. simpl in Hp.
  apply stratification_In in Hin. destruct Hin as [Hn Hin].
  destruct Hin as [[-> _]|[[-> _]|[[-> _]|[[-> _]|(l' & _ & He)]]]];
    try discriminate Hp.
  rewrite Hnone in He. simpl in He. lia.
Qed.

(** ** A concrete frame: twelve pairs recorded at the epoch (a Thursday,
    midnight) with a ground value of zero. *)
Definition zero_rows : list MatchedRow :=
  repeat {| ground_time := 0; ground_value := Fin 0; tempo_value := Fin 1 |} 12.

Definition zero_metrics (l : list MatchedRow) : float * float := (Fin 0, Fin 0).

Lemma stratification_aqi_bins_exclude_zero_witness :
  filter (fun ke => String.prefix "AQI_" (fst ke))
         (event_aware_stratification zero_metrics zero_rows) = [].
Proof.
  apply stratification_aqi_bins_exclude_zero.
  intros r Hr. apply repeat_spec in Hr. subst r. simpl. left. discriminate.
Defined.

End Stratify.
